(** * API-VaultGuard: the vault core, embedded and verified

    A shallow embedding of the password-protected vault of the
    repository and the proofs of its specification.  The code embedded:

    - [crypto.ts], the second half of [src/lib/storage.ts]: [deriveKey],
      [encryptData], [decryptData];
    - [storage.ts], the first half of [src/lib/storage.ts]:
      [saveVaultData], [loadVaultData], [vaultExists], [importVault],
      [clearVault];
    - the page [Index], at the end of [src/components/AddKeyDialog.tsx]:
      [handleAuth] with its inner [validatePasswordStrength], and
      [handleLock];
    - the component [AuthScreen], at the head of [src/unnamed/part_000]:
      [validatePasswordStrength] and [handleSubmit];
    - the component [SecureVault], at the end of
      [src/components/SettingsDialog.tsx]: the effects that load and save
      the vault, and [handleImportVault].

    JavaScript strings are sequences of UTF-16 code units, byte buffers
    ([Uint8Array]) are lists of bytes, the values that [JSON.parse]
    returns are an inductive type of JavaScript values, [localStorage]
    is a finite map from strings to strings, and a function that can
    throw returns a sum whose left side is the exception.  State is
    passed explicitly: a handler takes the state of the page and the
    storage and returns the new ones.  [btoa], [atob], [TextEncoder] and
    [TextDecoder] are defined from their specifications; the WebCrypto
    primitives and the JSON codec are an interface, [Platform], the
    program is written over.  Random draws are arguments, and time (the
    delay of [handleAuth], the debounce of the auto-save) is not
    modelled.  The platform also gives what the engine leaves open: how
    many arguments a call takes before it throws, and the exponent form
    of a large number. *)

From Stdlib Require Import ZArith NArith List Bool Lia.
From Stdlib Require Import Strings.String Strings.Ascii Strings.Byte.
From Stdlib Require Import DecimalString ZifyNat ZifyN.
From stdpp Require Import base option list gmap.

Set Warnings "-register-all".

Local Open Scope N_scope.

(** ** JavaScript strings *)

(** A string is the list of its UTF-16 code units; [length] is the
    [.length] property. *)
Abbreviation jsstring := (list N).

(** The code unit of an ASCII character, and the string of a literal. *)
Definition ch (a : ascii) : N := N_of_ascii a.

Definition lit (s : string) : jsstring := map ch (list_ascii_of_string s).

(** [dquote] is the code unit of the double quote character. *)
Definition dquote : N := 34.

Definition jsstring_eqb (a b : jsstring) : bool := bool_decide (a = b).

(** [String(n)] for an integer [n]. *)
Definition decimal (n : Z) : jsstring :=
  lit (NilZero.string_of_int (Z.to_int n)).

(** ** Exceptions and results *)

(** What the platform and the program throw.  [ErrorFrom p e] is
    [new Error(p + e)]: the message is the prefix [p] followed by the
    text of the caught exception [e], whose wording for platform
    exceptions is left to the engine. *)
Inductive exn : Type :=
  | TypeError
  | RangeError
  | SyntaxError
  | InvalidCharacterError
  | OperationError
  | Error (message : jsstring)
  | ErrorFrom (prefix : jsstring) (cause : exn).

(** A computation that returns [A] or throws. *)
Abbreviation result := (sum exn).

Definition throw {A : Type} (e : exn) : result A := inl e.

#[global] Instance result_ret : MRet result := fun _ x => inr x.

#[global] Instance result_bind : MBind result := fun _ _ f m =>
  match m with
  | inl e => inl e
  | inr x => f x
  end.

(** [try { m } catch (error) { h error }]. *)
Definition try_catch {A : Type} (m : result A) (h : exn -> result A)
  : result A :=
  match m with
  | inl e => h e
  | inr x => inr x
  end.

(** ** JavaScript values *)

(** The values the program handles: what [JSON.parse] returns, plus
    [undefined] (a missing property) and one opaque built-in function
    (an inherited method read as a property).  Numbers are the integers.
    An array carries its elements and the properties assigned to it
    besides; the property list of an object holds each name once. *)
Inductive value : Type :=
  | VUndefined
  | VNull
  | VBool (b : bool)
  | VNumber (n : Z)
  | VString (s : jsstring)
  | VArray (elems : list value) (props : list (jsstring * value))
  | VObject (props : list (jsstring * value))
  | VFunction.

Abbreviation object := (list (jsstring * value)).

Fixpoint lookup_prop (p : jsstring) (o : object) : option value :=
  match o with
  | [] => None
  | (q, v) :: o' => if jsstring_eqb p q then Some v else lookup_prop p o'
  end.

(** Define or overwrite the own property [p]. *)
Fixpoint set_prop (p : jsstring) (v : value) (o : object) : object :=
  match o with
  | [] => [(p, v)]
  | (q, w) :: o' =>
      if jsstring_eqb p q then (q, v) :: o' else (q, w) :: set_prop p v o'
  end.

(** [v.p] for the property names the program reads ([data], [salt],
    [iv], [keys], [settings], [version], [name]): an own property, or
    for [keys] on an array the inherited method, or [undefined]. *)
Definition get (v : value) (p : jsstring) : result value :=
  match v with
  | VUndefined | VNull => throw TypeError
  | VObject o => mret (default VUndefined (lookup_prop p o))
  | VArray _ o =>
      match lookup_prop p o with
      | Some x => mret x
      | None =>
          if jsstring_eqb p (lit "keys") then mret VFunction
          else mret VUndefined
      end
  | _ => mret VUndefined
  end.

(** [v.p = x] in strict mode (modules are strict): it throws on
    [undefined], [null] and on primitive values. *)
Definition set (v : value) (p : jsstring) (x : value) : result value :=
  match v with
  | VObject o => mret (VObject (set_prop p x o))
  | VArray l o => mret (VArray l (set_prop p x o))
  | VFunction => mret VFunction
  | _ => throw TypeError
  end.

(** [ToBoolean]. *)
Definition truthy (v : value) : bool :=
  match v with
  | VUndefined | VNull => false
  | VBool b => b
  | VNumber n => negb (n =? 0)%Z
  | VString s => negb (jsstring_eqb s [])
  | _ => true
  end.

Definition Array_isArray (v : value) : bool :=
  match v with
  | VArray _ _ => true
  | _ => false
  end.

(** Index properties [0], [1], ... of a list of values. *)
Fixpoint indexed (i : nat) (l : list value) : object :=
  match l with
  | [] => []
  | x :: l' => (decimal (Z.of_nat i), x) :: indexed (S i) l'
  end.

(** The own enumerable properties copied by [...v] in an object
    literal. *)
Definition own_props (v : value) : object :=
  match v with
  | VObject o => o
  | VArray l o => indexed 0 l ++ o
  | VString s => indexed 0 (map (fun c => VString [c]) s)
  | _ => []
  end.

(** [{ ...a, ...v }] for an object [a]. *)
Definition spread (a : object) (v : value) : object :=
  fold_left (fun o pv => set_prop (fst pv) (snd pv) o) (own_props v) a.

(** ** Password strength, [AuthScreen.tsx] and [Index.tsx] *)

(** [/[lo-hi]/] on one code unit. *)
Definition in_range (lo hi c : N) : bool := (lo <=? c) && (c <=? hi).

(** [re.test(s)] for a regular expression that is a single character
    class without flags: some code unit of [s] is in the class. *)
Definition test (cls : N -> bool) (s : jsstring) : bool := existsb cls s.

Definition upper_class : N -> bool := in_range (ch "A"%char) (ch "Z"%char).
Definition lower_class : N -> bool := in_range (ch "a"%char) (ch "z"%char).
Definition digit_class : N -> bool := in_range (ch "0"%char) (ch "9"%char).

(** The characters of the symbol class of both strength checks: the
    thirteen characters before the double quote, the double quote, and
    the six after it. *)
Definition symbol_chars : jsstring :=
  lit "!@#$%^&*(),.?" ++ [dquote] ++ lit ":{}|<>".

Definition symbol_class (c : N) : bool := existsb (N.eqb c) symbol_chars.

Inductive Mode : Type := create | unlock.

Definition Mode_eqb (a b : Mode) : bool :=
  match a, b with
  | create, create | unlock, unlock => true
  | _, _ => false
  end.

Module AuthScreen.

Record Missing : Type := {
  upperCase : bool;
  lowerCase : bool;
  numbers : bool;
  symbols : bool;
  length_ : bool
}.

Record Validation : Type := {
  isValid : bool;
  missing : Missing
}.

Definition validatePasswordStrength (password : jsstring) : Validation :=
  let hasUpperCase := test upper_class password in
  let hasLowerCase := test lower_class password in
  let hasNumbers := test digit_class password in
  let hasSymbols := test symbol_class password in
  let isLongEnough := 8 <=? N.of_nat (length password) in
  {| isValid := hasUpperCase && hasLowerCase && hasNumbers && hasSymbols
                && isLongEnough;
     missing := {| upperCase := negb hasUpperCase;
                   lowerCase := negb hasLowerCase;
                   numbers := negb hasNumbers;
                   symbols := negb hasSymbols;
                   length_ := negb isLongEnough |} |}.

(** [handleSubmit]: [Some password] when [onAuth(password)] is called,
    [None] when the handler returns before. *)
Definition handleSubmit (mode : Mode) (password confirmPassword : jsstring)
  : option jsstring :=
  if Mode_eqb mode create && negb (jsstring_eqb password confirmPassword)
  then None
  else if Mode_eqb mode create then
    let validation := validatePasswordStrength password in
    if negb (isValid validation) then None else Some password
  else if N.of_nat (length password) <? 8 then None
  else Some password.

End AuthScreen.

(** The check of [handleAuth] in [Index.tsx], on the reset path. *)
Definition validatePasswordStrength (password : jsstring) : bool :=
  let hasUpperCase := test upper_class password in
  let hasLowerCase := test lower_class password in
  let hasNumbers := test digit_class password in
  let hasSymbols := test symbol_class password in
  let isLongEnough := 8 <=? N.of_nat (length password) in
  hasUpperCase && hasLowerCase && hasNumbers && hasSymbols && isLongEnough.

(** ** Byte buffers *)

#[global] Instance byte_eq_decision : EqDecision byte := Byte.byte_eq_dec.

(** An element of a [Uint8Array]; storing a number keeps it modulo 256. *)
Definition byte_of_N (n : N) : byte :=
  default x00 (Byte.of_N (n mod 256)).

(** The numbers that are the value of a byte. *)
Definition byte_value (n : N) : Prop := n < 256.

(** The string whose code units are the bytes: what
    [String.fromCharCode(...bytes)] returns when the call goes through.
    The call itself, which throws when it is given more arguments than
    the engine takes, is [String_fromCharCode] below. *)
Definition fromCharCode (bytes : list byte) : jsstring := map Byte.to_N bytes.

(** [new Uint8Array(s.split('').map(char => char.charCodeAt(0)))]. *)
Definition charCodes (s : jsstring) : list byte := map byte_of_N s.

(** ** [btoa] and [atob] *)

(** The base64 alphabet: the character of a 6-bit group and back. *)
Definition b64_char (i : N) : N :=
  if i <? 26 then ch "A"%char + i
  else if i <? 52 then ch "a"%char + (i - 26)
  else if i <? 62 then ch "0"%char + (i - 52)
  else if i =? 62 then ch "+"%char
  else ch "/"%char.

Definition b64_index (c : N) : option N :=
  if in_range (ch "A"%char) (ch "Z"%char) c then Some (c - ch "A"%char)
  else if in_range (ch "a"%char) (ch "z"%char) c then Some (c - ch "a"%char + 26)
  else if in_range (ch "0"%char) (ch "9"%char) c then Some (c - ch "0"%char + 52)
  else if c =? ch "+"%char then Some 62
  else if c =? ch "/"%char then Some 63
  else None.

Definition pad : N := ch "="%char.

(** The 6-bit groups of a list of byte values, three bytes to four
    groups; a final byte or two give two or three groups, filled with
    zero bits. *)
Fixpoint b64_groups (l : list N) : list N :=
  match l with
  | [] => []
  | [a] => [a / 4; a mod 4 * 16]
  | [a; b] => [a / 4; a mod 4 * 16 + b / 16; b mod 16 * 4]
  | a :: b :: c :: r =>
      [a / 4; a mod 4 * 16 + b / 16; b mod 16 * 4 + c / 64; c mod 64]
      ++ b64_groups r
  end.

(** The number of padding characters of the encoding of [n] bytes. *)
Definition padding (n : nat) : nat := ((3 - n mod 3) mod 3)%nat.

(** Base64 with padding: the characters of the groups, filled up to a
    multiple of four. *)
Definition b64_encode (l : list N) : jsstring :=
  map b64_char (b64_groups l) ++ repeat pad (padding (length l)).

(** [btoa(s)]: throws when a code unit of [s] is above 255. *)
Definition btoa (s : jsstring) : result jsstring :=
  if forallb (fun c => c <=? 255) s then mret (b64_encode s)
  else throw InvalidCharacterError.

Definition is_ascii_whitespace (c : N) : bool :=
  (c =? 9) || (c =? 10) || (c =? 12) || (c =? 13) || (c =? 32).

(** If the length is a multiple of four, drop one or two final padding
    characters. *)
Definition strip_padding (s : jsstring) : jsstring :=
  if N.of_nat (length s) mod 4 =? 0 then
    match rev s with
    | p1 :: p2 :: r =>
        if p1 =? pad then if p2 =? pad then rev r else rev (p2 :: r)
        else s
    | [p1] => if p1 =? pad then [] else s
    | [] => s
    end
  else s.

(** The bytes of a list of 6-bit groups; a final group of two or three
    gives one or two bytes, the spare bits dropped. *)
Fixpoint b64_bytes (l : list N) : list N :=
  match l with
  | a :: b :: c :: d :: r =>
      [a * 4 + b / 16; b mod 16 * 16 + c / 4; c mod 4 * 64 + d]
      ++ b64_bytes r
  | [a; b; c] => [a * 4 + b / 16; b mod 16 * 16 + c / 4]
  | [a; b] => [a * 4 + b / 16]
  | _ => []
  end.

(** [atob(s)], the forgiving base64 decoding: whitespace is ignored,
    padding is optional, and anything else outside the alphabet, or a
    length of one modulo four, throws. *)
Definition atob (s : jsstring) : result jsstring :=
  let s1 := filter (fun c => is_ascii_whitespace c = false) s in
  let s2 := strip_padding s1 in
  if N.of_nat (length s2) mod 4 =? 1 then throw InvalidCharacterError
  else
    match mapM b64_index s2 with
    | None => throw InvalidCharacterError
    | Some groups => mret (b64_bytes groups)
    end.

(** ** [TextEncoder] and [TextDecoder] (UTF-8) *)

Definition is_lead (c : N) : bool := in_range 0xD800 0xDBFF c.
Definition is_trail (c : N) : bool := in_range 0xDC00 0xDFFF c.

Definition replacement : N := 0xFFFD.

(** A Unicode scalar value: a code point that is not a surrogate. *)
Definition scalar (c : N) : Prop := c < 0xD800 \/ 0xE000 <= c < 0x110000.

(** The code points of a string; a surrogate that is not part of a pair
    becomes U+FFFD. *)
Fixpoint code_points (s : jsstring) : list N :=
  match s with
  | [] => []
  | c :: t =>
      if is_lead c then
        match t with
        | d :: t' =>
            if is_trail d
            then 0x10000 + (c - 0xD800) * 0x400 + (d - 0xDC00) :: code_points t'
            else replacement :: code_points t
        | [] => [replacement]
        end
      else if is_trail c then replacement :: code_points t
      else c :: code_points t
  end.

Definition utf8_encode1 (c : N) : list N :=
  if c <? 0x80 then [c]
  else if c <? 0x800 then [0xC0 + c / 64; 0x80 + c mod 64]
  else if c <? 0x10000 then
    [0xE0 + c / 4096; 0x80 + c / 64 mod 64; 0x80 + c mod 64]
  else
    [0xF0 + c / 262144; 0x80 + c / 4096 mod 64; 0x80 + c / 64 mod 64;
     0x80 + c mod 64].

(** [new TextEncoder().encode(s)]. *)
Definition TextEncoder_encode (s : jsstring) : list byte :=
  map byte_of_N (concat (map utf8_encode1 (code_points s))).

(** The state of the UTF-8 decoder. *)
Record utf8_state : Type := {
  code_point : N;
  bytes_seen : N;
  bytes_needed : N;
  lower_boundary : N;
  upper_boundary : N
}.

Definition utf8_init : utf8_state :=
  {| code_point := 0; bytes_seen := 0; bytes_needed := 0;
     lower_boundary := 0x80; upper_boundary := 0xBF |}.

(** A byte read with no sequence pending: the code points emitted and
    the next state. *)
Definition utf8_start (b : N) : list N * utf8_state :=
  if b <=? 0x7F then ([b], utf8_init)
  else if in_range 0xC2 0xDF b then
    ([], {| code_point := b mod 32; bytes_seen := 0; bytes_needed := 1;
            lower_boundary := 0x80; upper_boundary := 0xBF |})
  else if in_range 0xE0 0xEF b then
    ([], {| code_point := b mod 16; bytes_seen := 0; bytes_needed := 2;
            lower_boundary := if b =? 0xE0 then 0xA0 else 0x80;
            upper_boundary := if b =? 0xED then 0x9F else 0xBF |})
  else if in_range 0xF0 0xF4 b then
    ([], {| code_point := b mod 8; bytes_seen := 0; bytes_needed := 3;
            lower_boundary := if b =? 0xF0 then 0x90 else 0x80;
            upper_boundary := if b =? 0xF4 then 0x8F else 0xBF |})
  else ([replacement], utf8_init).

(** One byte through the decoder; an error emits U+FFFD, and a byte that
    breaks a pending sequence is read again from the initial state. *)
Definition utf8_step (st : utf8_state) (b : N) : list N * utf8_state :=
  if bytes_needed st =? 0 then utf8_start b
  else if negb (in_range (lower_boundary st) (upper_boundary st) b) then
    let (out, st') := utf8_start b in (replacement :: out, st')
  else
    let cp := code_point st * 64 + b mod 64 in
    if bytes_seen st + 1 =? bytes_needed st then ([cp], utf8_init)
    else ([], {| code_point := cp; bytes_seen := bytes_seen st + 1;
                 bytes_needed := bytes_needed st;
                 lower_boundary := 0x80; upper_boundary := 0xBF |}).

Fixpoint utf8_decode (st : utf8_state) (bs : list N) : list N :=
  match bs with
  | [] => if bytes_needed st =? 0 then [] else [replacement]
  | b :: r => let (out, st') := utf8_step st b in out ++ utf8_decode st' r
  end.

(** The code units of a code point. *)
Definition utf16_encode1 (c : N) : jsstring :=
  if c <? 0x10000 then [c]
  else [0xD800 + (c - 0x10000) / 0x400; 0xDC00 + (c - 0x10000) mod 0x400].

(** A leading byte order mark is not part of the text. *)
Definition strip_bom (cps : list N) : list N :=
  match cps with
  | c :: r => if c =? 0xFEFF then r else cps
  | [] => []
  end.

(** [new TextDecoder().decode(bytes)]: UTF-8, not fatal, the byte order
    mark dropped. *)
Definition TextDecoder_decode (bytes : list byte) : jsstring :=
  concat (map utf16_encode1
            (strip_bom (utf8_decode utf8_init (map Byte.to_N bytes)))).

(** A string is well formed when every code unit is a 16-bit value and
    every surrogate is part of a pair, lead then trail. *)
Fixpoint well_formed (s : jsstring) : bool :=
  match s with
  | [] => true
  | c :: t =>
      if is_lead c then
        match t with
        | d :: t' => is_trail d && well_formed t'
        | [] => false
        end
      else negb (is_trail c) && (c <? 0x10000) && well_formed t
  end.

Definition starts_with_bom (s : jsstring) : bool :=
  match s with
  | c :: _ => c =? 0xFEFF
  | [] => false
  end.

(** The strings that UTF-8 carries unchanged: well formed, and not
    starting with the byte order mark U+FEFF. *)
Definition utf8_exact (s : jsstring) : bool :=
  well_formed s && negb (starts_with_bom s).

(** ** The strength policy, in the words of the specification *)

(** The letters are the Latin letters A to Z and a to z, the digits 0
    to 9, as the form spells them out to the user, and the symbols the
    characters of the fixed set. *)

Definition uppercase_letter (c : N) : Prop := ch "A"%char <= c <= ch "Z"%char.
Definition lowercase_letter (c : N) : Prop := ch "a"%char <= c <= ch "z"%char.
Definition digit (c : N) : Prop := ch "0"%char <= c <= ch "9"%char.
Definition symbol (c : N) : Prop := c ∈ symbol_chars.

(** At least eight characters, and at least one each of uppercase
    letter, lowercase letter, digit and symbol. *)
Definition meets_policy (password : jsstring) : Prop :=
  (8 <= length password)%nat
  /\ Exists uppercase_letter password
  /\ Exists lowercase_letter password
  /\ Exists digit password
  /\ Exists symbol password.

(** ** [localStorage] *)

Abbreviation Storage := (gmap jsstring jsstring).

(** [getItem] answers [None] for [null]; [setItem] is taken not to
    fail. *)
Definition getItem (k : jsstring) (ls : Storage) : option jsstring := ls !! k.
Definition setItem (k v : jsstring) (ls : Storage) : Storage := <[k:=v]> ls.
Definition removeItem (k : jsstring) (ls : Storage) : Storage := delete k ls.

(** ** The vault: [crypto.ts], [storage.ts], [Index.tsx], [SecureVault.tsx] *)

Record EncryptedData : Type := {
  data : jsstring;
  salt : jsstring;
  iv : jsstring
}.

(** The object literal [{ data, salt, iv }]. *)
Definition value_of_EncryptedData (e : EncryptedData) : value :=
  VObject [(lit "data", VString (data e)); (lit "salt", VString (salt e));
           (lit "iv", VString (iv e))].

(** A record of the vault, as the interface [ApiKey] declares it. *)
Module ApiKey.

Record t : Type := {
  id : jsstring;
  name : jsstring;
  provider : jsstring;
  apiKey : jsstring;
  description : option jsstring;
  tags : list jsstring;
  expirationDate : option jsstring;
  createdAt : jsstring;
  updatedAt : jsstring;
  metadata : list (jsstring * jsstring)
}.

Definition optional (p : jsstring) (o : option jsstring) : object :=
  match o with
  | Some s => [(p, VString s)]
  | None => []
  end.

(** The object of a record. *)
Definition to_value (k : t) : value :=
  VObject
    ([(lit "id", VString (id k)); (lit "name", VString (name k));
      (lit "provider", VString (provider k));
      (lit "apiKey", VString (apiKey k))]
     ++ optional (lit "description") (description k)
     ++ [(lit "tags", VArray (map VString (tags k)) [])]
     ++ optional (lit "expirationDate") (expirationDate k)
     ++ [(lit "createdAt", VString (createdAt k));
         (lit "updatedAt", VString (updatedAt k));
         (lit "metadata",
          VObject (map (fun m => (fst m, VString (snd m))) (metadata k)))]).

End ApiKey.

(** [VaultData] as the code handles it: the records of [keys] and the
    fields of [settings] are whatever the parsed JSON held. *)
Record VaultData : Type := {
  keys : list value;
  settings : object;
  version : value
}.

(** The object literal [{ keys, settings, version }]. *)
Definition value_of_VaultData (d : VaultData) : value :=
  VObject [(lit "keys", VArray (keys d) []);
           (lit "settings", VObject (settings d));
           (lit "version", version d)].

Definition STORAGE_KEY : jsstring := lit "secure_vault_data".
Definition SETTINGS_KEY : jsstring := lit "vault_settings".

Definition DEFAULT_SETTINGS : object :=
  [(lit "clipboardClearTime", VNumber 30);
   (lit "autoLockTime", VNumber 15);
   (lit "darkMode", VBool false);
   (lit "showKeyPreview", VBool false)].

(** The vault of a first run, and the initial state of [SecureVault]. *)
Definition empty_vault : VaultData :=
  {| keys := []; settings := DEFAULT_SETTINGS; version := VNumber 1 |}.

Definition vaultExists (ls : Storage) : bool :=
  bool_decide (getItem STORAGE_KEY ls <> None).

Definition clearVault (ls : Storage) : Storage :=
  removeItem SETTINGS_KEY (removeItem STORAGE_KEY ls).

(** *** The platform *)

(** What the program takes from the browser besides the functions
    defined above.  WebCrypto: a key handle, [crypto.subtle.deriveKey]
    with PBKDF2 over SHA-256 from raw key material to an AES-GCM key of
    [bits] bits, and AES-GCM encryption and decryption under a key and
    an [iv]; decryption answers [None] where the promise rejects.
    JSON: [JSON.parse] and [JSON.stringify].

    The engine: [max_arguments], the number of arguments a call can be
    given, above which the spread [f(...array)] throws [RangeError] (the
    limit differs between engines, and within one engine it moves with
    the stack the call is made on; here it is one number); and
    [Number_exponent], the text of a number of magnitude 10^21 or more,
    which is printed with an exponent.  React: [React_commits] says, for
    vault data that is not of the shape the interface declares, whether
    the first render of [SecureVault] goes through and leaves the
    auto-save to run.

    One guarantee is taken of every platform: the ciphertext of the
    empty vault (its JSON text has 118 characters, AES-GCM adds 16
    bytes) is within the number of arguments a call takes. *)
Class Platform : Type := {
  CryptoKey : Type;
  PBKDF2_SHA256 :
    forall (keyMaterial salt : list byte) (iterations bits : N), CryptoKey;
  AES_GCM_encrypt : CryptoKey -> list byte -> list byte -> list byte;
  AES_GCM_decrypt : CryptoKey -> list byte -> list byte -> option (list byte);
  JSON_parse : jsstring -> result value;
  JSON_stringify : value -> jsstring;
  max_arguments : N;
  Number_exponent : Z -> jsstring;
  React_commits : value -> bool;
  empty_vault_spreads :
    forall (key : CryptoKey) (iv : list byte),
      N.of_nat
        (length
           (AES_GCM_encrypt key iv
              (TextEncoder_encode
                 (JSON_stringify (value_of_VaultData empty_vault)))))
      <= max_arguments
}.

Section Vault.

Context `{Platform}.

(** *** [crypto.ts] *)

Definition deriveKey (password : jsstring) (salt : list byte) : CryptoKey :=
  let keyMaterial := TextEncoder_encode password in
  PBKDF2_SHA256 keyMaterial salt 100000 256.

(** [String.fromCharCode(...bytes)]: the bytes are spread into the
    arguments of the call, which throws when they are more than the
    engine takes. *)
Definition String_fromCharCode (bytes : list byte) : result jsstring :=
  if N.of_nat (length bytes) <=? max_arguments then mret (fromCharCode bytes)
  else throw RangeError.

(** The bytes that [encryptData] spreads first: the ciphertext. *)
Definition ciphertext (salt iv : list byte) (data password : jsstring)
  : list byte :=
  AES_GCM_encrypt (deriveKey password salt) iv (TextEncoder_encode data).

(** [encryptData]; [salt] and [iv] are the two draws of
    [crypto.getRandomValues], of 16 and 12 bytes: their spreads, of 16
    and 12 arguments, go through. *)
Definition encryptData (salt iv : list byte) (data password : jsstring)
  : result EncryptedData :=
  let key := deriveKey password salt in
  let encryptedData := AES_GCM_encrypt key iv (TextEncoder_encode data) in
  chars ← String_fromCharCode encryptedData;
  d ← btoa chars;
  s ← btoa (fromCharCode salt);
  i ← btoa (fromCharCode iv);
  mret {| data := d; salt := s; iv := i |}.

(** [ToString], as [atob] applies it to its argument.  A number is
    printed in decimal digits below 10^21 and with an exponent from
    there.  An object is printed by the [toString] it inherits, unless a
    property of its own hides it: a property [toString] of a parsed
    object is no function, and leaves no way to a primitive value; a
    property [join] of an array that is no function sends
    [Array.prototype.toString] to the one of objects.  The function
    the model knows, [Array.prototype.keys], returns an iterator where
    it is called as a method, which is no primitive value either.  The
    text of a function is the one of V8; in every engine it holds
    parentheses. *)
Fixpoint ToString (v : value) : result jsstring :=
  match v with
  | VUndefined => mret (lit "undefined")
  | VNull => mret (lit "null")
  | VBool true => mret (lit "true")
  | VBool false => mret (lit "false")
  | VNumber n =>
      mret (if (Z.abs n <? 1000000000000000000000)%Z then decimal n
            else Number_exponent n)
  | VString s => mret s
  | VArray l o =>
      match lookup_prop (lit "toString") o with
      | Some _ => throw TypeError
      | None =>
          match lookup_prop (lit "join") o with
          | Some VFunction => throw TypeError
          | Some _ => mret (lit "[object Array]")
          | None =>
              (fix join (l : list value) : result jsstring :=
                 match l with
                 | [] => mret []
                 | x :: r =>
                     sx ← match x with
                          | VUndefined | VNull => mret []
                          | _ => ToString x
                          end;
                     match r with
                     | [] => mret sx
                     | _ :: _ =>
                         rest ← join r;
                         mret (sx ++ lit "," ++ rest)
                     end
                 end) l
          end
      end
  | VObject o =>
      match lookup_prop (lit "toString") o with
      | Some _ => throw TypeError
      | None => mret (lit "[object Object]")
      end
  | VFunction => mret (lit "function keys() { [native code] }")
  end.

(** [decryptData]; its argument is whatever [JSON.parse] returned. *)
Definition decryptData (encryptedData : value) (password : jsstring)
  : result jsstring :=
  s ← get encryptedData (lit "salt");
  saltText ← ToString s;
  saltChars ← atob saltText;
  let salt := charCodes saltChars in
  i ← get encryptedData (lit "iv");
  ivText ← ToString i;
  ivChars ← atob ivText;
  let iv := charCodes ivChars in
  d ← get encryptedData (lit "data");
  dataText ← ToString d;
  dataChars ← atob dataText;
  let data := charCodes dataChars in
  let key := deriveKey password salt in
  match AES_GCM_decrypt key iv data with
  | None => throw OperationError
  | Some decryptedData => mret (TextDecoder_decode decryptedData)
  end.

(** [decryptData(await encryptData(data, W1), W2)]. *)
Definition decrypt_of_encrypt (salt iv : list byte) (data W1 W2 : jsstring)
  : result jsstring :=
  e ← encryptData salt iv data W1;
  decryptData (value_of_EncryptedData e) W2.

(** *** [storage.ts] *)

(** [saveVaultData]; [salt] and [iv] are the random draws of the
    encryption. *)
Definition saveVaultData (salt iv : list byte) (data : value)
    (masterPassword : jsstring) (ls : Storage) : result unit * Storage :=
  let jsonData := JSON_stringify data in
  match encryptData salt iv jsonData masterPassword with
  | inr encryptedData =>
      (mret tt,
       setItem STORAGE_KEY
         (JSON_stringify (value_of_EncryptedData encryptedData)) ls)
  | inl error =>
      (throw (ErrorFrom (lit "Failed to save vault data: ") error), ls)
  end.

Definition load_failure : exn :=
  Error (lit "Failed to decrypt vault data. Check your master password.").

(** [loadVaultData]: the value returned or the error thrown, and the
    storage afterwards.  [!storedData] holds for [null] and for the
    empty string. *)
Definition loadVaultData (masterPassword : jsstring) (ls : Storage)
  : result value * Storage :=
  (try_catch
     (match getItem STORAGE_KEY ls with
      | None | Some [] => mret (value_of_VaultData empty_vault)
      | Some storedData =>
          encryptedData ← JSON_parse storedData;
          decryptedJson ← decryptData encryptedData masterPassword;
          data ← JSON_parse decryptedJson;
          dataSettings ← get data (lit "settings");
          set data (lit "settings")
            (VObject (spread DEFAULT_SETTINGS dataSettings))
      end)
     (fun error => throw load_failure),
   ls).

Definition invalid_backup : exn := Error (lit "Invalid backup file format").

Definition import_prefix : jsstring := lit "Failed to import vault data: ".

(** [importVault]: the result, and the storage afterwards. *)
Definition importVault (backupData masterPassword : jsstring) (ls : Storage)
  : result VaultData * Storage :=
  (try_catch
     (encryptedData ← JSON_parse backupData;
      decryptedJson ← decryptData encryptedData masterPassword;
      importedData ← JSON_parse decryptedJson;
      importedKeys ← get importedData (lit "keys");
      if negb (truthy importedKeys) || negb (Array_isArray importedKeys)
      then throw invalid_backup
      else
        importedSettings ← get importedData (lit "settings");
        importedVersion ← get importedData (lit "version");
        mret {| keys := match importedKeys with
                        | VArray elems _ => elems
                        | _ => []
                        end;
                settings := spread DEFAULT_SETTINGS importedSettings;
                version := if truthy importedVersion then importedVersion
                           else VNumber 1 |})
     (fun error => throw (ErrorFrom import_prefix error)),
   ls).

(** *** [Index.tsx] *)

Record Toast : Type := {
  title : jsstring;
  description : jsstring
}.

(** The state of the page: its six [useState] cells. *)
Record IndexState : Type := {
  isAuthenticated : bool;
  masterPassword : jsstring;
  authMode : Mode;
  authError : jsstring;
  authLoading : bool;
  failedAttempts : Z
}.

Definition setIsAuthenticated (v : bool) (s : IndexState) : IndexState :=
  {| isAuthenticated := v; masterPassword := masterPassword s;
     authMode := authMode s; authError := authError s;
     authLoading := authLoading s; failedAttempts := failedAttempts s |}.

Definition setMasterPassword (v : jsstring) (s : IndexState) : IndexState :=
  {| isAuthenticated := isAuthenticated s; masterPassword := v;
     authMode := authMode s; authError := authError s;
     authLoading := authLoading s; failedAttempts := failedAttempts s |}.

Definition setAuthMode (v : Mode) (s : IndexState) : IndexState :=
  {| isAuthenticated := isAuthenticated s; masterPassword := masterPassword s;
     authMode := v; authError := authError s;
     authLoading := authLoading s; failedAttempts := failedAttempts s |}.

Definition setAuthError (v : jsstring) (s : IndexState) : IndexState :=
  {| isAuthenticated := isAuthenticated s; masterPassword := masterPassword s;
     authMode := authMode s; authError := v;
     authLoading := authLoading s; failedAttempts := failedAttempts s |}.

Definition setAuthLoading (v : bool) (s : IndexState) : IndexState :=
  {| isAuthenticated := isAuthenticated s; masterPassword := masterPassword s;
     authMode := authMode s; authError := authError s;
     authLoading := v; failedAttempts := failedAttempts s |}.

Definition setFailedAttempts (v : Z) (s : IndexState) : IndexState :=
  {| isAuthenticated := isAuthenticated s; masterPassword := masterPassword s;
     authMode := authMode s; authError := authError s;
     authLoading := authLoading s; failedAttempts := v |}.

(** How a block ends: it runs to its end, or throws. *)
Inductive completion : Type :=
  | Done
  | Thrown (e : exn).

Definition reset_error : jsstring :=
  lit "New vault password must include uppercase letters, lowercase letters, numbers, and symbols (! @ # $ % ^ & * etc.)".

Definition too_many_error : jsstring :=
  lit "Too many failed attempts. The next password you enter will create a new vault and erase all existing data.".

(** The template of the warning after a failed attempt, [left] being
    [2 - newFailedAttempts]. *)
Definition remaining_error (left : Z) : jsstring :=
  lit "Incorrect password. " ++ decimal left ++ lit " attempt"
  ++ (if (left =? 1)%Z then [] else lit "s")
  ++ lit " remaining before data reset.".

Definition error_message (e : exn) : jsstring :=
  match e with
  | Error m => m
  | _ => lit "Authentication failed"
  end.

(** The [try] block of [handleAuth].  The handler reads the state [st]
    of the render it was created in; [s] collects the updates. *)
Definition handleAuth_try (password : jsstring) (st s : IndexState)
    (ls : Storage) : completion * IndexState * Storage * list Toast :=
  let succeed (ls : Storage) :=
    (Done,
     setFailedAttempts 0
       (setIsAuthenticated true (setMasterPassword password s)),
     ls,
     [match authMode st with
      | create =>
          {| title := lit "Vault Created";
             description :=
               lit "Your secure vault has been created successfully" |}
      | unlock =>
          {| title := lit "Vault Unlocked";
             description := lit "Welcome back to your secure vault" |}
      end]) in
  if Mode_eqb (authMode st) unlock then
    if (2 <=? failedAttempts st)%Z then
      if negb (validatePasswordStrength password) then
        (Thrown (Error (lit "Password does not meet requirements")),
         setAuthError reset_error s, ls, [])
      else
        let ls := clearVault ls in
        (Done,
         setAuthMode unlock
           (setFailedAttempts 0
              (setIsAuthenticated true (setMasterPassword password s))),
         ls,
         [{| title := lit "New Vault Created";
             description :=
               lit "Previous data has been erased and a new secure vault has been created" |}])
    else
      match loadVaultData password ls with
      | (inr _, ls) => succeed ls
      | (inl error, ls) =>
          let newFailedAttempts := (failedAttempts st + 1)%Z in
          let s := setFailedAttempts newFailedAttempts s in
          if (2 <=? newFailedAttempts)%Z then
            (Thrown (Error (lit "Maximum attempts reached")),
             setAuthError too_many_error s, ls, [])
          else
            (Thrown (Error (lit "Incorrect password")),
             setAuthError (remaining_error (2 - newFailedAttempts)) s,
             ls, [])
      end
  else succeed ls.

(** [handleAuth]: the new state, the storage and the toasts shown. *)
Definition handleAuth (password : jsstring) (st : IndexState) (ls : Storage)
  : IndexState * Storage * list Toast :=
  let s := setAuthLoading true (setAuthError [] st) in
  let '(c, s, ls, toasts) := handleAuth_try password st s ls in
  let s :=
    match c with
    | Thrown error =>
        if Mode_eqb (authMode st) create
        then setAuthError (error_message error) s
        else s
    | Done => s
    end in
  (setAuthLoading false s, ls, toasts).

Definition handleLock (st : IndexState) : IndexState * list Toast :=
  (setAuthMode unlock
     (setFailedAttempts 0
        (setAuthError [] (setMasterPassword [] (setIsAuthenticated false st)))),
   [{| title := lit "Vault Locked";
       description := lit "Your vault has been securely locked" |}]).

(** The form of [AuthScreen] submitted on the page: [handleSubmit]
    guards the call of [onAuth], which is [handleAuth]. *)
Definition submit (password confirmPassword : jsstring) (st : IndexState)
    (ls : Storage) : IndexState * Storage * list Toast :=
  match AuthScreen.handleSubmit (authMode st) password confirmPassword with
  | Some password => handleAuth password st ls
  | None => (st, ls, [])
  end.

(** What the page renders: the vault when [isAuthenticated &&
    masterPassword], else the form in its mode, with the count of
    failures. *)
Inductive AuthState : Type :=
  | NoVault
  | Locked (failures : Z)
  | Unlocked.

Definition auth_state (st : IndexState) : AuthState :=
  if isAuthenticated st && negb (jsstring_eqb (masterPassword st) [])
  then Unlocked
  else match authMode st with
       | create => NoVault
       | unlock => Locked (failedAttempts st)
       end.

(** *** [SecureVault.tsx] *)

(** The equality of [Set.prototype.has] on values that do not share an
    object: primitive values by value, and an object or an array equal
    to no other. *)
Definition same_value_zero (a b : value) : bool :=
  match a, b with
  | VUndefined, VUndefined | VNull, VNull => true
  | VBool x, VBool y => eqb x y
  | VNumber x, VNumber y => (x =? y)%Z
  | VString x, VString y => jsstring_eqb x y
  | _, _ => false
  end.

Definition Set_has (elements : list value) (x : value) : bool :=
  existsb (same_value_zero x) elements.

(** [l.filter(k => !existingNames.has(k.name))]. *)
Fixpoint filter_new (existingNames : list value) (l : list value)
  : result (list value) :=
  match l with
  | [] => mret []
  | k :: l' =>
      name ← get k (lit "name");
      rest ← filter_new existingNames l';
      mret (if negb (Set_has existingNames name) then k :: rest else rest)
  end.

(** The body of [handleImportVault] after the backup is read: the next
    state and the number of keys added.  [vaultData] is the state of the
    render the handler was created in, [prev] the state the update is
    applied to. *)
Definition merge_import (vaultData prev importedData : VaultData)
  : result (VaultData * nat) :=
  existingNames ← mapM (fun k => get k (lit "name")) (keys vaultData);
  newKeys ← filter_new existingNames (keys importedData);
  mret ({| keys := keys prev ++ newKeys;
           settings := spread (settings prev)
                         (VObject (settings importedData));
           version := version prev |},
        length newKeys).

(** [handleImportVault] on the text of the chosen file: the next state,
    the storage, and the toast ([inr n]: imported, with [n] new keys;
    [inl e]: import failed). *)
Definition handleImportVault (text masterPassword : jsstring)
    (vaultData prev : VaultData) (ls : Storage)
  : VaultData * Storage * result nat :=
  match importVault text masterPassword ls with
  | (inr importedData, ls) =>
      match merge_import vaultData prev importedData with
      | inr (next, n) => (next, ls, inr n)
      | inl err => (prev, ls, inl err)
      end
  | (inl err, ls) => (prev, ls, inl err)
  end.

(** Vault data of the shape the interface [VaultData] declares, as far
    as the first render and the effects of [SecureVault] read it: the
    keys an array, the two times numbers, the two switches booleans.
    The time of the auto-lock is one whose timer, of that many minutes
    in milliseconds, does not overflow the 32 bits of a timeout. *)
Definition declared_shape (data : value) : bool :=
  match data with
  | VObject o =>
      match lookup_prop (lit "keys") o, lookup_prop (lit "settings") o with
      | Some (VArray _ []), Some (VObject s) =>
          match lookup_prop (lit "clipboardClearTime") s,
                lookup_prop (lit "autoLockTime") s,
                lookup_prop (lit "darkMode") s,
                lookup_prop (lit "showKeyPreview") s with
          | Some (VNumber _), Some (VNumber autoLockTime), Some (VBool _),
            Some (VBool _) => (autoLockTime <=? 35791)%Z
          | _, _, _, _ => false
          end
      | _, _ => false
      end
  | _ => false
  end.

(** The two effects that follow the mount of [SecureVault] with a master
    password: the vault is loaded, and what the component then holds is
    saved once the debounce of the auto-save elapses.  When the load
    failed the component shows the error and holds its initial empty
    vault, which is saved.  When it succeeded the component renders the
    loaded data, the main menu first: data of the declared shape is
    rendered and saved; data without [keys] throws in the render, where
    [vaultData.keys.length] is read, and nothing is saved; for any other
    data the platform says. *)
Definition mount (salt iv : list byte) (masterPassword : jsstring)
    (ls : Storage) : value * Storage :=
  let initial := value_of_VaultData empty_vault in
  let '(loaded, ls) := loadVaultData masterPassword ls in
  let save (vaultData : value) :=
    let '(_, ls) := saveVaultData salt iv vaultData masterPassword ls in
    (vaultData, ls) in
  match loaded with
  | inl _ => save initial
  | inr data =>
      if declared_shape data then save data
      else
        match get data (lit "keys") with
        | inl _ | inr VUndefined | inr VNull => (data, ls)
        | inr _ => if React_commits data then save data else (data, ls)
        end
  end.

End Vault.

(** *** Laws of the platform *)

(** AES-GCM decrypts what it encrypted under the same key and [iv]. *)
Definition aead_correct `{Platform} : Prop :=
  forall (k : CryptoKey) (iv plaintext : list byte),
    AES_GCM_decrypt k iv (AES_GCM_encrypt k iv plaintext) = Some plaintext.


(** A ciphertext shorter than a tag is rejected. *)
Definition gcm_short `{Platform} : Prop :=
  forall (k : CryptoKey) (iv d : list byte),
    (length d < 16)%nat -> AES_GCM_decrypt k iv d = None.

(** PBKDF2 keys HMAC with the key material, and HMAC fills a key
    shorter than its block of 64 bytes with zero bytes: a key material
    of fewer than 64 bytes and the same followed by a zero byte derive
    the same key. *)
Definition hmac_zero_padding `{Platform} : Prop :=
  forall (m salt : list byte) (iterations bits : N),
    (length m < 64)%nat ->
    PBKDF2_SHA256 (m ++ [x00]) salt iterations bits
    = PBKDF2_SHA256 m salt iterations bits.

(** ** A reference platform *)

(** An executable platform on which the program can be run: a toy
    cipher of the shape of AES-GCM, and the JSON codec on the JSON texts
    whose numbers are integers.  The derived key is the tuple of what it
    was derived from, the key material filled with zero bytes as HMAC
    fills it; a ciphertext is the plaintext followed by a tag of 16
    bytes, a checksum of the key, the [iv] and the plaintext, and
    decryption rejects what does not end in the tag of what goes
    before.  A call takes 65536 arguments. *)
Module Reference.

(** A self-delimiting copy of [l]: its length in unary, a zero, [l]. *)
Definition frame (l : list byte) : list byte :=
  repeat x01 (length l) ++ x00 :: l.

Definition Key : Type := list byte * list byte * N * N.

(** The key of HMAC for a key material: filled with zero bytes up to
    the block of 64 bytes.  A longer key material, which HMAC replaces
    by its digest, stands for itself. *)
Definition hmac_key (keyMaterial : list byte) : list byte :=
  keyMaterial ++ repeat x00 (64 - length keyMaterial).

Definition checksum (l : list byte) : N :=
  fold_left
    (fun acc b => (acc * 1099511628211 + Byte.to_N b + 1) mod 2 ^ 128)
    l 14695981039346656037.

(** The 16 bytes of a number below 2^128. *)
Definition bytes16 (n : N) : list byte :=
  [byte_of_N n; byte_of_N (n / 2 ^ 8); byte_of_N (n / 2 ^ 16);
   byte_of_N (n / 2 ^ 24); byte_of_N (n / 2 ^ 32); byte_of_N (n / 2 ^ 40);
   byte_of_N (n / 2 ^ 48); byte_of_N (n / 2 ^ 56); byte_of_N (n / 2 ^ 64);
   byte_of_N (n / 2 ^ 72); byte_of_N (n / 2 ^ 80); byte_of_N (n / 2 ^ 88);
   byte_of_N (n / 2 ^ 96); byte_of_N (n / 2 ^ 104); byte_of_N (n / 2 ^ 112);
   byte_of_N (n / 2 ^ 120)].

Definition tag (k : Key) (iv body : list byte) : list byte :=
  let key := k.1.1.1 in
  let salt := k.1.1.2 in
  bytes16 (checksum (frame key ++ frame salt ++ frame iv ++ body)).

Definition encrypt (k : Key) (iv plaintext : list byte) : list byte :=
  plaintext ++ tag k iv plaintext.

Definition decrypt (k : Key) (iv ciphertext : list byte)
  : option (list byte) :=
  if (length ciphertext <? 16)%nat then None
  else
    let body := take (length ciphertext - 16) ciphertext in
    if bool_decide (drop (length ciphertext - 16) ciphertext = tag k iv body)
    then Some body
    else None.

Fixpoint drop_zeros (s : jsstring) : jsstring :=
  match s with
  | [] => []
  | c :: r => if c =? ch "0"%char then drop_zeros r else s
  end.

(** The exponent form of an integer: its first digit, the digits that
    follow up to the last that is not zero, and the exponent. *)
Definition exponent_form (n : Z) : jsstring :=
  let digits := decimal (Z.abs n) in
  let significant := rev (drop_zeros (rev digits)) in
  (if (n <? 0)%Z then lit "-" else [])
  ++ take 1 significant
  ++ (match drop 1 significant with
      | [] => []
      | more => lit "." ++ more
      end)
  ++ lit "e+" ++ decimal (Z.of_nat (length digits - 1)).

(** *** Reading JSON *)

Definition is_json_ws (c : N) : bool :=
  (c =? 32) || (c =? 9) || (c =? 10) || (c =? 13).

Fixpoint skip_ws (s : jsstring) : jsstring :=
  match s with
  | c :: r => if is_json_ws c then skip_ws r else s
  | [] => []
  end.

Definition hex_digit (c : N) : option N :=
  if in_range (ch "0"%char) (ch "9"%char) c then Some (c - ch "0"%char)
  else if in_range (ch "a"%char) (ch "f"%char) c then Some (c - ch "a"%char + 10)
  else if in_range (ch "A"%char) (ch "F"%char) c then Some (c - ch "A"%char + 10)
  else None.

(** The character of a two-character escape. *)
Definition unescape (e : N) : option N :=
  if e =? dquote then Some dquote
  else if e =? ch "\"%char then Some (ch "\"%char)
  else if e =? ch "/"%char then Some (ch "/"%char)
  else if e =? ch "b"%char then Some 8
  else if e =? ch "f"%char then Some 12
  else if e =? ch "n"%char then Some 10
  else if e =? ch "r"%char then Some 13
  else if e =? ch "t"%char then Some 9
  else None.

(** A string literal after its opening quote: the string and the text
    left after the closing quote. *)
Fixpoint read_string (s : jsstring) : option (jsstring * jsstring) :=
  match s with
  | [] => None
  | c :: r =>
      if c =? dquote then Some ([], r)
      else if c =? ch "\"%char then
        match r with
        | [] => None
        | e :: r1 =>
            match unescape e with
            | Some x =>
                '(t, rest) ← read_string r1; Some (x :: t, rest)
            | None =>
                if e =? ch "u"%char then
                  match r1 with
                  | h1 :: h2 :: h3 :: h4 :: r2 =>
                      d1 ← hex_digit h1; d2 ← hex_digit h2;
                      d3 ← hex_digit h3; d4 ← hex_digit h4;
                      '(t, rest) ← read_string r2;
                      Some (((d1 * 16 + d2) * 16 + d3) * 16 + d4 :: t, rest)
                  | _ => None
                  end
                else None
            end
        end
      else if c <? 32 then None
      else '(t, rest) ← read_string r; Some (c :: t, rest)
  end.

Definition is_digit (c : N) : bool := in_range (ch "0"%char) (ch "9"%char) c.

(** The digits at the head of a text, as a number, and the rest. *)
Fixpoint read_digits (acc : Z) (s : jsstring) : Z * jsstring :=
  match s with
  | c :: r =>
      if is_digit c
      then read_digits (acc * 10 + Z.of_N (c - ch "0"%char)) r
      else (acc, s)
  | [] => (acc, [])
  end.

(** An integer literal: no leading zero, and no fraction or exponent
    after it. *)
Definition read_number (s : jsstring) : option (Z * jsstring) :=
  let '(negative, s1) :=
    match s with
    | c :: r => if c =? ch "-"%char then (true, r) else (false, s)
    | [] => (false, s)
    end in
  match s1 with
  | c :: r =>
      if negb (is_digit c) then None
      else if (c =? ch "0"%char)
              && match r with d :: _ => is_digit d | [] => false end
      then None
      else
        let '(n, rest) := read_digits 0 s1 in
        match rest with
        | d :: _ =>
            if (d =? ch "."%char) || (d =? ch "e"%char) || (d =? ch "E"%char)
            then None
            else Some (if negative then (- n)%Z else n, rest)
        | [] => Some (if negative then (- n)%Z else n, rest)
        end
  | [] => None
  end.

Definition expect (word : jsstring) (v : value) (s : jsstring)
  : option (value * jsstring) :=
  if bool_decide (take (length word) s = word)
  then Some (v, drop (length word) s)
  else None.

(** A value at the head of a text, with the text left; [fuel] bounds
    the nesting and the number of elements read. *)
Fixpoint read_value (fuel : nat) (s : jsstring) : option (value * jsstring) :=
  match fuel with
  | O => None
  | S fuel =>
      match skip_ws s with
      | [] => None
      | c :: r =>
          if c =? ch "{"%char then
            match skip_ws r with
            | d :: r1 =>
                if d =? ch "}"%char then Some (VObject [], r1)
                else
                  '(members, rest) ← read_members fuel r;
                  Some (VObject
                          (fold_left (fun o m => set_prop (fst m) (snd m) o)
                             members []),
                        rest)
            | [] => None
            end
          else if c =? ch "["%char then
            match skip_ws r with
            | d :: r1 =>
                if d =? ch "]"%char then Some (VArray [] [], r1)
                else
                  '(elems, rest) ← read_elements fuel r;
                  Some (VArray elems [], rest)
            | [] => None
            end
          else if c =? dquote then
            '(t, rest) ← read_string r; Some (VString t, rest)
          else if c =? ch "t"%char then expect (lit "true") (VBool true) (c :: r)
          else if c =? ch "f"%char then expect (lit "false") (VBool false) (c :: r)
          else if c =? ch "n"%char then expect (lit "null") VNull (c :: r)
          else '(n, rest) ← read_number (c :: r); Some (VNumber n, rest)
      end
  end
with read_elements (fuel : nat) (s : jsstring)
  : option (list value * jsstring) :=
  match fuel with
  | O => None
  | S fuel =>
      '(v, r) ← read_value fuel s;
      match skip_ws r with
      | c :: r1 =>
          if c =? ch ","%char then
            '(vs, rest) ← read_elements fuel r1; Some (v :: vs, rest)
          else if c =? ch "]"%char then Some ([v], r1)
          else None
      | [] => None
      end
  end
with read_members (fuel : nat) (s : jsstring)
  : option (list (jsstring * value) * jsstring) :=
  match fuel with
  | O => None
  | S fuel =>
      match skip_ws s with
      | q :: r0 =>
          if q =? dquote then
            '(name, r) ← read_string r0;
            match skip_ws r with
            | c :: r1 =>
                if c =? ch ":"%char then
                  '(v, r2) ← read_value fuel r1;
                  match skip_ws r2 with
                  | d :: r3 =>
                      if d =? ch ","%char then
                        '(ms, rest) ← read_members fuel r3;
                        Some ((name, v) :: ms, rest)
                      else if d =? ch "}"%char then Some ([(name, v)], r3)
                      else None
                  | [] => None
                  end
                else None
            | [] => None
            end
          else None
      | [] => None
      end
  end.

Definition parse (s : jsstring) : result value :=
  match read_value (2 * length s + 2) s with
  | Some (v, rest) =>
      match skip_ws rest with
      | [] => mret v
      | _ :: _ => throw SyntaxError
      end
  | None => throw SyntaxError
  end.

(** *** Writing JSON *)

Definition hex_char (d : N) : N :=
  if d <? 10 then ch "0"%char + d else ch "a"%char + (d - 10).

Definition unicode_escape (c : N) : jsstring :=
  [ch "\"%char; ch "u"%char; hex_char (c / 4096); hex_char (c / 256 mod 16);
   hex_char (c / 16 mod 16); hex_char (c mod 16)].

Definition escape1 (c : N) : jsstring :=
  if c =? 8 then lit "\b"
  else if c =? 9 then lit "\t"
  else if c =? 10 then lit "\n"
  else if c =? 12 then lit "\f"
  else if c =? 13 then lit "\r"
  else if c =? dquote then [ch "\"%char; dquote]
  else if c =? ch "\"%char then lit "\\"
  else if c <? 32 then unicode_escape c
  else [c].

(** The characters of a string literal: a surrogate outside a pair is
    escaped. *)
Fixpoint escape (s : jsstring) : jsstring :=
  match s with
  | [] => []
  | c :: t =>
      if is_lead c then
        match t with
        | d :: t' =>
            if is_trail d then c :: d :: escape t'
            else unicode_escape c ++ escape t
        | [] => unicode_escape c
        end
      else if is_trail c then unicode_escape c ++ escape t
      else escape1 c ++ escape t
  end.

Definition quote (s : jsstring) : jsstring := dquote :: escape s ++ [dquote].

Fixpoint join_comma (l : list jsstring) : jsstring :=
  match l with
  | [] => []
  | [x] => x
  | x :: r => x ++ lit "," ++ join_comma r
  end.

(** The text of a value.  In an array [undefined] is written as
    [null]; a member of an object whose value is [undefined] is left
    out. *)
Fixpoint stringify (v : value) : jsstring :=
  match v with
  | VUndefined | VFunction | VNull => lit "null"
  | VBool true => lit "true"
  | VBool false => lit "false"
  | VNumber n => decimal n
  | VString s => quote s
  | VArray l _ =>
      lit "["
      ++ join_comma
           ((fix elements (l : list value) : list jsstring :=
               match l with
               | [] => []
               | x :: r => stringify x :: elements r
               end) l)
      ++ lit "]"
  | VObject o =>
      lit "{"
      ++ join_comma
           ((fix members (o : object) : list jsstring :=
               match o with
               | [] => []
               | (k, x) :: r =>
                   match x with
                   | VUndefined | VFunction => members r
                   | _ => (quote k ++ lit ":" ++ stringify x) :: members r
                   end
               end) o)
      ++ lit "}"
  end.

(** What the toy cipher adds to a plaintext. *)
Definition encrypt_length (k : Key) (iv plaintext : list byte) :
  length (encrypt k iv plaintext) = (length plaintext + 16)%nat :=
  length_app plaintext (tag k iv plaintext).

Definition platform : Platform :=
  {| CryptoKey := Key;
     PBKDF2_SHA256 := fun keyMaterial salt iterations bits =>
                        (hmac_key keyMaterial, salt, iterations, bits);
     AES_GCM_encrypt := encrypt;
     AES_GCM_decrypt := decrypt;
     JSON_parse := parse;
     JSON_stringify := stringify;
     max_arguments := 65536;
     Number_exponent := exponent_form;
     React_commits := fun _ => true;
     empty_vault_spreads := fun k iv =>
       eq_ind_r (fun n => N.of_nat n <= 65536)
         (proj1
            (N.leb_le
               (N.of_nat
                  (length
                     (TextEncoder_encode
                        (stringify (value_of_VaultData empty_vault)))
                   + 16))
               65536)
            (eq_refl true))
         (encrypt_length k iv
            (TextEncoder_encode (stringify (value_of_VaultData empty_vault))))
  |}.

End Reference.

(** ** Concrete runs *)

(** Inputs on which the program is run on the reference platform. *)
Module Example.

Definition salt0 : list byte :=
  [x01; x02; x03; x04; x05; x06; x07; x08; x09; x0a; x0b; x0c; x0d; x0e;
   x0f; x10].

Definition iv0 : list byte :=
  [xa0; xa1; xa2; xa3; xa4; xa5; xa6; xa7; xa8; xa9; xaa; xab].

Definition password : jsstring := lit "Str0ng!Pass".

Definition record (nm : string) : ApiKey.t :=
  {| ApiKey.id := lit "id-" ++ lit nm;
     ApiKey.name := lit nm;
     ApiKey.provider := lit "openai";
     ApiKey.apiKey := lit "sk-test";
     ApiKey.description := None;
     ApiKey.tags := [lit "prod"];
     ApiKey.expirationDate := None;
     ApiKey.createdAt := lit "2024-01-01T00:00:00.000Z";
     ApiKey.updatedAt := lit "2024-01-01T00:00:00.000Z";
     ApiKey.metadata := [] |}.

(** A vault with the records A and B. *)
Definition vault : VaultData :=
  {| keys := map ApiKey.to_value [record "A"; record "B"];
     settings := DEFAULT_SETTINGS;
     version := VNumber 1 |}.

(** The text of the envelope of a value under a password. *)
Definition envelope (v : value) (pw : jsstring) : jsstring :=
  match @encryptData Reference.platform salt0 iv0
          (Reference.stringify v) pw with
  | inr e => Reference.stringify (value_of_EncryptedData e)
  | inl _ => []
  end.

(** What the reference codec reads from a text. *)
Definition parsed (text : jsstring) : value :=
  match Reference.parse text with
  | inr v => v
  | inl _ => VNull
  end.

(** The storage that holds the envelope of a value. *)
Definition stored (v : value) (pw : jsstring) : Storage :=
  setItem STORAGE_KEY (envelope v pw) ∅.

(** The state of the page in [Locked n]. *)
Definition locked (n : Z) : IndexState :=
  {| isAuthenticated := false; masterPassword := []; authMode := unlock;
     authError := []; authLoading := false; failedAttempts := n |}.

(** A text of 65536 characters: its ciphertext has more bytes than a
    call takes arguments on the reference platform. *)
Definition long_text : jsstring := repeat (ch "a"%char) (N.to_nat 65536).

(** A vault object without a version, and objects with the versions 0
    and -1. *)
Definition no_version : value :=
  VObject [(lit "keys", VArray [] []); (lit "settings", VObject [])].

Definition with_version (n : Z) : value :=
  VObject [(lit "keys", VArray [] []); (lit "settings", VObject []);
           (lit "version", VNumber n)].

(** A backup whose keys are an array of values that are not records. *)
Definition not_records : value :=
  VObject [(lit "keys", VArray [VNull; VNumber 1] [])].

(** A backup whose keys are not an array. *)
Definition keys_not_array : value :=
  VObject [(lit "keys", VString (lit "none")); (lit "version", VNumber 1)].


End Example.
(** ** The rest of the program *)

(** Besides the vault core, embedded below with the same conventions:
    [generateSecureString] and the timer of [copyToClipboard]
    ([crypto.ts]); [exportVault] ([storage.ts]); the condition that
    enables the submit button of [AuthScreen]; [maskKey] of [KeyCard];
    [handleSave], [addTag] and [removeTag] of [AddKeyDialog];
    [handleAddKey], [handleUpdateKey], [handleDeleteKey] and
    [handleUpdateSettings] of [SecureVault], on records typed as the
    interface [ApiKey] declares them; and the page [Index] as a machine
    driven by the form, the lock and the saves of the vault. *)

(** *** [crypto.ts]: test strings and the clipboard *)

Definition chars : jsstring :=
  lit "ABCDEFGHIJKLMNOPQRSTUVWXYZabcdefghijklmnopqrstuvwxyz0123456789".

(** [generateSecureString]; [array] is the draw of
    [crypto.getRandomValues], of the length asked for.  An index outside
    [chars] would read [undefined], which [join] prints as the empty
    string. *)
Definition generateSecureString (array : list byte) : jsstring :=
  concat
    (map (fun byte =>
            match chars !! N.to_nat (Byte.to_N byte
                                     mod N.of_nat (length chars)) with
            | Some c => [c]
            | None => []
            end)
         array).

(** The callback of the timer that [copyToClipboard] starts for [text],
    run on a clipboard: [readText] answers its content, or rejects when
    the page may not read ([permitted] false), which the callback
    swallows. *)
Definition clear_clipboard (text : jsstring) (permitted : bool)
    (clipboard : jsstring) : jsstring :=
  if permitted then
    let currentClipboard := clipboard in
    if jsstring_eqb currentClipboard text then [] else clipboard
  else clipboard.

(** What happens to the clipboard: [copyToClipboard(text)] writes it,
    the timer of an earlier copy fires, or something else writes it. *)
Inductive ClipboardEvent : Type :=
  | Copy (text : jsstring)
  | TimerFires (text : jsstring) (permitted : bool)
  | OtherWrite (text : jsstring).

Definition clipboard_step (clipboard : jsstring) (e : ClipboardEvent)
  : jsstring :=
  match e with
  | Copy text => text
  | TimerFires text permitted => clear_clipboard text permitted clipboard
  | OtherWrite text => text
  end.

(** *** [AuthScreen.tsx]: the submit button *)

Module AuthScreenRender.

(** [passwordValidation.isValid]. *)
Definition passwordValidation (mode : Mode) (password : jsstring) : bool :=
  if Mode_eqb mode create
  then AuthScreen.isValid (AuthScreen.validatePasswordStrength password)
  else 8 <=? N.of_nat (length password).

Definition isValid (mode : Mode) (password confirmPassword : jsstring)
  : bool :=
  passwordValidation mode password
  && (Mode_eqb mode unlock || jsstring_eqb password confirmPassword).

(** The attribute [disabled] of the submit button. *)
Definition disabled (mode : Mode) (password confirmPassword : jsstring)
    (loading : bool) : bool :=
  negb (isValid mode password confirmPassword) || loading.

End AuthScreenRender.

(** *** [KeyCard.tsx]: the masked key *)

Module KeyCard.

Definition stars (n : nat) : jsstring := repeat (ch "*"%char) n.

Definition maskKey (key : jsstring) : jsstring :=
  if (length key <=? 8)%nat then stars (length key)
  else take 4 key ++ stars (Nat.max (length key - 8) 4)
       ++ drop (length key - 4) key.

(** What the card prints for a key. *)
Definition shown (showKey showKeyPreview : bool) (apiKey : jsstring)
  : jsstring :=
  if showKey || showKeyPreview then apiKey else maskKey apiKey.

End KeyCard.

(** *** [String.prototype.trim] and [Array.prototype.includes] *)

(** The code units that [trim] removes: WhiteSpace and LineTerminator
    of the language, all of them in the basic plane. *)
Definition is_white_space (c : N) : bool :=
  existsb (N.eqb c)
    [0x9; 0xA; 0xB; 0xC; 0xD; 0x20; 0xA0; 0x1680; 0x2028; 0x2029; 0x202F;
     0x205F; 0x3000; 0xFEFF]
  || in_range 0x2000 0x200A c.

Fixpoint trimStart (s : jsstring) : jsstring :=
  match s with
  | [] => []
  | c :: s' => if is_white_space c then trimStart s' else s
  end.

Definition trimEnd (s : jsstring) : jsstring := rev (trimStart (rev s)).

Definition trim (s : jsstring) : jsstring := trimEnd (trimStart s).

(** [l.includes(x)] on an array of strings. *)
Definition Array_includes (l : list jsstring) (x : jsstring) : bool :=
  existsb (jsstring_eqb x) l.

(** Tags as the dialog keeps them: pairwise different, trimmed and not
    empty. *)
Definition well_kept (tags : list jsstring) : Prop :=
  NoDup tags /\ Forall (fun t => t <> [] /\ trim t = t) tags.

(** *** [AddKeyDialog.tsx] *)

(** What the dialog hands to [onSave]: a record without [id],
    [createdAt] and [updatedAt]. *)
Module KeyData.

Record t : Type := {
  name : jsstring;
  provider : jsstring;
  apiKey : jsstring;
  description : option jsstring;
  tags : list jsstring;
  expirationDate : option jsstring;
  metadata : list (jsstring * jsstring)
}.

End KeyData.

Module AddKeyDialog.

(** The form; a chosen expiration date is held by its ISO string. *)
Record FormData : Type := {
  name : jsstring;
  provider : jsstring;
  apiKey : jsstring;
  description : jsstring;
  tags : list jsstring;
  expirationDate : option jsstring;
  metadata : list (jsstring * jsstring)
}.

Definition set_tags (v : list jsstring) (prev : FormData) : FormData :=
  {| name := name prev; provider := provider prev; apiKey := apiKey prev;
     description := description prev; tags := v;
     expirationDate := expirationDate prev; metadata := metadata prev |}.

(** [handleSave]: [Some keyData] when [onSave(keyData)] is called. *)
Definition handleSave (formData : FormData) : option KeyData.t :=
  if jsstring_eqb (name formData) [] || jsstring_eqb (provider formData) []
     || jsstring_eqb (apiKey formData) []
  then None
  else Some {| KeyData.name := name formData;
               KeyData.provider := provider formData;
               KeyData.apiKey := apiKey formData;
               KeyData.description := Some (description formData);
               KeyData.tags := tags formData;
               KeyData.expirationDate := expirationDate formData;
               KeyData.metadata := metadata formData |}.

(** [addTag]: the form and the tag input afterwards.  [formData] is the
    form of the render the handler was created in, [prev] the form the
    update is applied to. *)
Definition addTag (formData prev : FormData) (newTag : jsstring)
  : FormData * jsstring :=
  if negb (jsstring_eqb (trim newTag) [])
     && negb (Array_includes (tags formData) (trim newTag))
  then (set_tags (tags prev ++ [trim newTag]) prev, [])
  else (prev, newTag).

Definition removeTag (tagToRemove : jsstring) (prev : FormData) : FormData :=
  set_tags
    (filter (fun tag => negb (jsstring_eqb tag tagToRemove)) (tags prev))
    prev.

End AddKeyDialog.

(** *** [SecureVault.tsx]: the handlers of the records *)

Module SecureVault.

Record VaultSettings : Type := {
  clipboardClearTime : Z;
  autoLockTime : Z;
  darkMode : bool;
  showKeyPreview : bool
}.

(** The vault data of the component, with the types the interfaces
    declare. *)
Record State : Type := {
  keys : list ApiKey.t;
  settings : VaultSettings;
  version : Z
}.

Definition set_keys (v : list ApiKey.t) (prev : State) : State :=
  {| keys := v; settings := settings prev; version := version prev |}.

(** [{ ...keyData, id, createdAt, updatedAt }]. *)
Definition with_stamps (keyData : KeyData.t) (id createdAt updatedAt : jsstring)
  : ApiKey.t :=
  {| ApiKey.id := id;
     ApiKey.name := KeyData.name keyData;
     ApiKey.provider := KeyData.provider keyData;
     ApiKey.apiKey := KeyData.apiKey keyData;
     ApiKey.description := KeyData.description keyData;
     ApiKey.tags := KeyData.tags keyData;
     ApiKey.expirationDate := KeyData.expirationDate keyData;
     ApiKey.createdAt := createdAt;
     ApiKey.updatedAt := updatedAt;
     ApiKey.metadata := KeyData.metadata keyData |}.

(** [handleAddKey]; [id] is the draw of [crypto.randomUUID], [createdAt]
    and [updatedAt] the two readings of the clock. *)
Definition handleAddKey (keyData : KeyData.t)
    (id createdAt updatedAt : jsstring) (prev : State) : State :=
  let newKey := with_stamps keyData id createdAt updatedAt in
  set_keys (keys prev ++ [newKey]) prev.

(** [handleUpdateKey]; [updatedAt] is the reading of the clock. *)
Definition handleUpdateKey (editingKey : option ApiKey.t)
    (keyData : KeyData.t) (updatedAt : jsstring) (prev : State) : State :=
  match editingKey with
  | None => prev
  | Some editingKey =>
      let updatedKey :=
        with_stamps keyData (ApiKey.id editingKey)
          (ApiKey.createdAt editingKey) updatedAt in
      set_keys
        (map (fun key =>
                if jsstring_eqb (ApiKey.id key) (ApiKey.id editingKey)
                then updatedKey else key)
             (keys prev))
        prev
  end.

Definition handleDeleteKey (deletingKey : option ApiKey.t) (prev : State)
  : State :=
  match deletingKey with
  | None => prev
  | Some deletingKey =>
      set_keys
        (filter (fun key =>
                   negb (jsstring_eqb (ApiKey.id key) (ApiKey.id deletingKey)))
                (keys prev))
        prev
  end.

Definition handleUpdateSettings (newSettings : VaultSettings) (prev : State)
  : State :=
  {| keys := keys prev; settings := newSettings; version := version prev |}.

End SecureVault.

(** *** [storage.ts]: the backup, and the page as a machine *)

Section Backup.

Context `{Platform}.

(** [{ ...data, exportedAt, version: 1 }]. *)
Definition exportData (data : value) (exportedAt : jsstring) : value :=
  VObject
    (set_prop (lit "version") (VNumber 1)
       (set_prop (lit "exportedAt") (VString exportedAt) (spread [] data))).

(** [exportVault]; [exportedAt] is the reading of the clock, [salt] and
    [iv] the random draws of the encryption. *)
Definition exportVault (salt iv : list byte) (exportedAt : jsstring)
    (masterPassword : jsstring) (ls : Storage) : result jsstring * Storage :=
  match loadVaultData masterPassword ls with
  | (inr data, ls) =>
      let exportData := exportData data exportedAt in
      match encryptData salt iv (JSON_stringify exportData) masterPassword with
      | inr encryptedExport =>
          (mret (JSON_stringify (value_of_EncryptedData encryptedExport)), ls)
      | inl e => (throw e, ls)
      end
  | (inl e, ls) => (throw e, ls)
  end.

(** What happens on the page: the form of [AuthScreen] is submitted,
    the vault is locked, or [SecureVault] saves its data.  The form is
    there when the vault is not rendered, the other two when it is. *)
Inductive IndexEvent : Type :=
  | Submit (password confirmPassword : jsstring)
  | Lock
  | Save (salt iv : list byte) (vaultData : value).

Definition Index_step (x : IndexState * Storage) (e : IndexEvent)
  : IndexState * Storage :=
  let '(st, ls) := x in
  match e, auth_state st with
  | Submit password confirmPassword, (NoVault | Locked _) =>
      (submit password confirmPassword st ls).1
  | Lock, Unlocked => ((handleLock st).1, ls)
  | Save salt iv vaultData, Unlocked =>
      (st, (saveVaultData salt iv vaultData (masterPassword st) ls).2)
  | _, _ => (st, ls)
  end.

(** The state of the page once its mount effect has run. *)
Definition Index_mounted (ls : Storage) : IndexState :=
  {| isAuthenticated := false; masterPassword := [];
     authMode := if vaultExists ls then unlock else create;
     authError := []; authLoading := false; failedAttempts := 0 |}.

Definition Index_run (ls : Storage) (events : list IndexEvent)
  : IndexState * Storage :=
  fold_left Index_step events (Index_mounted ls, ls).

End Backup.

(** A text as [atob] reads it: the ASCII whitespace left out. *)
Definition without_whitespace (s : jsstring) : jsstring :=
  filter (fun c => is_ascii_whitespace c = false) s.

(** The 256 bytes. *)
Definition all_bytes : list byte := map byte_of_N (map N.of_nat (seq 0 256)).

(** What holds of the page and the storage all along, [ls0] being the
    storage the page was mounted on. *)
Definition Index_invariant (ls0 : Storage) (x : IndexState * Storage)
  : Prop :=
  let '(st, ls) := x in
  (0 <= failedAttempts st <= 2)%Z
  /\ authLoading st = false
  /\ (isAuthenticated st = false -> masterPassword st = [])
  /\ (isAuthenticated st = true ->
      failedAttempts st = 0%Z
      /\ (8 <= length (masterPassword st))%nat
      /\ authError st = [])
  /\ (authMode st = create ->
      failedAttempts st = 0%Z
      /\ vaultExists ls0 = false
      /\ (isAuthenticated st = false -> ls = ls0)).

(** Further inputs on which the program is run. *)
Module Sample.

Definition form : AddKeyDialog.FormData :=
  {| AddKeyDialog.name := lit "Main";
     AddKeyDialog.provider := lit "openai";
     AddKeyDialog.apiKey := lit "sk-test";
     AddKeyDialog.description := [];
     AddKeyDialog.tags := [lit "prod"];
     AddKeyDialog.expirationDate := None;
     AddKeyDialog.metadata := [] |}.

Definition keyData : KeyData.t :=
  {| KeyData.name := lit "C";
     KeyData.provider := lit "anthropic";
     KeyData.apiKey := lit "sk-ant-test";
     KeyData.description := Some [];
     KeyData.tags := [];
     KeyData.expirationDate := None;
     KeyData.metadata := [] |}.

(** A vault with the records A and B. *)
Definition state : SecureVault.State :=
  {| SecureVault.keys := [Example.record "A"; Example.record "B"];
     SecureVault.settings :=
       {| SecureVault.clipboardClearTime := 30;
          SecureVault.autoLockTime := 15;
          SecureVault.darkMode := false;
          SecureVault.showKeyPreview := false |};
     SecureVault.version := 1 |}.

(** A second record with the identifier of A, and a vault that holds
    both. *)
Definition copy_of_A : ApiKey.t :=
  {| ApiKey.id := lit "id-A";
     ApiKey.name := lit "copy";
     ApiKey.provider := lit "anthropic";
     ApiKey.apiKey := lit "sk-ant-test";
     ApiKey.description := None;
     ApiKey.tags := [];
     ApiKey.expirationDate := None;
     ApiKey.createdAt := lit "2024-01-02T00:00:00.000Z";
     ApiKey.updatedAt := lit "2024-01-02T00:00:00.000Z";
     ApiKey.metadata := [] |}.

Definition twice : SecureVault.State :=
  SecureVault.set_keys
    [Example.record "A"; Example.record "B"; copy_of_A] state.

Definition now : jsstring := lit "2024-02-01T00:00:00.000Z".

Definition other_password : jsstring := lit "Wr0ng!Pass".

(** The envelope of the vault of the examples, and the same envelope
    with whitespace around and inside its fields. *)
Definition envelope : EncryptedData :=
  match @encryptData Reference.platform Example.salt0 Example.iv0
          (Reference.stringify (value_of_VaultData Example.vault))
          Example.password with
  | inr e => e
  | inl _ => {| data := []; salt := []; iv := [] |}
  end.

Definition spaced (e : EncryptedData) : EncryptedData :=
  {| data := [32] ++ take 8 (data e) ++ [13; 10] ++ drop 8 (data e);
     salt := salt e ++ [10];
     iv := [9] ++ iv e |}.

(** A stored vault whose settings hold the dark mode only. *)
Definition dark : object :=
  [(lit "keys", VArray [] []);
   (lit "settings", VObject [(lit "darkMode", VBool true)]);
   (lit "version", VNumber 1)].

(** A backup with the records B and C. *)
Definition backup : VaultData :=
  {| keys := map ApiKey.to_value [Example.record "B"; Example.record "C"];
     settings := [(lit "darkMode", VBool true)];
     version := VNumber 1 |}.

End Sample.

(** * Facts *)

(** ** Base64 *)

Lemma list_ind3 {A : Type} (P : list A -> Prop) :
  P [] -> (forall a, P [a]) -> (forall a b, P [a; b]) ->
  (forall a b c r, P r -> P (a :: b :: c :: r)) ->
  forall l, P l.
Proof.
  intros H0 H1 H2 H3 l.
  cut (P l /\ (forall a, P (a :: l)) /\ (forall a b, P (a :: b :: l))).
  { tauto. }
  induction l as [|x l IH]; [auto|].
  destruct IH as (IH0 & IH1 & IH2). auto.
Qed.

Ltac cmp_cases :=
  repeat match goal with
    | |- context [N.ltb ?a ?b] => destruct (N.ltb_spec a b)
    | |- context [N.leb ?a ?b] => destruct (N.leb_spec a b)
    | |- context [N.eqb ?a ?b] => destruct (N.eqb_spec a b)
    end.

Lemma b64_index_char (i : N) : i < 64 -> b64_index (b64_char i) = Some i.
Proof.
  intros Hi. unfold b64_index, b64_char, in_range.
  change (ch "A") with 65. change (ch "Z") with 90. change (ch "a") with 97.
  change (ch "z") with 122. change (ch "0") with 48. change (ch "9") with 57.
  change (ch "+") with 43. change (ch "/") with 47.
  destruct (N.ltb_spec i 26); [|destruct (N.ltb_spec i 52);
    [|destruct (N.ltb_spec i 62); [|destruct (N.eqb_spec i 62)]]];
  cmp_cases; simpl; try lia; f_equal; lia.
Qed.

Lemma b64_char_range (i : N) :
  65 <= b64_char i <= 90 \/ 97 <= b64_char i <= 122
  \/ 48 <= b64_char i <= 57 \/ b64_char i = 43 \/ b64_char i = 47.
Proof.
  unfold b64_char.
  change (ch "A") with 65. change (ch "a") with 97. change (ch "0") with 48.
  change (ch "+") with 43. change (ch "/") with 47.
  cmp_cases; lia.
Qed.

Lemma b64_char_not_pad (i : N) : b64_char i <> pad.
Proof.
  change pad with 61. pose proof (b64_char_range i). lia.
Qed.

Lemma b64_char_not_whitespace (i : N) :
  is_ascii_whitespace (b64_char i) = false.
Proof.
  pose proof (b64_char_range i) as Hr. unfold is_ascii_whitespace.
  generalize dependent (b64_char i). intros c Hr.
  cmp_cases; simpl; try reflexivity; lia.
Qed.

(** Linear arithmetic with division and remainder by constants. *)
Ltac divmod_lia := zify; Z.to_euclidean_division_equations; lia.

Lemma b64_groups_bound (l : list N) :
  Forall byte_value l -> Forall (fun g => g < 64) (b64_groups l).
Proof.
  unfold byte_value.
  induction l as [|a|a b|a b c r IH] using list_ind3; intros Hl; simpl.
  - constructor.
  - inversion_clear Hl. repeat constructor; divmod_lia.
  - inversion_clear Hl as [|? ? Ha Hl']. inversion_clear Hl' as [|? ? Hb _].
    repeat constructor; divmod_lia.
  - inversion_clear Hl as [|? ? Ha Hl']. inversion_clear Hl' as [|? ? Hb Hl''].
    inversion_clear Hl'' as [|? ? Hc Hr].
    repeat (constructor; [divmod_lia|]). auto.
Qed.

Lemma b64_bytes_groups (l : list N) :
  Forall byte_value l -> b64_bytes (b64_groups l) = l.
Proof.
  unfold byte_value.
  induction l as [|a|a b|a b c r IH] using list_ind3; intros Hl; simpl.
  - reflexivity.
  - inversion_clear Hl. f_equal. divmod_lia.
  - inversion_clear Hl as [|? ? Ha Hl']. inversion_clear Hl' as [|? ? Hb _].
    f_equal; [divmod_lia|f_equal; divmod_lia].
  - inversion_clear Hl as [|? ? Ha Hl']. inversion_clear Hl' as [|? ? Hb Hl''].
    inversion_clear Hl'' as [|? ? Hc Hr].
    rewrite IH by assumption.
    f_equal; [divmod_lia|f_equal; [divmod_lia|f_equal; divmod_lia]].
Qed.

Lemma filter_all {A : Type} (P : A -> Prop) `{forall x, Decision (P x)}
    (l : list A) :
  Forall P l -> filter P l = l.
Proof.
  induction 1 as [|x l Hx Hl IH]; [reflexivity|].
  rewrite filter_cons_True by assumption. by rewrite IH.
Qed.

Lemma b64_groups_length (l : list N) :
  (exists q, length (b64_groups l) + padding (length l) = 4 * q)%nat
  /\ (length (b64_groups l) mod 4 <> 1)%nat
  /\ (padding (length l) <= 2)%nat
  /\ (b64_groups l = [] -> padding (length l) = 0)%nat.
Proof.
  unfold padding.
  induction l as [|a|a b|a b c r IH] using list_ind3.
  - cbn. split; [exists 0%nat; lia|]. repeat split; lia.
  - cbn. split; [exists 1%nat; lia|]. repeat split; try lia. discriminate.
  - cbn. split; [exists 1%nat; lia|]. repeat split; try lia. discriminate.
  - destruct IH as ([q Hq] & Hm & Hp & _).
    cbn [b64_groups length app].
    assert (E : (S (S (S (length r))) mod 3 = length r mod 3)%nat).
    { change (S (S (S (length r)))) with (3 + length r)%nat.
      rewrite Nat.Div0.add_mod, Nat.Div0.mod_same, Nat.add_0_l.
      apply Nat.Div0.mod_mod. }
    rewrite E.
    split; [exists (S q); lia|].
    split; [|split; [lia|discriminate]].
    assert (E4 : (S (S (S (S (length (b64_groups r))))) mod 4
                  = length (b64_groups r) mod 4)%nat).
    { change (S (S (S (S (length (b64_groups r))))))
        with (4 + length (b64_groups r))%nat.
      rewrite Nat.Div0.add_mod, Nat.Div0.mod_same, Nat.add_0_l.
      apply Nat.Div0.mod_mod. }
    rewrite E4. exact Hm.
Qed.

Lemma strip_padding_encode (g : list N) (k : nat) :
  (exists q, length g + k = 4 * q)%nat -> (k <= 2)%nat ->
  (g = [] -> k = 0%nat) ->
  strip_padding (map b64_char g ++ repeat pad k) = map b64_char g.
Proof.
  intros [q Hq] Hk Hg. unfold strip_padding.
  assert (Hlen : N.of_nat (length (map b64_char g ++ repeat pad k)) mod 4 = 0).
  { rewrite length_app, length_map, repeat_length, Hq. divmod_lia. }
  rewrite Hlen. cbn [N.eqb].
  rewrite rev_app_distr, rev_repeat, <- map_rev.
  destruct k as [|[|[|k]]]; [| | |lia]; cbn [repeat app].
  - rewrite app_nil_r.
    destruct (rev g) as [|x [|y r]] eqn:Hr; cbn [map]; [reflexivity| |].
    + destruct (N.eqb_spec (b64_char x) pad) as [E|_]; [|reflexivity].
      by apply b64_char_not_pad in E.
    + destruct (N.eqb_spec (b64_char x) pad) as [E|_]; [|reflexivity].
      by apply b64_char_not_pad in E.
  - destruct (rev g) as [|x r] eqn:Hr; cbn [map].
    + apply (f_equal (@rev N)) in Hr. rewrite rev_involutive in Hr.
      subst g. reflexivity.
    + rewrite N.eqb_refl.
      destruct (N.eqb_spec (b64_char x) pad) as [E|_];
        [by apply b64_char_not_pad in E|].
      change (b64_char x :: map b64_char r) with (map b64_char (x :: r)).
      rewrite <- Hr, map_rev, rev_involutive. reflexivity.
  - rewrite !N.eqb_refl. rewrite map_rev, rev_involutive. reflexivity.
Qed.

(** Decoding the base64 of a list of byte values gives the list back. *)
Lemma atob_b64_encode (l : list N) :
  Forall byte_value l -> atob (b64_encode l) = inr l.
Proof.
  intros Hl. unfold atob, b64_encode.
  destruct (b64_groups_length l) as (Hq & Hm & Hp & Hnil).
  rewrite filter_all.
  2:{ apply Forall_app. split.
      - apply Forall_forall. intros c Hc.
        apply list_elem_of_In, in_map_iff in Hc.
        destruct Hc as (i & <- & _). apply b64_char_not_whitespace.
      - apply Forall_forall. intros c Hc.
        apply list_elem_of_In, repeat_spec in Hc.
        subst c. reflexivity. }
  rewrite strip_padding_encode by assumption.
  rewrite length_map.
  destruct (N.eqb_spec (N.of_nat (length (b64_groups l)) mod 4) 1) as [E|_].
  { exfalso. apply Hm. divmod_lia. }
  change (map b64_char (b64_groups l)) with (b64_char <$> b64_groups l).
  rewrite mapM_fmap_Forall_Some.
  2:{ eapply Forall_impl; [apply b64_groups_bound; assumption|].
      intros i Hi. apply b64_index_char, Hi. }
  cbn. by rewrite b64_bytes_groups.
Qed.

Lemma Forall_byte_value (bytes : list byte) :
  Forall byte_value (fromCharCode bytes).
Proof.
  unfold fromCharCode. apply Forall_forall. intros n Hn.
  apply list_elem_of_In, in_map_iff in Hn. destruct Hn as (b & <- & _).
  unfold byte_value. pose proof (Byte.to_N_bounded b). lia.
Qed.

Lemma byte_of_to_N (b : byte) : byte_of_N (Byte.to_N b) = b.
Proof.
  unfold byte_of_N. pose proof (Byte.to_N_bounded b).
  rewrite N.mod_small by lia. by rewrite Byte.of_to_N.
Qed.

Lemma to_N_byte_of_N (n : N) : n < 256 -> Byte.to_N (byte_of_N n) = n.
Proof.
  intros Hn. unfold byte_of_N. rewrite N.mod_small by lia.
  destruct (Byte.of_N n) as [b|] eqn:E.
  - by apply Byte.to_of_N.
  - apply Byte.of_N_None_iff in E. lia.
Qed.

Lemma charCodes_fromCharCode (bytes : list byte) :
  charCodes (fromCharCode bytes) = bytes.
Proof.
  unfold charCodes, fromCharCode. rewrite map_map.
  rewrite <- (map_id bytes) at 2. apply map_ext, byte_of_to_N.
Qed.

(** [btoa] of the characters of a byte buffer does not throw, and
    [atob] gives the characters back. *)
Lemma atob_btoa (bytes : list byte) :
  exists s, btoa (fromCharCode bytes) = inr s
            /\ atob s = inr (fromCharCode bytes).
Proof.
  exists (b64_encode (fromCharCode bytes)). split.
  - unfold btoa.
    replace (forallb (fun c => c <=? 255) (fromCharCode bytes)) with true;
      [reflexivity|].
    symmetry. apply forallb_forall. intros c Hc.
    pose proof (Forall_byte_value bytes) as Hb.
    rewrite Forall_forall in Hb. apply list_elem_of_In in Hc.
    specialize (Hb c Hc).
    unfold byte_value in Hb. apply N.leb_le. lia.
  - apply atob_b64_encode, Forall_byte_value.
Qed.

(** ** UTF-8 *)

Ltac decide_cmp :=
  match goal with
  | |- context [N.eqb ?a ?b] =>
      destruct (N.eqb_spec a b); try (exfalso; divmod_lia)
  | |- context [N.ltb ?a ?b] =>
      destruct (N.ltb_spec a b); try (exfalso; divmod_lia)
  | |- context [N.leb ?a ?b] =>
      destruct (N.leb_spec a b); try (exfalso; divmod_lia)
  end;
  cbn [andb orb negb].

Lemma utf8_encode1_bytes (c : N) :
  scalar c -> Forall byte_value (utf8_encode1 c).
Proof.
  unfold scalar, utf8_encode1, byte_value. intros Hc.
  repeat decide_cmp; repeat constructor; divmod_lia.
Qed.

Ltac utf8_run :=
  cbn -[N.add N.mul N.div N.modulo N.leb N.ltb N.eqb N.sub];
  unfold utf8_step, utf8_start, in_range;
  cbn -[N.add N.mul N.div N.modulo N.leb N.ltb N.eqb N.sub].

Lemma utf8_decode_encode1 (c : N) (rest : list N) :
  scalar c ->
  utf8_decode utf8_init (utf8_encode1 c ++ rest)
  = c :: utf8_decode utf8_init rest.
Proof.
  unfold scalar, utf8_encode1. intros Hc.
  destruct (N.ltb_spec c 0x80);
    [|destruct (N.ltb_spec c 0x800); [|destruct (N.ltb_spec c 0x10000)]].
  - utf8_run. repeat decide_cmp. reflexivity.
  - utf8_run. repeat (decide_cmp; utf8_run). f_equal. divmod_lia.
  - utf8_run. repeat (decide_cmp; utf8_run); f_equal; divmod_lia.
  - utf8_run. repeat (decide_cmp; utf8_run); f_equal; divmod_lia.
Qed.

Lemma utf8_decode_encode (cps : list N) :
  Forall scalar cps ->
  utf8_decode utf8_init (concat (map utf8_encode1 cps)) = cps.
Proof.
  induction 1 as [|c cps Hc _ IH]; [reflexivity|].
  cbn [map concat]. rewrite utf8_decode_encode1 by assumption.
  by rewrite IH.
Qed.

Lemma list_ind2 {A : Type} (P : list A -> Prop) :
  P [] -> (forall a, P [a]) ->
  (forall a b r, P r -> P (b :: r) -> P (a :: b :: r)) ->
  forall l, P l.
Proof.
  intros H0 H1 H2 l.
  cut (P l /\ forall a, P (a :: l)); [tauto|].
  induction l as [|x l [IH0 IH1]]; auto.
Qed.

(** The code points of a well-formed string are scalar values, and
    their code units are the string. *)
Lemma code_points_well_formed (s : jsstring) :
  well_formed s = true ->
  Forall scalar (code_points s)
  /\ concat (map utf16_encode1 (code_points s)) = s.
Proof.
  unfold scalar.
  induction s as [|a|a b r IHr IHbr] using list_ind2.
  - intros _. split; [constructor|reflexivity].
  - cbn [well_formed code_points]. unfold is_lead, is_trail, in_range.
    repeat decide_cmp; try discriminate.
    all: intros _; split; [repeat constructor; lia|].
    all: cbn [map concat app]; unfold utf16_encode1;
      repeat decide_cmp; reflexivity.
  - assert (E1 : well_formed (a :: b :: r)
                 = if is_lead a then is_trail b && well_formed r
                   else negb (is_trail a) && (a <? 0x10000)
                        && well_formed (b :: r)) by reflexivity.
    assert (E2 : code_points (a :: b :: r)
                 = if is_lead a then
                     if is_trail b
                     then 0x10000 + (a - 0xD800) * 0x400 + (b - 0xDC00)
                          :: code_points r
                     else replacement :: code_points (b :: r)
                   else if is_trail a then replacement :: code_points (b :: r)
                   else a :: code_points (b :: r)) by reflexivity.
    rewrite E1, E2. clear E1 E2.
    destruct (is_lead a) eqn:Ea.
    + destruct (is_trail b) eqn:Eb; [|discriminate].
      cbn [andb]. intros Hr. destruct (IHr Hr) as [Hs Hu].
      unfold is_lead, is_trail, in_range in Ea, Eb.
      apply andb_prop in Ea, Eb.
      rewrite !N.leb_le in Ea, Eb. destruct Ea, Eb.
      split; [constructor; [lia|assumption]|].
      cbn [map concat]. rewrite Hu. unfold utf16_encode1.
      repeat decide_cmp. cbn [app]. f_equal; [|f_equal]; divmod_lia.
    + destruct (is_trail a) eqn:Ea'; [discriminate|].
      cbn [negb andb].
      destruct (N.ltb_spec a 0x10000); [|discriminate].
      cbn [andb].
      intros Hbr. destruct (IHbr Hbr) as [Hs Hu].
      unfold is_lead, is_trail, in_range in Ea, Ea'.
      apply andb_false_iff in Ea, Ea'. rewrite !N.leb_gt in Ea, Ea'.
      split; [constructor; [lia|assumption]|].
      cbn [map concat]. rewrite Hu. unfold utf16_encode1.
      repeat decide_cmp. reflexivity.
Qed.

Lemma strip_bom_code_points (s : jsstring) :
  utf8_exact s = true -> strip_bom (code_points s) = code_points s.
Proof.
  unfold utf8_exact. intros Hs. apply andb_prop in Hs. destruct Hs as [Hw Hb].
  destruct s as [|a [|b r]]; [reflexivity| |].
  - cbn [well_formed starts_with_bom code_points] in *.
    unfold is_lead, is_trail, in_range in *.
    revert Hw Hb. repeat decide_cmp; try discriminate.
    all: intros _ _; cbn [strip_bom]; repeat decide_cmp; reflexivity.
  - cbn [well_formed starts_with_bom code_points] in *.
    unfold is_lead, is_trail, in_range in *.
    revert Hw Hb. repeat decide_cmp; try discriminate.
    all: intros _ _; cbn [strip_bom]; repeat decide_cmp; reflexivity.
Qed.

Lemma map_to_N_byte_of_N (l : list N) :
  Forall byte_value l -> map Byte.to_N (map byte_of_N l) = l.
Proof.
  induction 1 as [|n l Hn _ IH]; [reflexivity|].
  cbn [map]. rewrite to_N_byte_of_N by exact Hn. by rewrite IH.
Qed.

Lemma Forall_concat_bytes (cps : list N) :
  Forall scalar cps -> Forall byte_value (concat (map utf8_encode1 cps)).
Proof.
  induction 1 as [|c cps Hc _ IH]; [constructor|].
  cbn [map concat]. apply Forall_app. split; [|exact IH].
  by apply utf8_encode1_bytes.
Qed.

(** UTF-8 carries a well-formed string that does not start with the
    byte order mark unchanged. *)
Lemma TextDecoder_TextEncoder (s : jsstring) :
  utf8_exact s = true -> TextDecoder_decode (TextEncoder_encode s) = s.
Proof.
  intros Hs. unfold TextDecoder_decode, TextEncoder_encode.
  assert (Hw : well_formed s = true).
  { unfold utf8_exact in Hs. by apply andb_prop in Hs as [? _]. }
  destruct (code_points_well_formed s Hw) as [Hsc Hu].
  rewrite map_to_N_byte_of_N by (by apply Forall_concat_bytes).
  rewrite utf8_decode_encode by assumption.
  rewrite strip_bom_code_points by assumption.
  exact Hu.
Qed.
(** ** The reference platform obeys the laws *)

Lemma reference_decrypt_encrypt (k : Reference.Key) (iv p : list byte) :
  Reference.decrypt k iv (Reference.encrypt k iv p) = Some p.
Proof.
  unfold Reference.decrypt, Reference.encrypt.
  rewrite length_app.
  change (length (Reference.tag k iv p)) with 16%nat.
  destruct (Nat.ltb_spec (length p + 16) 16); [lia|].
  replace (length p + 16 - 16)%nat with (length p) by lia.
  rewrite take_app_length, drop_app_length.
  by rewrite bool_decide_eq_true_2.
Qed.


Lemma reference_aead_correct : @aead_correct Reference.platform.
Proof. intros k iv p. apply reference_decrypt_encrypt. Qed.


Lemma reference_gcm_short : @gcm_short Reference.platform.
Proof.
  intros k iv d Hd. cbn [AES_GCM_decrypt Reference.platform].
  unfold Reference.decrypt.
  by destruct (Nat.ltb_spec (length d) 16); [|lia].
Qed.

Lemma reference_hmac_zero_padding : @hmac_zero_padding Reference.platform.
Proof.
  intros m salt iterations bits Hm.
  cbn [PBKDF2_SHA256 Reference.platform]. f_equal. f_equal. f_equal.
  unfold Reference.hmac_key. rewrite <- app_assoc, length_app.
  cbn [length app]. f_equal.
  replace (64 - length m)%nat with (S (64 - (length m + 1))) by lia.
  reflexivity.
Qed.

(** ** [encryptData] and [decryptData] *)

Section Crypto.

Context `{Platform}.

Lemma get_EncryptedData (e : EncryptedData) :
  get (value_of_EncryptedData e) (lit "salt") = inr (VString (salt e))
  /\ get (value_of_EncryptedData e) (lit "iv") = inr (VString (iv e))
  /\ get (value_of_EncryptedData e) (lit "data") = inr (VString (data e)).
Proof. repeat split; reflexivity. Qed.

Lemma String_fromCharCode_fits (bytes : list byte) :
  N.of_nat (length bytes) <= max_arguments ->
  String_fromCharCode bytes = inr (fromCharCode bytes).
Proof.
  intros Hb. unfold String_fromCharCode.
  by destruct (N.leb_spec (N.of_nat (length bytes)) max_arguments); [|lia].
Qed.

(** Beyond the arguments a call takes, [encryptData] throws. *)
Lemma encryptData_too_large (salt0 iv0 : list byte) (P W : jsstring) :
  max_arguments < N.of_nat (length (ciphertext salt0 iv0 P W)) ->
  encryptData salt0 iv0 P W = inl RangeError.
Proof.
  intros Hb. unfold encryptData, String_fromCharCode.
  unfold ciphertext in Hb.
  match goal with
  | |- context [N.of_nat ?n <=? max_arguments] =>
      by destruct (N.leb_spec (N.of_nat n) max_arguments); [lia|]
  end.
Qed.

(** What [encryptData] returns: the base64 of the ciphertext, of the
    salt and of the [iv]. *)
Lemma encryptData_fields (salt0 iv0 : list byte) (P W : jsstring) :
  N.of_nat (length (ciphertext salt0 iv0 P W)) <= max_arguments ->
  exists e,
    encryptData salt0 iv0 P W = inr e
    /\ atob (data e)
       = inr (fromCharCode
                (AES_GCM_encrypt (deriveKey W salt0) iv0
                   (TextEncoder_encode P)))
    /\ atob (salt e) = inr (fromCharCode salt0)
    /\ atob (iv e) = inr (fromCharCode iv0).
Proof.
  intros Hb. unfold encryptData. unfold ciphertext in Hb.
  rewrite (String_fromCharCode_fits _ Hb). cbn [mbind result_bind].
  destruct (atob_btoa (AES_GCM_encrypt (deriveKey W salt0) iv0
                         (TextEncoder_encode P))) as (d & Hd & Hd').
  destruct (atob_btoa salt0) as (s & Hs & Hs').
  destruct (atob_btoa iv0) as (i & Hi & Hi').
  rewrite Hd, Hs, Hi. cbn.
  eexists. split; [reflexivity|]. cbn. auto.
Qed.

(** The ciphertext of the empty vault is within the arguments of a
    call, on every platform. *)
Lemma empty_vault_fits (salt0 iv0 : list byte) (W : jsstring) :
  N.of_nat
    (length
       (ciphertext salt0 iv0 (JSON_stringify (value_of_VaultData empty_vault))
          W))
  <= max_arguments.
Proof. apply empty_vault_spreads. Qed.

(** [decryptData] on an envelope whose fields are base64: the outcome
    is that of AES-GCM under the key of the password and the salt. *)
Lemma decryptData_fields (e : EncryptedData) (W : jsstring)
    (ciphertext salt0 iv0 : list byte) :
  atob (data e) = inr (fromCharCode ciphertext) ->
  atob (salt e) = inr (fromCharCode salt0) ->
  atob (iv e) = inr (fromCharCode iv0) ->
  decryptData (value_of_EncryptedData e) W
  = match AES_GCM_decrypt (deriveKey W salt0) iv0 ciphertext with
    | None => inl OperationError
    | Some decryptedData => inr (TextDecoder_decode decryptedData)
    end.
Proof.
  intros Hd Hs Hi. unfold decryptData.
  destruct (get_EncryptedData e) as (Gs & Gi & Gd).
  rewrite Gs, Gi, Gd. cbn [mbind result_bind ToString mret result_ret].
  rewrite Hs, Hi, Hd. cbn [mbind result_bind].
  rewrite !charCodes_fromCharCode. reflexivity.
Qed.

(** A plaintext that UTF-8 carries unchanged comes back. *)
Lemma encrypt_then_decrypt (salt0 iv0 : list byte) (P W : jsstring) :
  aead_correct ->
  utf8_exact P = true ->
  N.of_nat (length (ciphertext salt0 iv0 P W)) <= max_arguments ->
  exists e,
    encryptData salt0 iv0 P W = inr e
    /\ atob (salt e) = inr (fromCharCode salt0)
    /\ atob (iv e) = inr (fromCharCode iv0)
    /\ decryptData (value_of_EncryptedData e) W = inr P.
Proof.
  intros Haead HP Hb.
  destruct (encryptData_fields salt0 iv0 P W Hb) as (e & He & Hd & Hs & Hi).
  exists e. repeat split; try assumption.
  rewrite (decryptData_fields e W _ _ _ Hd Hs Hi).
  rewrite Haead. by rewrite TextDecoder_TextEncoder.
Qed.

(** C2, as amended: a plaintext that is well-formed text and does not
    start with the byte order mark, the empty string among them, comes
    back from [decryptData] after [encryptData] under the same
    password, through an envelope whose fields are the base64 of the
    ciphertext, of the salt and of the [iv], as long as the ciphertext
    has no more bytes than a call takes arguments in the engine; with
    more, [encryptData] throws [RangeError] and there is no envelope. *)
Theorem decryptData_encryptData (salt0 iv0 : list byte) (P W : jsstring) :
  aead_correct ->
  utf8_exact P = true ->
  (N.of_nat (length (ciphertext salt0 iv0 P W)) <= max_arguments ->
   decrypt_of_encrypt salt0 iv0 P W W = inr P
   /\ exists e,
        encryptData salt0 iv0 P W = inr e
        /\ atob (data e)
           = inr (fromCharCode
                    (AES_GCM_encrypt (deriveKey W salt0) iv0
                       (TextEncoder_encode P)))
        /\ atob (salt e) = inr (fromCharCode salt0)
        /\ atob (iv e) = inr (fromCharCode iv0))
  /\ (N.of_nat (length (ciphertext salt0 iv0 [] W)) <= max_arguments ->
      decrypt_of_encrypt salt0 iv0 [] W W = inr [])
  /\ (max_arguments < N.of_nat (length (ciphertext salt0 iv0 P W)) ->
      encryptData salt0 iv0 P W = inl RangeError
      /\ decrypt_of_encrypt salt0 iv0 P W W = inl RangeError).
Proof.
  intros Haead HP. unfold decrypt_of_encrypt. split; [|split].
  - intros Hb. split.
    + destruct (encrypt_then_decrypt salt0 iv0 P W Haead HP Hb)
        as (e & He & _ & _ & Hd).
      rewrite He. exact Hd.
    + destruct (encryptData_fields salt0 iv0 P W Hb)
        as (e & He & Hd & Hs & Hi).
      exists e. auto.
  - intros Hb.
    destruct (encrypt_then_decrypt salt0 iv0 [] W Haead eq_refl Hb)
      as (e & He & _ & _ & Hd).
    rewrite He. exact Hd.
  - intros Hb. rewrite (encryptData_too_large salt0 iv0 P W Hb).
    by split.
Qed.


Lemma loadVaultData_folds (pw : jsstring) (ls : Storage) (e : exn) :
  (loadVaultData pw ls).1 = inl e -> e = load_failure.
Proof.
  unfold loadVaultData, try_catch. cbn [fst].
  repeat case_match; intros E; by inversion E.
Qed.

Lemma importVault_wraps (blob pw : jsstring) (ls : Storage) (e : exn) :
  (importVault blob pw ls).1 = inl e ->
  exists cause, e = ErrorFrom import_prefix cause.
Proof.
  unfold importVault, try_catch. cbn [fst].
  repeat case_match; intros E; inversion E; eauto.
Qed.

(** The UTF-8 bytes of a password followed by the character NUL are
    those of the password followed by a zero byte. *)
Lemma code_points_cons (a b : N) (t : jsstring) :
  code_points (a :: b :: t)
  = if is_lead a then
      if is_trail b
      then 0x10000 + (a - 0xD800) * 0x400 + (b - 0xDC00) :: code_points t
      else replacement :: code_points (b :: t)
    else if is_trail a then replacement :: code_points (b :: t)
    else a :: code_points (b :: t).
Proof. reflexivity. Qed.

Lemma code_points_NUL (s : jsstring) :
  code_points (s ++ [0]) = code_points s ++ [0].
Proof.
  induction s as [|a|a b r IHr IHbr] using list_ind2.
  - reflexivity.
  - change ([a] ++ [0]) with [a; 0]. rewrite code_points_cons.
    cbn [code_points]. change (is_trail 0) with false.
    destruct (is_lead a); [reflexivity|].
    destruct (is_trail a); reflexivity.
  - change ((a :: b :: r) ++ [0]) with (a :: b :: (r ++ [0])).
    rewrite !code_points_cons.
    change (b :: (r ++ [0])) with ((b :: r) ++ [0]).
    rewrite IHr, IHbr.
    destruct (is_lead a); [destruct (is_trail b)|destruct (is_trail a)];
      reflexivity.
Qed.

Lemma TextEncoder_encode_NUL (W : jsstring) :
  TextEncoder_encode (W ++ [0]) = TextEncoder_encode W ++ [x00].
Proof.
  unfold TextEncoder_encode.
  rewrite code_points_NUL, map_app, concat_app, map_app. reflexivity.
Qed.

(** A password and the same followed by NUL derive the same key. *)
Lemma deriveKey_NUL (W : jsstring) (salt0 : list byte) :
  hmac_zero_padding ->
  (length (TextEncoder_encode W) < 64)%nat ->
  deriveKey (W ++ [0]) salt0 = deriveKey W salt0.
Proof.
  intros Hpad Hlen. unfold deriveKey.
  rewrite TextEncoder_encode_NUL. by apply Hpad.
Qed.

Lemma decryptData_NUL (enc : value) (W : jsstring) :
  hmac_zero_padding ->
  (length (TextEncoder_encode W) < 64)%nat ->
  decryptData enc (W ++ [0]) = decryptData enc W.
Proof.
  intros Hpad Hlen. unfold decryptData.
  destruct (get enc (lit "salt")) as [|s]; [reflexivity|].
  cbn [mbind result_bind].
  destruct (ToString s) as [|st]; [reflexivity|]. cbn [mbind result_bind].
  destruct (atob st) as [|sc]; [reflexivity|]. cbn [mbind result_bind].
  destruct (get enc (lit "iv")) as [|i]; [reflexivity|].
  cbn [mbind result_bind].
  destruct (ToString i) as [|it]; [reflexivity|]. cbn [mbind result_bind].
  destruct (atob it) as [|ic]; [reflexivity|]. cbn [mbind result_bind].
  destruct (get enc (lit "data")) as [|d]; [reflexivity|].
  cbn [mbind result_bind].
  destruct (ToString d) as [|dt]; [reflexivity|]. cbn [mbind result_bind].
  destruct (atob dt) as [|dc]; [reflexivity|]. cbn [mbind result_bind].
  by rewrite deriveKey_NUL.
Qed.



End Crypto.

(** ** The strength check *)

Lemma test_Exists (cls : N -> bool) (P : N -> Prop) (s : jsstring) :
  (forall c, cls c = true <-> P c) ->
  test cls s = true <-> Exists P s.
Proof.
  intros Hc. unfold test. rewrite existsb_exists, Exists_exists.
  split; intros (c & Hin & Hp); exists c.
  - split; [by apply list_elem_of_In|by apply Hc].
  - split; [by apply list_elem_of_In|by apply Hc].
Qed.

Lemma in_range_spec (lo hi c : N) : in_range lo hi c = true <-> lo <= c <= hi.
Proof. unfold in_range. rewrite andb_true_iff, !N.leb_le. tauto. Qed.

Lemma symbol_class_spec (c : N) : symbol_class c = true <-> symbol c.
Proof.
  unfold symbol_class, symbol. rewrite existsb_exists. split.
  - intros (x & Hin & Hx). apply N.eqb_eq in Hx. subst x.
    by apply list_elem_of_In.
  - intros Hin. exists c. split; [by apply list_elem_of_In|apply N.eqb_refl].
Qed.

Lemma validatePasswordStrength_spec (password : jsstring) :
  validatePasswordStrength password = true <-> meets_policy password.
Proof.
  unfold validatePasswordStrength, meets_policy.
  rewrite !andb_true_iff.
  rewrite (test_Exists upper_class uppercase_letter)
    by (intros c; apply in_range_spec).
  rewrite (test_Exists lower_class lowercase_letter)
    by (intros c; apply in_range_spec).
  rewrite (test_Exists digit_class digit) by (intros c; apply in_range_spec).
  rewrite (test_Exists symbol_class symbol) by apply symbol_class_spec.
  rewrite N.leb_le. split.
  - intros ((((? & ?) & ?) & ?) & ?). repeat split; try assumption. lia.
  - intros (? & ? & ? & ? & ?). repeat split; try assumption. lia.
Qed.

Lemma AuthScreen_isValid (password : jsstring) :
  AuthScreen.isValid (AuthScreen.validatePasswordStrength password)
  = validatePasswordStrength password.
Proof. reflexivity. Qed.

(** ** The unlock state machine *)

Section Auth.

Context `{Platform}.

Lemma auth_state_Locked (st : IndexState) (n : Z) :
  auth_state st = Locked n ->
  authMode st = unlock /\ failedAttempts st = n
  /\ isAuthenticated st && negb (jsstring_eqb (masterPassword st) []) = false.
Proof.
  unfold auth_state.
  destruct (isAuthenticated st && _); [discriminate|].
  destruct (authMode st); [discriminate|].
  intros E. injection E as E. auto.
Qed.

Lemma jsstring_eqb_nil (s : jsstring) :
  (1 <= length s)%nat -> jsstring_eqb s [] = false.
Proof.
  intros Hs. unfold jsstring_eqb. apply bool_decide_eq_false_2.
  intros ->. cbn in Hs. lia.
Qed.

(** The reset path: what [handleAuth] does after two failures. *)
Lemma handleAuth_reset (password : jsstring) (st : IndexState) (ls : Storage) :
  authMode st = unlock -> (2 <= failedAttempts st)%Z ->
  handleAuth password st ls
  = if validatePasswordStrength password then
      (setAuthLoading false
         (setAuthMode unlock
            (setFailedAttempts 0
               (setIsAuthenticated true
                  (setMasterPassword password
                     (setAuthLoading true (setAuthError [] st)))))),
       clearVault ls,
       [{| title := lit "New Vault Created";
           description :=
             lit "Previous data has been erased and a new secure vault has been created" |}])
    else
      (setAuthLoading false
         (setAuthError reset_error (setAuthLoading true (setAuthError [] st))),
       ls, []).
Proof.
  intros Hm Hn. unfold handleAuth, handleAuth_try. rewrite Hm.
  cbn [Mode_eqb]. apply Z.leb_le in Hn. rewrite Hn.
  destruct (validatePasswordStrength password); reflexivity.
Qed.

(** An attempt before the second failure: the outcome is that of
    [loadVaultData]. *)
Lemma handleAuth_attempt (password : jsstring) (st : IndexState)
    (ls : Storage) :
  authMode st = unlock -> (failedAttempts st < 2)%Z ->
  handleAuth password st ls
  = match (loadVaultData password ls).1 with
    | inr _ =>
        (setAuthLoading false
           (setFailedAttempts 0
              (setIsAuthenticated true
                 (setMasterPassword password
                    (setAuthLoading true (setAuthError [] st))))),
         ls,
         [{| title := lit "Vault Unlocked";
             description := lit "Welcome back to your secure vault" |}])
    | inl _ =>
        (setAuthLoading false
           (setAuthError
              (if (2 <=? failedAttempts st + 1)%Z then too_many_error
               else remaining_error (2 - (failedAttempts st + 1)))
              (setFailedAttempts (failedAttempts st + 1)
                 (setAuthLoading true (setAuthError [] st)))),
         ls, [])
    end.
Proof.
  intros Hm Hn. unfold handleAuth, handleAuth_try. rewrite Hm.
  cbn [Mode_eqb]. apply Z.leb_gt in Hn. rewrite Hn.
  unfold loadVaultData at 1 2. cbn [fst].
  destruct (try_catch _ _) as [e|d]; [|reflexivity].
  destruct (2 <=? failedAttempts st + 1)%Z; reflexivity.
Qed.

End Auth.

Section AuthClaims.

Context `{Platform}.

Lemma STORAGE_KEY_SETTINGS_KEY : STORAGE_KEY <> SETTINGS_KEY.
Proof. discriminate. Qed.

Lemma clearVault_lookup (ls : Storage) :
  getItem STORAGE_KEY (clearVault ls) = None
  /\ getItem SETTINGS_KEY (clearVault ls) = None
  /\ forall k, k <> STORAGE_KEY -> k <> SETTINGS_KEY ->
               getItem k (clearVault ls) = getItem k ls.
Proof.
  unfold clearVault, removeItem, getItem. repeat split.
  - rewrite lookup_delete_ne by (symmetry; apply STORAGE_KEY_SETTINGS_KEY).
    apply lookup_delete_eq.
  - apply lookup_delete_eq.
  - intros k H1 H2. by rewrite !lookup_delete_ne.
Qed.

Lemma loadVaultData_absent (p : jsstring) (ls : Storage) :
  getItem STORAGE_KEY ls = None ->
  loadVaultData p ls = (inr (value_of_VaultData empty_vault), ls).
Proof. intros E. unfold loadVaultData. rewrite E. reflexivity. Qed.

(** C5: with no envelope persisted, [vaultExists] is false and
    [loadVaultData] returns for every password the vault with no
    record, the default settings (30 seconds, 15 minutes, dark mode
    off, key preview off) and version 1, and leaves the storage as it
    was. *)
Theorem first_run (ls : Storage) (p : jsstring) :
  getItem STORAGE_KEY ls = None ->
  vaultExists ls = false
  /\ exists d,
       loadVaultData p ls = (inr (value_of_VaultData d), ls)
       /\ keys d = []
       /\ settings d
          = [(lit "clipboardClearTime", VNumber 30);
             (lit "autoLockTime", VNumber 15);
             (lit "darkMode", VBool false);
             (lit "showKeyPreview", VBool false)]
       /\ version d = VNumber 1.
Proof.
  intros E. split.
  - unfold vaultExists. rewrite E. reflexivity.
  - exists empty_vault. split; [by apply loadVaultData_absent|].
    repeat split; reflexivity.
Qed.

(** C1: in [Locked n] with two failures or more, [handleAuth] does not
    read the vault: its outcome is the same whatever the storage holds.
    A password that meets the policy clears the storage of the vault and
    unlocks with the counter at zero; the vault then loaded under it is
    the empty one, and the auto-save persists it in an envelope made
    under that password (which decrypts to it, on a platform whose
    cipher is correct and whose JSON text of the empty vault is plain
    text).  A password that fails the policy leaves the state
    [Locked n], reports the validation error and leaves the storage as
    it was. *)
Theorem destructive_reset (password : jsstring) (st : IndexState)
    (ls : Storage) (n : Z) (salt0 iv0 : list byte) :
  auth_state st = Locked n -> (2 <= n)%Z ->
  (forall ls2,
     (handleAuth password st ls2).1.1 = (handleAuth password st ls).1.1
     /\ (handleAuth password st ls2).2 = (handleAuth password st ls).2)
  /\ (meets_policy password ->
      exists st' toasts,
        handleAuth password st ls = (st', clearVault ls, toasts)
        /\ auth_state st' = Unlocked
        /\ failedAttempts st' = 0%Z
        /\ masterPassword st' = password
        /\ vaultExists (clearVault ls) = false
        /\ getItem SETTINGS_KEY (clearVault ls) = None
        /\ (forall k, k <> STORAGE_KEY -> k <> SETTINGS_KEY ->
                      getItem k (clearVault ls) = getItem k ls)
        /\ (loadVaultData password (clearVault ls)).1
           = inr (value_of_VaultData empty_vault)
        /\ exists e,
             encryptData salt0 iv0
               (JSON_stringify (value_of_VaultData empty_vault)) password
             = inr e
             /\ mount salt0 iv0 password (clearVault ls)
                = (value_of_VaultData empty_vault,
                   setItem STORAGE_KEY
                     (JSON_stringify (value_of_EncryptedData e))
                     (clearVault ls))
             /\ (aead_correct ->
                 utf8_exact (JSON_stringify (value_of_VaultData empty_vault))
                 = true ->
                 decryptData (value_of_EncryptedData e) password
                 = inr (JSON_stringify (value_of_VaultData empty_vault))))
  /\ (~ meets_policy password ->
      exists st',
        handleAuth password st ls = (st', ls, [])
        /\ auth_state st' = Locked n
        /\ authError st' = reset_error).
Proof.
  intros Hst Hn.
  destruct (auth_state_Locked st n Hst) as (Hm & Hf & Hv).
  assert (Hn' : (2 <= failedAttempts st)%Z) by lia.
  split; [|split].
  - intros ls2. rewrite !handleAuth_reset by assumption.
    destruct (validatePasswordStrength password); split; reflexivity.
  - intros Hp. rewrite handleAuth_reset by assumption.
    pose proof Hp as Hlen. destruct Hlen as [Hlen _].
    apply validatePasswordStrength_spec in Hp. rewrite Hp.
    destruct (clearVault_lookup ls) as (Hs1 & Hs2 & Hs3).
    eexists _, _. split; [reflexivity|].
    split.
    { unfold auth_state. cbn.
      rewrite jsstring_eqb_nil by lia. reflexivity. }
    do 2 (split; [reflexivity|]).
    split; [unfold vaultExists; rewrite Hs1; reflexivity|].
    split; [exact Hs2|]. split; [exact Hs3|].
    split; [by rewrite loadVaultData_absent|].
    destruct (encryptData_fields salt0 iv0
                (JSON_stringify (value_of_VaultData empty_vault)) password
                (empty_vault_fits salt0 iv0 password))
      as (e & He & Hd & Hs & Hi).
    exists e. split; [exact He|]. split.
    + unfold mount. rewrite loadVaultData_absent by exact Hs1.
      change (declared_shape (value_of_VaultData empty_vault)) with true.
      unfold saveVaultData. rewrite He. reflexivity.
    + intros Haead Htext.
      rewrite (decryptData_fields e password _ _ _ Hd Hs Hi).
      rewrite Haead. by rewrite TextDecoder_TextEncoder.
  - intros Hp. rewrite handleAuth_reset by assumption.
    destruct (validatePasswordStrength password) eqn:E.
    { exfalso. apply Hp. by apply validatePasswordStrength_spec. }
    eexists. split; [reflexivity|]. split; [|reflexivity].
    unfold auth_state. cbn. rewrite Hv, Hm, Hf. reflexivity.
Qed.

(** C4: in [Locked n] with fewer than two failures, an attempt that
    [loadVaultData] rejects leads to [Locked (n + 1)] with the warning
    of how many attempts are left before the reset (one, then none);
    an attempt it accepts sets the counter to zero and unlocks; and
    [handleLock] leads to [Locked 0] from every state. *)
Theorem attempt_counter (password : jsstring) (st : IndexState)
    (ls : Storage) (n : Z) :
  auth_state st = Locked n -> (0 <= n < 2)%Z ->
  (forall e, (loadVaultData password ls).1 = inl e ->
     exists st',
       handleAuth password st ls = (st', ls, [])
       /\ auth_state st' = Locked (n + 1)
       /\ authError st'
          = (if (n =? 0)%Z
             then lit "Incorrect password. 1 attempt remaining before data reset."
             else lit "Too many failed attempts. The next password you enter will create a new vault and erase all existing data."))
  /\ (forall d, (loadVaultData password ls).1 = inr d ->
        exists st' toasts,
          handleAuth password st ls = (st', ls, toasts)
          /\ failedAttempts st' = 0%Z
          /\ (password <> [] -> auth_state st' = Unlocked))
  /\ (forall st0 : IndexState,
        auth_state (handleLock st0).1 = Locked 0
        /\ failedAttempts (handleLock st0).1 = 0%Z).
Proof.
  intros Hst Hn.
  destruct (auth_state_Locked st n Hst) as (Hm & Hf & Hv).
  assert (Hn' : (failedAttempts st < 2)%Z) by lia.
  split; [|split].
  - intros e He. rewrite handleAuth_attempt by assumption. rewrite He.
    eexists. split; [reflexivity|]. split.
    + unfold auth_state. cbn. rewrite Hv, Hm, Hf. reflexivity.
    + cbn. rewrite Hf.
      assert (Hc : n = 0%Z \/ n = 1%Z) by lia.
      destruct Hc as [-> | ->]; reflexivity.
  - intros d Hd. rewrite handleAuth_attempt by assumption. rewrite Hd.
    eexists _, _. split; [reflexivity|]. split; [reflexivity|].
    intros Hne. unfold auth_state. cbn.
    unfold jsstring_eqb. by rewrite bool_decide_eq_false_2.
  - intros st0. split; reflexivity.
Qed.

End AuthClaims.

Section PolicyClaims.

Context `{Platform}.

(** C8: the strength check accepts exactly the passwords of at least
    eight characters with an uppercase letter (A to Z), a lowercase
    letter (a to z), a digit (0 to 9) and a symbol (of the fixed set).
    The form submits a new vault's password only
    when it passes the check, the reset path unlocks only when it
    passes, and an ordinary unlock attempt is held back only when it is
    shorter than eight characters: otherwise [loadVaultData] decides. *)
Theorem strength_policy (password confirmPassword : jsstring)
    (st : IndexState) (ls : Storage) (n : Z) :
  auth_state st = Locked n ->
  (validatePasswordStrength password = true <-> meets_policy password)
  /\ (AuthScreen.isValid (AuthScreen.validatePasswordStrength password) = true
      <-> meets_policy password)
  /\ (AuthScreen.handleSubmit create password confirmPassword = Some password
      <-> meets_policy password /\ password = confirmPassword)
  /\ (AuthScreen.handleSubmit create password confirmPassword = None
      <-> ~ (meets_policy password /\ password = confirmPassword))
  /\ ((2 <= n)%Z ->
      (auth_state (handleAuth password st ls).1.1 = Unlocked
       <-> meets_policy password))
  /\ ((n < 2)%Z ->
      ((length password < 8)%nat ->
       submit password confirmPassword st ls = (st, ls, []))
      /\ ((8 <= length password)%nat ->
          submit password confirmPassword st ls = handleAuth password st ls
          /\ (auth_state (handleAuth password st ls).1.1 = Unlocked
              <-> exists d, (loadVaultData password ls).1 = inr d))).
Proof.
  intros Hst.
  destruct (auth_state_Locked st n Hst) as (Hm & Hf & Hv).
  pose proof (validatePasswordStrength_spec password) as Hspec.
  assert (Hsub : AuthScreen.handleSubmit create password confirmPassword
                 = if bool_decide (password = confirmPassword)
                   then if validatePasswordStrength password
                        then Some password else None
                   else None).
  { unfold AuthScreen.handleSubmit, jsstring_eqb. cbn [Mode_eqb andb].
    rewrite AuthScreen_isValid.
    destruct (bool_decide (password = confirmPassword)); cbn [negb];
      [|reflexivity].
    destruct (validatePasswordStrength password); reflexivity. }
  split; [exact Hspec|]. split; [by rewrite AuthScreen_isValid|].
  split; [|split; [|split]].
  - rewrite Hsub. case_bool_decide as Heq.
    + destruct (validatePasswordStrength password).
      * split; [intros _; split; [by apply Hspec|exact Heq]|reflexivity].
      * split; [discriminate|].
        intros [Hp _]. apply Hspec in Hp. discriminate.
    + split; [discriminate|]. intros [_ Hp]. contradiction.
  - rewrite Hsub. case_bool_decide as Heq.
    + destruct (validatePasswordStrength password).
      * split; [discriminate|]. intros Hn. exfalso. apply Hn.
        split; [by apply Hspec|exact Heq].
      * split; [|reflexivity]. intros _ [Hp _].
        apply Hspec in Hp. discriminate.
    + split; [|reflexivity]. intros _ [_ Hp]. contradiction.
  - intros Hn. rewrite handleAuth_reset by (try assumption; lia).
    destruct (validatePasswordStrength password) eqn:E.
    + assert (Hp : meets_policy password) by (by apply Hspec).
      split; [intros _; exact Hp|]. intros _.
      destruct Hp as [Hlen _].
      unfold auth_state. cbn. rewrite jsstring_eqb_nil by lia. reflexivity.
    + split; [|intros Hp; apply Hspec in Hp; discriminate].
      unfold auth_state. cbn. rewrite Hv, Hm. discriminate.
  - intros Hn. split.
    + intros Hlen. unfold submit, AuthScreen.handleSubmit. rewrite Hm.
      cbn [Mode_eqb andb].
      destruct (N.ltb_spec (N.of_nat (length password)) 8); [reflexivity|lia].
    + intros Hlen.
      assert (Hs : submit password confirmPassword st ls
                   = handleAuth password st ls).
      { unfold submit, AuthScreen.handleSubmit. rewrite Hm.
        cbn [Mode_eqb andb].
        destruct (N.ltb_spec (N.of_nat (length password)) 8);
          [lia|reflexivity]. }
      split; [exact Hs|].
      rewrite handleAuth_attempt by (try assumption; lia).
      destruct (loadVaultData password ls).1 as [e|d].
      * split; [|intros [d Hd]; discriminate].
        unfold auth_state. cbn. rewrite Hv, Hm. discriminate.
      * split; [eauto|]. intros _. unfold auth_state. cbn.
        rewrite jsstring_eqb_nil by lia. reflexivity.
Qed.

(** C10: the symbols of the strength check are the characters of the
    fixed set and no others; a password none of whose characters is in
    the set is rejected by the check of the form and by the check of the
    reset path, as is the password of seven alphanumeric characters and
    an underscore. *)
Theorem symbols_are_the_fixed_set (password : jsstring) (st : IndexState)
    (ls : Storage) (n : Z) :
  auth_state st = Locked n -> (2 <= n)%Z ->
  (forall c, c ∈ password -> c ∉ symbol_chars) ->
  symbol_chars
  = [33; 64; 35; 36; 37; 94; 38; 42; 40; 41; 44; 46; 63; 34; 58; 123; 125;
     124; 60; 62]
  /\ (forall c, symbol_class c = true <-> c ∈ symbol_chars)
  /\ validatePasswordStrength password = false
  /\ AuthScreen.isValid (AuthScreen.validatePasswordStrength password) = false
  /\ AuthScreen.handleSubmit create password password = None
  /\ (exists st',
        handleAuth password st ls = (st', ls, [])
        /\ auth_state st' = Locked n /\ authError st' = reset_error)
  /\ ch "_"%char ∈ lit "Abcdef1_"
  /\ upper_class (ch "_"%char) || lower_class (ch "_"%char)
     || digit_class (ch "_"%char) = false
  /\ validatePasswordStrength (lit "Abcdef1_") = false
  /\ AuthScreen.handleSubmit create (lit "Abcdef1_") (lit "Abcdef1_") = None.
Proof.
  intros Hst Hn Hnone.
  destruct (auth_state_Locked st n Hst) as (Hm & Hf & Hv).
  assert (Hsym : test symbol_class password = false).
  { apply not_true_is_false. intros Ht.
    apply (test_Exists symbol_class symbol) in Ht;
      [|apply symbol_class_spec].
    apply Exists_exists in Ht. destruct Ht as (c & Hc & Hs).
    exact (Hnone c Hc Hs). }
  assert (Hv0 : validatePasswordStrength password = false).
  { unfold validatePasswordStrength. rewrite Hsym.
    by rewrite andb_false_r, andb_false_l. }
  split; [reflexivity|]. split; [apply symbol_class_spec|].
  split; [exact Hv0|]. split; [by rewrite AuthScreen_isValid|].
  split.
  { unfold AuthScreen.handleSubmit, jsstring_eqb. cbn [Mode_eqb andb].
    rewrite bool_decide_eq_true_2 by reflexivity. cbn [negb].
    by rewrite AuthScreen_isValid, Hv0. }
  split.
  { rewrite handleAuth_reset by (try assumption; lia). rewrite Hv0.
    eexists. split; [reflexivity|]. split; [|reflexivity].
    unfold auth_state. cbn. rewrite Hv, Hm, Hf. reflexivity. }
  split; [|split; [reflexivity|split; reflexivity]].
  apply list_elem_of_In. cbn. tauto.
Qed.

End PolicyClaims.

(** ** Objects *)

Lemma jsstring_eqb_eq (a b : jsstring) : jsstring_eqb a b = true <-> a = b.
Proof. unfold jsstring_eqb. apply bool_decide_eq_true. Qed.

Lemma lookup_set_prop (p q : jsstring) (v : value) (o : object) :
  lookup_prop p (set_prop q v o)
  = if jsstring_eqb p q then Some v else lookup_prop p o.
Proof.
  induction o as [|[r w] o IH]; cbn [set_prop lookup_prop].
  - reflexivity.
  - destruct (jsstring_eqb q r) eqn:Eqr; cbn [lookup_prop].
    + apply jsstring_eqb_eq in Eqr. subst r.
      destruct (jsstring_eqb p q); reflexivity.
    + destruct (jsstring_eqb p r) eqn:Epr.
      * apply jsstring_eqb_eq in Epr. subst r.
        destruct (jsstring_eqb p q) eqn:Epq; [|reflexivity].
        apply jsstring_eqb_eq in Epq. subst q.
        unfold jsstring_eqb in Eqr.
        by rewrite bool_decide_eq_true_2 in Eqr.
      * exact IH.
Qed.

Lemma lookup_prop_app (p : jsstring) (o1 o2 : object) :
  lookup_prop p (o1 ++ o2)
  = match lookup_prop p o1 with
    | Some v => Some v
    | None => lookup_prop p o2
    end.
Proof.
  induction o1 as [|[q w] o1 IH]; cbn [app lookup_prop]; [reflexivity|].
  destruct (jsstring_eqb p q); [reflexivity|exact IH].
Qed.

(** A property of [{ ...a, ...v }] is the last one of that name in [v],
    or else the one of [a]. *)
Lemma lookup_spread (p : jsstring) (a : object) (v : value) :
  lookup_prop p (spread a v)
  = match lookup_prop p (rev (own_props v)) with
    | Some x => Some x
    | None => lookup_prop p a
    end.
Proof.
  unfold spread. generalize (own_props v) as l. intros l. revert a.
  induction l as [|[q w] l IH]; intros a; cbn [fold_left rev].
  - reflexivity.
  - rewrite IH, lookup_prop_app. cbn [fst snd lookup_prop].
    rewrite lookup_set_prop.
    destruct (lookup_prop p (rev l)); [reflexivity|].
    destruct (jsstring_eqb p q); reflexivity.
Qed.

(** ** [importVault] *)

Section Storage.

Context `{Platform}.

(** [importVault] once the blob is decrypted and parsed. *)
Lemma importVault_decoded (blob pw : jsstring) (ls : Storage)
    (enc : value) (json : jsstring) (decoded : value) :
  JSON_parse blob = inr enc ->
  decryptData enc pw = inr json ->
  JSON_parse json = inr decoded ->
  importVault blob pw ls
  = (match get decoded (lit "keys") with
     | inl e => inl (ErrorFrom import_prefix e)
     | inr (VArray elems _) =>
         match get decoded (lit "settings"), get decoded (lit "version") with
         | inr st, inr v =>
             inr {| keys := elems;
                    settings := spread DEFAULT_SETTINGS st;
                    version := if truthy v then v else VNumber 1 |}
         | inl e, _ | _, inl e => inl (ErrorFrom import_prefix e)
         end
     | inr _ => inl (ErrorFrom import_prefix invalid_backup)
     end, ls).
Proof.
  intros H1 H2 H3. unfold importVault. rewrite H1. cbn [mbind result_bind].
  rewrite H2. cbn [mbind result_bind]. rewrite H3. cbn [mbind result_bind].
  destruct (get decoded (lit "keys")) as [e|ks]; [reflexivity|].
  cbn [mbind result_bind].
  destruct ks; try reflexivity.
  - cbn. by destruct b.
  - cbn. by destruct (n =? 0)%Z.
  - cbn. by destruct (jsstring_eqb s []).
  - cbn [truthy Array_isArray negb orb].
    destruct (get decoded (lit "settings")) as [e|st]; [reflexivity|].
    cbn [mbind result_bind].
    destruct (get decoded (lit "version")) as [e|v]; reflexivity.
Qed.

Lemma get_total (v : value) (p q : jsstring) (x : value) :
  get v p = inr x -> exists y, get v q = inr y.
Proof.
  destruct v; unfold get, throw; try discriminate; intros _;
    cbn [mret result_ret]; eauto.
  destruct (lookup_prop q props); [eauto|].
  destruct (jsstring_eqb q (lit "keys")); eauto.
Qed.

Lemma importVault_storage (blob pw : jsstring) (ls : Storage) :
  (importVault blob pw ls).2 = ls.
Proof. reflexivity. Qed.

(** What an import that succeeded went through. *)
Lemma importVault_success (blob pw : jsstring) (ls : Storage) (d : VaultData) :
  (importVault blob pw ls).1 = inr d ->
  exists enc json decoded elems props st v,
    JSON_parse blob = inr enc
    /\ decryptData enc pw = inr json
    /\ JSON_parse json = inr decoded
    /\ get decoded (lit "keys") = inr (VArray elems props)
    /\ get decoded (lit "settings") = inr st
    /\ get decoded (lit "version") = inr v
    /\ d = {| keys := elems;
              settings := spread DEFAULT_SETTINGS st;
              version := if truthy v then v else VNumber 1 |}.
Proof.
  destruct (JSON_parse blob) as [e|enc] eqn:H1.
  { unfold importVault. rewrite H1. discriminate. }
  destruct (decryptData enc pw) as [e|json] eqn:H2.
  { unfold importVault. rewrite H1. cbn. rewrite H2. discriminate. }
  destruct (JSON_parse json) as [e|decoded] eqn:H3.
  { unfold importVault. rewrite H1. cbn. rewrite H2. cbn. rewrite H3.
    discriminate. }
  rewrite (importVault_decoded blob pw ls enc json decoded H1 H2 H3).
  cbn [fst].
  destruct (get decoded (lit "keys")) as [e|ks] eqn:Hk; [discriminate|].
  destruct ks; try discriminate.
  destruct (get decoded (lit "settings")) as [e|st] eqn:Hs; [discriminate|].
  destruct (get decoded (lit "version")) as [e|v] eqn:Hv; [discriminate|].
  intros E. injection E as <-.
  exists enc, json, decoded, elems, props, st, v. auto 10.
Qed.

End Storage.

Section StorageClaims.

Context `{Platform}.

(** C7, as amended.  [importVault] decrypts the blob with the password
    given.  A decoded value that is not [null] and whose [keys] is not
    an array is rejected with the error of an invalid backup format,
    and the decoded value [null] with a [TypeError], each inside the
    error of a failed import.  A decoded value whose [keys] is an array,
    whatever its elements, gives a vault of these elements, with the
    settings fields it lacks taken from the defaults and version 1
    where it has none.  No call changes the persisted storage. *)
Theorem import_validation (blob pw : jsstring) (ls : Storage) (enc : value) :
  JSON_parse blob = inr enc ->
  (forall blob' pw' ls', (importVault blob' pw' ls').2 = ls')
  /\ (forall e, decryptData enc pw = inl e ->
        (importVault blob pw ls).1 = inl (ErrorFrom import_prefix e))
  /\ (forall json decoded,
        decryptData enc pw = inr json ->
        JSON_parse json = inr decoded ->
        (decoded = VNull ->
         (importVault blob pw ls).1 = inl (ErrorFrom import_prefix TypeError))
        /\ (forall ks,
              get decoded (lit "keys") = inr ks -> Array_isArray ks = false ->
              (importVault blob pw ls).1
              = inl (ErrorFrom import_prefix invalid_backup))
        /\ (forall elems props,
              get decoded (lit "keys") = inr (VArray elems props) ->
              exists st v d,
                get decoded (lit "settings") = inr st
                /\ get decoded (lit "version") = inr v
                /\ (importVault blob pw ls).1 = inr d
                /\ keys d = elems
                /\ (forall p,
                      lookup_prop p (settings d)
                      = match lookup_prop p (rev (own_props st)) with
                        | Some x => Some x
                        | None => lookup_prop p DEFAULT_SETTINGS
                        end)
                /\ version d = (if truthy v then v else VNumber 1)
                /\ (v = VUndefined -> version d = VNumber 1))).
Proof.
  intros H1. split; [reflexivity|]. split.
  - intros e H2. unfold importVault. rewrite H1. cbn [mbind result_bind].
    rewrite H2. reflexivity.
  - intros json decoded H2 H3.
    rewrite (importVault_decoded blob pw ls enc json decoded H1 H2 H3).
    cbn [fst]. split; [|split].
    + intros ->. reflexivity.
    + intros ks Hk Ha. rewrite Hk. destruct ks; try reflexivity.
      discriminate.
    + intros elems props Hk. rewrite Hk.
      destruct (get_total decoded _ (lit "settings") _ Hk) as [st Hs].
      destruct (get_total decoded _ (lit "version") _ Hk) as [v Hv].
      rewrite Hs, Hv. eexists st, v, _.
      do 3 (split; [reflexivity|]). split; [reflexivity|].
      split; [intros p; apply lookup_spread|].
      split; [reflexivity|]. intros E. rewrite E. reflexivity.
Qed.

(** C6, as amended.  The vault returned by [importVault] has a version:
    the one of the decoded backup when that is truthy, and 1 when the
    backup has none or a falsy one; so it is at least 1 whenever the
    backup has no version, version 0, or a version of at least 1, and a
    negative version is returned as it is.  The vault returned by
    [loadVaultData] when no envelope is persisted has version 1. *)
Theorem version_defaulting (blob pw : jsstring) (ls : Storage)
    (d : VaultData) :
  (importVault blob pw ls).1 = inr d ->
  (exists enc json decoded v,
     JSON_parse blob = inr enc
     /\ decryptData enc pw = inr json
     /\ JSON_parse json = inr decoded
     /\ get decoded (lit "version") = inr v
     /\ version d = (if truthy v then v else VNumber 1)
     /\ (v = VUndefined \/ v = VNumber 0
         \/ (exists n, v = VNumber n /\ (1 <= n)%Z) ->
         exists m, version d = VNumber m /\ (1 <= m)%Z)
     /\ (forall n, v = VNumber n -> (n < 0)%Z -> version d = VNumber n))
  /\ truthy (version d) = true
  /\ version d <> VUndefined
  /\ (forall ls' p,
        getItem STORAGE_KEY ls' = None ->
        exists dv,
          (loadVaultData p ls').1 = inr dv
          /\ get dv (lit "version") = inr (VNumber 1)).
Proof.
  intros Hd.
  destruct (importVault_success blob pw ls d Hd)
    as (enc & json & decoded & elems & props & st & v
        & H1 & H2 & H3 & Hk & Hs & Hv & ->).
  cbn [version].
  split; [|split; [|split]].
  - exists enc, json, decoded, v. repeat (split; [assumption|]).
    split; [reflexivity|]. split.
    + intros [-> | [-> | (n & -> & Hn)]].
      * exists 1%Z. split; [reflexivity|lia].
      * exists 1%Z. split; [reflexivity|lia].
      * cbn [truthy]. destruct (Z.eqb_spec n 0); cbn [negb]; [lia|].
        exists n. split; [reflexivity|lia].
    + intros n -> Hn. cbn [truthy].
      destruct (Z.eqb_spec n 0); cbn [negb]; [lia|reflexivity].
  - destruct (truthy v) eqn:E; [exact E|reflexivity].
  - destruct (truthy v) eqn:E; [|discriminate].
    intros ->. discriminate.
  - intros ls' p E. rewrite loadVaultData_absent by exact E.
    eexists. split; reflexivity.
Qed.

End StorageClaims.

(** ** The merge of an import *)

Section Merge.

Context `{Platform}.

Lemma get_name (k : ApiKey.t) :
  get (ApiKey.to_value k) (lit "name") = inr (VString (ApiKey.name k)).
Proof. destruct k. reflexivity. Qed.

Lemma mapM_names (l : list ApiKey.t) :
  mapM (fun k => get k (lit "name")) (map ApiKey.to_value l)
  = inr (map (fun k => VString (ApiKey.name k)) l).
Proof.
  induction l as [|k l IH]; [reflexivity|].
  cbn [map mapM]. rewrite get_name. cbn [mbind result_bind].
  rewrite IH. reflexivity.
Qed.

Lemma Set_has_names (existing : list ApiKey.t) (nm : jsstring) :
  Set_has (map (fun k => VString (ApiKey.name k)) existing) (VString nm) = true
  <-> nm ∈ map ApiKey.name existing.
Proof.
  unfold Set_has. rewrite existsb_exists. split.
  - intros (x & Hin & Hx). apply in_map_iff in Hin.
    destruct Hin as (k & <- & Hk). cbn [same_value_zero] in Hx.
    apply jsstring_eqb_eq in Hx. subst nm.
    apply list_elem_of_In, in_map. exact Hk.
  - intros Hin. apply list_elem_of_In, in_map_iff in Hin.
    destruct Hin as (k & <- & Hk).
    exists (VString (ApiKey.name k)). split.
    + apply in_map_iff. eauto.
    + cbn [same_value_zero]. by apply jsstring_eqb_eq.
Qed.

Lemma filter_new_names (existing imported : list ApiKey.t) :
  filter_new (map (fun k => VString (ApiKey.name k)) existing)
    (map ApiKey.to_value imported)
  = inr (map ApiKey.to_value
           (filter (fun k => ApiKey.name k ∉ map ApiKey.name existing)
              imported)).
Proof.
  induction imported as [|k l IH]; [reflexivity|].
  cbn [map filter_new]. rewrite get_name. cbn [mbind result_bind].
  rewrite IH. cbn [mbind result_bind mret result_ret]. f_equal.
  destruct (Set_has _ (VString (ApiKey.name k))) eqn:E; cbn [negb].
  - apply Set_has_names in E. by rewrite filter_cons_False by auto.
  - rewrite filter_cons_True; [reflexivity|].
    intros Hin. apply Set_has_names in Hin. congruence.
Qed.

(** C9: importing into the unlocked vault appends exactly the imported
    records whose name is the name of no existing record, in their
    order, and keeps every existing record as it is; each field of the
    imported settings replaces the current one.  The names looked at
    are those of [vaultData], the state the handler was created in, and
    the records are appended to [prev], the state at the update: the
    two are the same vault unless it changed while the backup was
    read. *)
Theorem import_merge (existing imported : list ApiKey.t)
    (vaultData prev importedData : VaultData) :
  keys vaultData = map ApiKey.to_value existing ->
  keys importedData = map ApiKey.to_value imported ->
  exists next n,
    merge_import vaultData prev importedData = inr (next, n)
    /\ keys next
       = keys prev
         ++ map ApiKey.to_value
              (filter (fun k => ApiKey.name k ∉ map ApiKey.name existing)
                 imported)
    /\ (prev = vaultData ->
        keys next
        = map ApiKey.to_value
            (existing
             ++ filter (fun k => ApiKey.name k ∉ map ApiKey.name existing)
                  imported))
    /\ n = length (filter (fun k => ApiKey.name k ∉ map ApiKey.name existing)
                     imported)
    /\ version next = version prev
    /\ (forall p,
          lookup_prop p (settings next)
          = match lookup_prop p (rev (settings importedData)) with
            | Some x => Some x
            | None => lookup_prop p (settings prev)
            end)
    /\ (forall text pw ls,
          (importVault text pw ls).1 = inr importedData ->
          handleImportVault text pw vaultData prev ls = (next, ls, inr n)).
Proof.
  intros Hp Hi. unfold merge_import. rewrite Hp, Hi.
  rewrite mapM_names. cbn [mbind result_bind].
  rewrite filter_new_names. cbn [mbind result_bind mret result_ret].
  eexists _, _. split; [reflexivity|]. cbn [keys version settings].
  split; [reflexivity|].
  split; [intros ->; by rewrite Hp, map_app|].
  split; [by rewrite length_map|].
  split; [reflexivity|]. split; [intros p; apply lookup_spread|].
  intros text pw ls Himp. unfold handleImportVault.
  destruct (importVault text pw ls) as [r ls'] eqn:E.
  pose proof (importVault_storage text pw ls) as Hls. rewrite E in Hls.
  cbn [fst snd] in Himp, Hls. subst r ls'.
  unfold merge_import. rewrite Hp, Hi.
  rewrite mapM_names. cbn [mbind result_bind].
  rewrite filter_new_names. cbn [mbind result_bind mret result_ret].
  by rewrite length_map.
Qed.

End Merge.

(** ** The claims on concrete inputs *)

Section Runs.

Import Example.

Local Abbreviation P := Reference.platform.

Lemma destructive_reset_witness :
  auth_state (locked 2) = Locked 2
  /\ meets_policy (lit "N3wStr0ng!")
  /\ ~ meets_policy (lit "abc")
  /\ auth_state
       (@handleAuth P (lit "N3wStr0ng!") (locked 2)
          (stored (value_of_VaultData vault) password)).1.1
     = Unlocked
  /\ (@handleAuth P (lit "abc") (locked 2)
        (stored (value_of_VaultData vault) password)).1.2
     = stored (value_of_VaultData vault) password.
Proof.
  assert (Hs : meets_policy (lit "N3wStr0ng!")).
  { apply validatePasswordStrength_spec. vm_compute. reflexivity. }
  assert (Hw : ~ meets_policy (lit "abc")).
  { intros Hp. apply validatePasswordStrength_spec in Hp.
    vm_compute in Hp. discriminate. }
  split; [reflexivity|]. split; [exact Hs|]. split; [exact Hw|].
  split.
  - destruct (@destructive_reset P (lit "N3wStr0ng!") (locked 2)
                (stored (value_of_VaultData vault) password) 2 salt0 iv0
                eq_refl ltac:(lia)) as (_ & Hok & _).
    destruct (Hok Hs) as (st' & toasts & E & Hu & _). by rewrite E.
  - destruct (@destructive_reset P (lit "abc") (locked 2)
                (stored (value_of_VaultData vault) password) 2 salt0 iv0
                eq_refl ltac:(lia)) as (_ & _ & Hko).
    destruct (Hko Hw) as (st' & E & _). by rewrite E.
Defined.

Lemma decryptData_encryptData_witness :
  utf8_exact (Reference.stringify (value_of_VaultData vault)) = true
  /\ N.of_nat
       (length
          (@ciphertext P salt0 iv0
             (Reference.stringify (value_of_VaultData vault)) password))
     <= @max_arguments P
  /\ @decrypt_of_encrypt P salt0 iv0
       (Reference.stringify (value_of_VaultData vault)) password password
     = inr (Reference.stringify (value_of_VaultData vault)).
Proof.
  assert (Ht : utf8_exact (Reference.stringify (value_of_VaultData vault))
               = true).
  { vm_compute. reflexivity. }
  assert (Hb : N.of_nat
                 (length
                    (@ciphertext P salt0 iv0
                       (Reference.stringify (value_of_VaultData vault))
                       password))
               <= @max_arguments P).
  { apply N.leb_le. vm_compute. reflexivity. }
  split; [exact Ht|]. split; [exact Hb|].
  exact (proj1 (proj1 (@decryptData_encryptData P salt0 iv0
                         (Reference.stringify (value_of_VaultData vault))
                         password reference_aead_correct Ht)
                  Hb)).
Defined.

(** C2 fails for a plaintext that starts with the byte order mark, which
    decryption drops, for one with a lone surrogate, which comes back
    as U+FFFD, and for one whose ciphertext has more bytes than a call
    takes arguments, which [encryptData] does not encrypt. *)
Lemma roundtrip_counterexample :
  @decrypt_of_encrypt P salt0 iv0 (0xFEFF :: lit "{}") password password
  = inr (lit "{}")
  /\ @decrypt_of_encrypt P salt0 iv0 [0xD800] password password
     = inr [0xFFFD]
  /\ utf8_exact long_text = true
  /\ @decrypt_of_encrypt P salt0 iv0 long_text password password
     = inl RangeError.
Proof. repeat split; vm_compute; reflexivity. Qed.




Lemma attempt_counter_witness :
  auth_state (locked 0) = Locked 0
  /\ (@loadVaultData P (lit "wrong1")
        (stored (value_of_VaultData vault) password)).1
     = inl load_failure
  /\ auth_state
       (@handleAuth P (lit "wrong1") (locked 0)
          (stored (value_of_VaultData vault) password)).1.1
     = Locked 1.
Proof.
  assert (Hl : (@loadVaultData P (lit "wrong1")
                  (stored (value_of_VaultData vault) password)).1
               = inl load_failure).
  { vm_compute. reflexivity. }
  split; [reflexivity|]. split; [exact Hl|].
  destruct (@attempt_counter P (lit "wrong1") (locked 0)
              (stored (value_of_VaultData vault) password) 0
              eq_refl ltac:(lia)) as (Hfail & _).
  destruct (Hfail _ Hl) as (st' & E & Hs & _). by rewrite E.
Defined.

Lemma first_run_witness :
  getItem STORAGE_KEY (∅ : Storage) = None
  /\ vaultExists (∅ : Storage) = false.
Proof.
  split; [reflexivity|].
  exact (proj1 (@first_run P ∅ password eq_refl)).
Defined.

Lemma version_defaulting_witness :
  (@importVault P (envelope no_version password) password ∅).1
  = inr empty_vault
  /\ truthy (version empty_vault) = true.
Proof.
  assert (Hi : (@importVault P (envelope no_version password) password ∅).1
               = inr empty_vault).
  { vm_compute. reflexivity. }
  split; [exact Hi|].
  exact (proj1 (proj2 (@version_defaulting P _ _ _ _ Hi))).
Defined.

(** C6 fails for a stored vault without a version, which is loaded
    without one, for a stored vault of version 0, loaded with version
    0, and for a backup of version -1, imported with version -1. *)
Lemma version_counterexample :
  ((@loadVaultData P password (stored no_version password)).1
   ≫= (fun d => get d (lit "version")))
  = inr VUndefined
  /\ ((@loadVaultData P password (stored (with_version 0) password)).1
      ≫= (fun d => get d (lit "version")))
     = inr (VNumber 0)
  /\ (@importVault P (envelope (with_version (-1)) password) password ∅).1
     = inr {| keys := []; settings := DEFAULT_SETTINGS;
              version := VNumber (-1) |}.
Proof.
  split; [vm_compute; reflexivity|]. split; vm_compute; reflexivity.
Qed.

Lemma import_validation_witness :
  Reference.parse (envelope keys_not_array password)
  = inr (parsed (envelope keys_not_array password))
  /\ (@importVault P (envelope keys_not_array password) password ∅).1
     = inl (ErrorFrom import_prefix invalid_backup)
  /\ (@importVault P (envelope keys_not_array password) password ∅).2 = ∅.
Proof.
  assert (E : Reference.parse (envelope keys_not_array password)
              = inr (parsed (envelope keys_not_array password))).
  { vm_compute. reflexivity. }
  split; [exact E|].
  destruct (@import_validation P (envelope keys_not_array password) password
              ∅ (parsed (envelope keys_not_array password)) E)
    as (Hsame & _ & Hdec).
  split; [|exact (Hsame _ _ _)].
  destruct (Hdec (Reference.stringify keys_not_array) keys_not_array
              ltac:(vm_compute; reflexivity) ltac:(vm_compute; reflexivity))
    as (_ & Hbad & _).
  exact (Hbad (VString (lit "none")) eq_refl eq_refl).
Defined.

(** C7 fails for a backup whose decoded value is [null], rejected with
    a [TypeError] and not with the error of an invalid format, and for a
    backup whose keys are an array of values that are not records, which
    is accepted. *)
Lemma import_counterexample :
  (@importVault P (envelope VNull password) password ∅).1
  = inl (ErrorFrom import_prefix TypeError)
  /\ ErrorFrom import_prefix TypeError
     <> ErrorFrom import_prefix invalid_backup
  /\ (@importVault P (envelope not_records password) password ∅).1
     = inr {| keys := [VNull; VNumber 1]; settings := DEFAULT_SETTINGS;
              version := VNumber 1 |}.
Proof.
  split; [vm_compute; reflexivity|]. split; [discriminate|].
  vm_compute. reflexivity.
Qed.

Lemma strength_policy_witness :
  auth_state (locked 0) = Locked 0
  /\ (validatePasswordStrength password = true <-> meets_policy password).
Proof.
  split; [reflexivity|].
  exact (proj1 (@strength_policy P password password (locked 0) ∅ 0 eq_refl)).
Defined.

Lemma import_merge_witness :
  keys vault = map ApiKey.to_value [record "A"; record "B"]
  /\ exists next n,
       @merge_import vault vault
         {| keys := map ApiKey.to_value [record "B"; record "C"];
            settings := DEFAULT_SETTINGS; version := VNumber 1 |}
       = inr (next, n)
       /\ keys next
          = map ApiKey.to_value [record "A"; record "B"; record "C"]
       /\ n = 1%nat.
Proof.
  split; [reflexivity|].
  destruct (@import_merge P [record "A"; record "B"]
              [record "B"; record "C"] vault vault
              {| keys := map ApiKey.to_value [record "B"; record "C"];
                 settings := DEFAULT_SETTINGS; version := VNumber 1 |}
              eq_refl eq_refl) as (next & n & E & _ & Hk & Hn & _).
  exists next, n. split; [exact E|]. split; [exact (Hk eq_refl)|exact Hn].
Defined.

Lemma symbols_are_the_fixed_set_witness :
  auth_state (locked 2) = Locked 2
  /\ (forall c, c ∈ lit "Abcdef1_" -> c ∉ symbol_chars)
  /\ validatePasswordStrength (lit "Abcdef1_") = false.
Proof.
  assert (Hn : forall c, c ∈ lit "Abcdef1_" -> c ∉ symbol_chars).
  { intros c Hc Hs. apply symbol_class_spec in Hs.
    apply list_elem_of_In in Hc. cbn in Hc.
    repeat (destruct Hc as [<- | Hc]; [vm_compute in Hs; discriminate|]).
    destruct Hc. }
  split; [reflexivity|]. split; [exact Hn|].
  exact (proj1 (proj2 (proj2
           (@symbols_are_the_fixed_set P (lit "Abcdef1_") (locked 2) ∅ 2
              eq_refl ltac:(lia) Hn)))).
Defined.

End Runs.
(** * The rest of the program: facts *)

(** ** [generateSecureString] *)

Lemma chars_lookup (b : byte) :
  exists c,
    chars !! N.to_nat (Byte.to_N b mod N.of_nat (length chars)) = Some c
    /\ upper_class c || lower_class c || digit_class c = true.
Proof. destruct b; eexists; split; reflexivity. Qed.

(** X1: a generated string has one character for each byte drawn, and
    every character is an ASCII letter or digit. *)
Theorem generateSecureString_alphabet (array : list byte) :
  length (generateSecureString array) = length array
  /\ Forall (fun c => uppercase_letter c \/ lowercase_letter c \/ digit c)
       (generateSecureString array).
Proof.
  unfold generateSecureString.
  induction array as [|b l [IHlen IHall]]; cbn [map concat].
  - split; [reflexivity|constructor].
  - destruct (chars_lookup b) as (c & -> & Hc). cbn [app length].
    split; [by rewrite IHlen|].
    constructor; [|exact IHall].
    unfold upper_class, lower_class, digit_class in Hc.
    apply orb_true_iff in Hc. destruct Hc as [Hc|Hc].
    + apply orb_true_iff in Hc. destruct Hc as [Hc|Hc];
        apply in_range_spec in Hc; auto.
    + apply in_range_spec in Hc; auto.
Qed.

(** X2: the draw is not uniform.  Of the 256 bytes, five give each of
    the letters A to H and four give each other character. *)
Theorem generateSecureString_bias :
  NoDup all_bytes
  /\ (forall b : byte, b ∈ all_bytes)
  /\ Forall (fun c =>
               length (filter (fun b => generateSecureString [b] = [c])
                         all_bytes)
               = if in_range (ch "A"%char) (ch "H"%char) c then 5%nat
                 else 4%nat)
       chars.
Proof.
  split; [|split].
  - refine (bool_decide_unpack _ _). vm_compute. exact I.
  - intros b. refine (bool_decide_unpack _ _). destruct b; vm_compute; exact I.
  - refine (bool_decide_unpack _ _). vm_compute. exact I.
Qed.

(** ** The masked key of [KeyCard] *)

Lemma Forall_stars (n : nat) :
  Forall (fun c => c = ch "*"%char) (KeyCard.stars n).
Proof.
  unfold KeyCard.stars. apply Forall_forall. intros c Hc.
  apply list_elem_of_In, repeat_spec in Hc. exact Hc.
Qed.

(** X3: a key of at most 8 characters is masked by as many stars, and
    shows nothing.  A longer key shows its first four and last four
    characters around stars only, at least four of them: the masked
    text has the length of the key, or 12 if the key is shorter. *)
Theorem maskKey_reveals (key : jsstring) :
  let masked := KeyCard.maskKey key in
  if (length key <=? 8)%nat then
    length masked = length key
    /\ Forall (fun c => c = ch "*"%char) masked
  else
    length masked = Nat.max (length key) 12
    /\ take 4 masked = take 4 key
    /\ drop (length masked - 4) masked = drop (length key - 4) key
    /\ Forall (fun c => c = ch "*"%char)
         (take (length masked - 8) (drop 4 masked)).
Proof.
  cbv zeta. unfold KeyCard.maskKey.
  destruct (length key <=? 8)%nat eqn:E.
  - split; [apply repeat_length|apply Forall_stars].
  - apply Nat.leb_gt in E.
    set (n := Nat.max (length key - 8) 4).
    assert (Hlen : length (take 4 key ++ KeyCard.stars n
                           ++ drop (length key - 4) key)
                   = (n + 8)%nat).
    { rewrite !length_app, length_take, length_drop.
      unfold KeyCard.stars. rewrite repeat_length. lia. }
    assert (H4 : length (take 4 key) = 4%nat)
      by (rewrite length_take; lia).
    rewrite Hlen. repeat split.
    + unfold n. lia.
    + rewrite take_app_le by lia. rewrite take_take. f_equal.
    + replace (n + 8 - 4)%nat
        with (length (take 4 key) + length (KeyCard.stars n))%nat
        by (unfold KeyCard.stars; rewrite repeat_length, H4; lia).
      rewrite app_assoc, <- length_app. apply drop_app_length.
    + rewrite drop_app, H4, drop_ge by lia. cbn [app drop Nat.sub].
      replace (n + 8 - 8)%nat with (length (KeyCard.stars n))
        by (unfold KeyCard.stars; rewrite repeat_length; lia).
      rewrite drop_0, take_app_length. apply Forall_stars.
Qed.

(** ** The submit button of [AuthScreen] *)

(** X4: the guards of [handleSubmit] and the condition that enables the
    button agree.  A submit reaches [onAuth], with the password typed,
    exactly when the form is valid; the button is disabled exactly when
    a submit would be dropped, or while the page is loading. *)
Theorem submit_button (mode : Mode) (password confirmPassword : jsstring)
    (loading : bool) :
  AuthScreen.handleSubmit mode password confirmPassword
  = (if AuthScreenRender.isValid mode password confirmPassword
     then Some password else None)
  /\ (AuthScreenRender.disabled mode password confirmPassword loading = true
      <-> loading = true
          \/ AuthScreen.handleSubmit mode password confirmPassword = None).
Proof.
  assert (E : AuthScreen.handleSubmit mode password confirmPassword
              = if AuthScreenRender.isValid mode password confirmPassword
                then Some password else None).
  { unfold AuthScreen.handleSubmit, AuthScreenRender.isValid,
      AuthScreenRender.passwordValidation.
    destruct mode; cbn [Mode_eqb andb orb negb].
    - destruct (jsstring_eqb password confirmPassword); cbn [negb];
        [|by rewrite andb_false_r].
      rewrite andb_true_r.
      by destruct (AuthScreen.isValid _).
    - rewrite andb_true_r.
      destruct (N.ltb_spec (N.of_nat (length password)) 8);
        destruct (N.leb_spec 8 (N.of_nat (length password)));
        try reflexivity; lia. }
  split; [exact E|].
  unfold AuthScreenRender.disabled. rewrite E.
  destruct (AuthScreenRender.isValid mode password confirmPassword),
    loading; cbn; split; intros; auto; try discriminate.
  destruct H as [?|?]; discriminate.
Qed.

(** ** [trim] and the tags of [AddKeyDialog] *)

Lemma trimStart_idempotent (s : jsstring) :
  trimStart (trimStart s) = trimStart s.
Proof.
  induction s as [|c s IH]; cbn [trimStart]; [reflexivity|].
  destruct (is_white_space c) eqn:E; [exact IH|].
  cbn [trimStart]. by rewrite E.
Qed.

Lemma trimStart_snoc (s : jsstring) (c : N) :
  trimStart (s ++ [c])
  = match trimStart s with
    | [] => trimStart [c]
    | t => t ++ [c]
    end.
Proof.
  induction s as [|d s IH]; cbn [app trimStart]; [reflexivity|].
  destruct (is_white_space d); [exact IH|reflexivity].
Qed.

Lemma trimEnd_snoc (s : jsstring) (c : N) :
  trimEnd (s ++ [c]) = if is_white_space c then trimEnd s else s ++ [c].
Proof.
  unfold trimEnd. rewrite rev_app_distr. cbn [rev app trimStart].
  destruct (is_white_space c); [reflexivity|].
  cbn [rev]. by rewrite rev_involutive.
Qed.

Lemma trimEnd_idempotent (s : jsstring) : trimEnd (trimEnd s) = trimEnd s.
Proof.
  unfold trimEnd. by rewrite rev_involutive, trimStart_idempotent.
Qed.

(** The two ends are trimmed independently. *)
Lemma trimStart_trimEnd (s : jsstring) :
  trimStart (trimEnd s) = trimEnd (trimStart s).
Proof.
  induction s as [|c s IH] using rev_ind; [reflexivity|].
  rewrite trimEnd_snoc, trimStart_snoc.
  destruct (is_white_space c) eqn:E.
  - rewrite IH. destruct (trimStart s) as [|d t] eqn:Es.
    + cbn [trimStart]. by rewrite E.
    + by rewrite trimEnd_snoc, E.
  - rewrite trimStart_snoc. destruct (trimStart s) as [|d t] eqn:Es.
    + cbn [trimStart]. rewrite E.
      change [c] with ([] ++ [c]). by rewrite trimEnd_snoc, E.
    + by rewrite trimEnd_snoc, E.
Qed.

Lemma trim_idempotent (s : jsstring) : trim (trim s) = trim s.
Proof.
  unfold trim.
  by rewrite trimStart_trimEnd, trimStart_idempotent, trimEnd_idempotent.
Qed.

Lemma Array_includes_spec (l : list jsstring) (x : jsstring) :
  Array_includes l x = true <-> x ∈ l.
Proof.
  unfold Array_includes. rewrite existsb_exists. split.
  - intros (y & Hy & E). apply jsstring_eqb_eq in E. subst y.
    by apply list_elem_of_In.
  - intros Hx. exists x. split; [by apply list_elem_of_In|].
    by apply jsstring_eqb_eq.
Qed.

Lemma filter_other_tags (l : list jsstring) (t : jsstring) :
  t ∉ l -> filter (fun tag => negb (jsstring_eqb tag t)) l = l.
Proof.
  intros Ht. apply filter_all. apply Forall_forall. intros x Hx.
  destruct (jsstring_eqb x t) eqn:E; [|exact I].
  apply jsstring_eqb_eq in E. subst x. contradiction.
Qed.

(** X5: the tags of the form stay pairwise different, trimmed and not
    empty, whatever is typed: [addTag] appends the trimmed input only if
    it is not empty and not yet a tag, and [removeTag] only removes. *)
Theorem tags_invariant (prev : AddKeyDialog.FormData)
    (newTag tagToRemove : jsstring) :
  well_kept (AddKeyDialog.tags prev) ->
  well_kept (AddKeyDialog.tags (AddKeyDialog.addTag prev prev newTag).1)
  /\ well_kept (AddKeyDialog.tags (AddKeyDialog.removeTag tagToRemove prev)).
Proof.
  unfold well_kept. intros [Hnd Hall]. split.
  - unfold AddKeyDialog.addTag.
    destruct (jsstring_eqb (trim newTag) []) eqn:E1; cbn [negb andb fst];
      [by split|].
    destruct (Array_includes _ _) eqn:E2; cbn [negb fst]; [by split|].
    cbn [AddKeyDialog.set_tags AddKeyDialog.tags]. split.
    + apply NoDup_app. split; [exact Hnd|]. split; [|apply NoDup_singleton].
      intros x Hx Hx'. apply list_elem_of_singleton in Hx'. subst x.
      apply Array_includes_spec in Hx. congruence.
    + apply Forall_app. split; [exact Hall|].
      constructor; [|constructor]. split; [|apply trim_idempotent].
      intros E. rewrite E in E1. discriminate.
  - cbn [AddKeyDialog.removeTag AddKeyDialog.set_tags AddKeyDialog.tags].
    split.
    + by apply NoDup_filter.
    + apply Forall_forall. intros x Hx. apply list_elem_of_filter in Hx.
      destruct Hx as [_ Hx]. revert x Hx. by apply Forall_forall.
Qed.

(** X6: removing the tag just added gives the form back, and adding it
    once more changes nothing. *)
Theorem addTag_removeTag (prev : AddKeyDialog.FormData) (newTag : jsstring) :
  trim newTag <> [] ->
  trim newTag ∉ AddKeyDialog.tags prev ->
  let next := (AddKeyDialog.addTag prev prev newTag).1 in
  AddKeyDialog.tags next = AddKeyDialog.tags prev ++ [trim newTag]
  /\ AddKeyDialog.removeTag (trim newTag) next = prev
  /\ AddKeyDialog.addTag next next newTag = (next, newTag).
Proof.
  intros Hne Hnew. cbv zeta.
  assert (E1 : jsstring_eqb (trim newTag) [] = false).
  { destruct (jsstring_eqb (trim newTag) []) eqn:E; [|reflexivity].
    by apply jsstring_eqb_eq in E. }
  assert (E2 : Array_includes (AddKeyDialog.tags prev) (trim newTag) = false).
  { destruct (Array_includes _ _) eqn:E; [|reflexivity].
    by apply Array_includes_spec in E. }
  assert (Enext : (AddKeyDialog.addTag prev prev newTag).1
                  = AddKeyDialog.set_tags
                      (AddKeyDialog.tags prev ++ [trim newTag]) prev).
  { unfold AddKeyDialog.addTag. by rewrite E1, E2. }
  rewrite Enext. split; [reflexivity|]. split.
  - unfold AddKeyDialog.removeTag.
    cbn [AddKeyDialog.set_tags AddKeyDialog.tags].
    rewrite filter_app, filter_other_tags by exact Hnew.
    rewrite filter_cons_False, filter_nil, app_nil_r.
    + by destruct prev.
    + intros Hx. apply Is_true_true in Hx.
      apply negb_true_iff in Hx.
      unfold jsstring_eqb in Hx. by rewrite bool_decide_eq_true_2 in Hx.
  - unfold AddKeyDialog.addTag.
    cbn [AddKeyDialog.set_tags AddKeyDialog.tags].
    assert (E3 : Array_includes (AddKeyDialog.tags prev ++ [trim newTag])
                   (trim newTag) = true).
    { apply Array_includes_spec. apply elem_of_app. right.
      by apply list_elem_of_singleton. }
    by rewrite E1, E3.
Qed.

(** ** The records of [SecureVault] *)

Lemma filter_other_ids (l : list ApiKey.t) (id : jsstring) :
  id ∉ map ApiKey.id l ->
  filter (fun key => negb (jsstring_eqb (ApiKey.id key) id)) l = l.
Proof.
  intros Hid. apply filter_all. apply Forall_forall. intros k Hk.
  destruct (jsstring_eqb (ApiKey.id k) id) eqn:E; [|exact I].
  apply jsstring_eqb_eq in E. subst id.
  destruct Hid. by apply list_elem_of_fmap_2.
Qed.

Lemma map_other_ids (l : list ApiKey.t) (id : jsstring) (u : ApiKey.t) :
  id ∉ map ApiKey.id l ->
  map (fun key => if jsstring_eqb (ApiKey.id key) id then u else key) l = l.
Proof.
  induction l as [|k l IH]; intros Hid; [reflexivity|].
  cbn [map] in *. apply not_elem_of_cons in Hid. destruct Hid as [Hk Hl].
  rewrite IH by exact Hl.
  destruct (jsstring_eqb (ApiKey.id k) id) eqn:E; [|reflexivity].
  apply jsstring_eqb_eq in E. congruence.
Qed.

Lemma jsstring_eqb_refl (s : jsstring) : jsstring_eqb s s = true.
Proof. by apply jsstring_eqb_eq. Qed.

(** X7: the identifiers of the records stay pairwise different under
    the three handlers, the identifier drawn for a new record being
    fresh; an update keeps the identifiers and their order. *)
Theorem ids_stay_unique (prev : SecureVault.State) (keyData : KeyData.t)
    (id createdAt updatedAt : jsstring) (editingKey deletingKey : option ApiKey.t) :
  NoDup (map ApiKey.id (SecureVault.keys prev)) ->
  id ∉ map ApiKey.id (SecureVault.keys prev) ->
  NoDup (map ApiKey.id
           (SecureVault.keys
              (SecureVault.handleAddKey keyData id createdAt updatedAt prev)))
  /\ map ApiKey.id
       (SecureVault.keys
          (SecureVault.handleUpdateKey editingKey keyData updatedAt prev))
     = map ApiKey.id (SecureVault.keys prev)
  /\ NoDup (map ApiKey.id
              (SecureVault.keys
                 (SecureVault.handleDeleteKey deletingKey prev))).
Proof.
  intros Hnd Hid. split; [|split].
  - cbn [SecureVault.handleAddKey SecureVault.set_keys SecureVault.keys].
    rewrite map_app. cbn [map SecureVault.with_stamps ApiKey.id].
    apply NoDup_app. split; [exact Hnd|]. split; [|apply NoDup_singleton].
    intros x Hx Hx'. apply list_elem_of_singleton in Hx'. by subst x.
  - destruct editingKey as [e|]; [|reflexivity].
    cbn [SecureVault.handleUpdateKey SecureVault.set_keys SecureVault.keys].
    rewrite map_map. apply map_ext. intros k.
    destruct (jsstring_eqb (ApiKey.id k) (ApiKey.id e)) eqn:E; [|reflexivity].
    apply jsstring_eqb_eq in E. by rewrite E.
  - destruct deletingKey as [d|]; [|exact Hnd].
    cbn [SecureVault.handleDeleteKey SecureVault.set_keys SecureVault.keys].
    eapply sublist_NoDup; [exact Hnd|].
    apply (fmap_sublist ApiKey.id), sublist_filter.
Qed.

(** X8: deleting a record removes every record of its identifier,
    however many there are, and nothing else: the records left are the
    records of another identifier, each as often as before and in their
    order, with the settings and the version.  Where identifiers are
    pairwise different and the record is in the vault, exactly one
    record goes. *)
Theorem handleDeleteKey_removes (deletingKey : ApiKey.t)
    (prev : SecureVault.State) :
  let next := SecureVault.handleDeleteKey (Some deletingKey) prev in
  let same_id (key : ApiKey.t) := ApiKey.id key = ApiKey.id deletingKey in
  (forall key, key ∈ SecureVault.keys next
               <-> key ∈ SecureVault.keys prev /\ ~ same_id key)
  /\ SecureVault.keys next `sublist_of` SecureVault.keys prev
  /\ (length (SecureVault.keys next)
      + length (filter same_id (SecureVault.keys prev))
      = length (SecureVault.keys prev))%nat
  /\ SecureVault.settings next = SecureVault.settings prev
  /\ SecureVault.version next = SecureVault.version prev
  /\ (NoDup (map ApiKey.id (SecureVault.keys prev)) ->
      deletingKey ∈ SecureVault.keys prev ->
      S (length (SecureVault.keys next)) = length (SecureVault.keys prev)).
Proof.
  cbv zeta.
  cbn [SecureVault.handleDeleteKey SecureVault.set_keys SecureVault.keys
       SecureVault.settings SecureVault.version].
  split; [|split; [apply sublist_filter|split; [|split; [|split]]]];
    try reflexivity.
  - intros key. rewrite list_elem_of_filter. split.
    + intros [Hk ?]. split; [assumption|].
      intros E. rewrite E, jsstring_eqb_refl in Hk. exact Hk.
    + intros [? Hk]. split; [|assumption].
      destruct (jsstring_eqb _ _) eqn:E; [|exact I].
      by apply jsstring_eqb_eq in E.
  - induction (SecureVault.keys prev) as [|k l IH]; [reflexivity|].
    destruct (jsstring_eqb (ApiKey.id k) (ApiKey.id deletingKey)) eqn:E.
    + rewrite filter_cons_False by (rewrite E; intros []).
      rewrite filter_cons_True by (by apply jsstring_eqb_eq).
      cbn [length]. lia.
    + rewrite filter_cons_True by (by rewrite E).
      rewrite filter_cons_False.
      * cbn [length]. lia.
      * intros Hk. apply jsstring_eqb_eq in Hk. congruence.
  - intros Hnd Hin.
    apply list_elem_of_split in Hin. destruct Hin as (l1 & l2 & El).
    rewrite El in *. rewrite map_app in Hnd. cbn [map] in Hnd.
    apply NoDup_app in Hnd. destruct Hnd as (_ & Hl1 & Hl2).
    apply NoDup_cons in Hl2. destruct Hl2 as [Hl2 _].
    rewrite filter_app, filter_cons_False, !filter_other_ids.
    + rewrite !length_app. cbn [length]. lia.
    + exact Hl2.
    + intros Hx. apply (Hl1 _ Hx). by left.
    + rewrite jsstring_eqb_refl. intros [].
Qed.

(** X9: where identifiers are pairwise different, an update replaces
    the record edited, in its place, by the data of the dialog under
    the identifier and creation time of the record and the new update
    time; every other record, the settings and the version stay. *)
Theorem handleUpdateKey_replaces (editingKey : ApiKey.t) (keyData : KeyData.t)
    (updatedAt : jsstring) (prev : SecureVault.State) :
  NoDup (map ApiKey.id (SecureVault.keys prev)) ->
  editingKey ∈ SecureVault.keys prev ->
  let next :=
    SecureVault.handleUpdateKey (Some editingKey) keyData updatedAt prev in
  let updatedKey :=
    SecureVault.with_stamps keyData (ApiKey.id editingKey)
      (ApiKey.createdAt editingKey) updatedAt in
  (exists l1 l2,
      SecureVault.keys prev = l1 ++ editingKey :: l2
      /\ SecureVault.keys next = l1 ++ updatedKey :: l2)
  /\ map ApiKey.createdAt (SecureVault.keys next)
     = map ApiKey.createdAt (SecureVault.keys prev)
  /\ SecureVault.settings next = SecureVault.settings prev
  /\ SecureVault.version next = SecureVault.version prev.
Proof.
  intros Hnd Hin. cbv zeta.
  cbn [SecureVault.handleUpdateKey SecureVault.set_keys SecureVault.keys
       SecureVault.settings SecureVault.version].
  apply list_elem_of_split in Hin. destruct Hin as (l1 & l2 & El).
  rewrite El in *. rewrite map_app in Hnd. cbn [map] in Hnd.
  apply NoDup_app in Hnd. destruct Hnd as (_ & Hl1 & Hl2).
  apply NoDup_cons in Hl2. destruct Hl2 as [Hl2 _].
  assert (Hl1' : ApiKey.id editingKey ∉ map ApiKey.id l1).
  { intros Hx. apply (Hl1 _ Hx). by left. }
  rewrite map_app. cbn [map].
  rewrite !map_other_ids by assumption. rewrite jsstring_eqb_refl.
  split; [by exists l1, l2|]. split; [|by split].
  rewrite !map_app. reflexivity.
Qed.

(** X10: a record added under a fresh identifier stands last, and
    deleting it gives the vault back. *)
Theorem handleAddKey_handleDeleteKey (keyData : KeyData.t)
    (id createdAt updatedAt : jsstring) (prev : SecureVault.State) :
  id ∉ map ApiKey.id (SecureVault.keys prev) ->
  let newKey := SecureVault.with_stamps keyData id createdAt updatedAt in
  let next := SecureVault.handleAddKey keyData id createdAt updatedAt prev in
  SecureVault.keys next = SecureVault.keys prev ++ [newKey]
  /\ SecureVault.handleDeleteKey (Some newKey) next = prev.
Proof.
  intros Hid. cbv zeta. split; [reflexivity|].
  cbn [SecureVault.handleAddKey SecureVault.handleDeleteKey
       SecureVault.set_keys SecureVault.keys SecureVault.settings
       SecureVault.version SecureVault.with_stamps ApiKey.id].
  rewrite filter_app, filter_other_ids by exact Hid.
  rewrite filter_cons_False, filter_nil, app_nil_r.
  - by destruct prev.
  - cbn [ApiKey.id]. rewrite jsstring_eqb_refl. intros [].
Qed.

(** ** The page as a machine *)

Section Page.

Context `{Platform}.

(** The form in the mode [create]: [handleAuth] reads nothing. *)
Lemma handleAuth_create (password : jsstring) (st : IndexState)
    (ls : Storage) :
  authMode st = create ->
  handleAuth password st ls
  = (setAuthLoading false
       (setFailedAttempts 0
          (setIsAuthenticated true
             (setMasterPassword password
                (setAuthLoading true (setAuthError [] st))))),
     ls,
     [{| title := lit "Vault Created";
         description :=
           lit "Your secure vault has been created successfully" |}]).
Proof.
  intros Hm. unfold handleAuth, handleAuth_try. rewrite Hm. reflexivity.
Qed.

Lemma handleSubmit_Some (mode : Mode) (password confirmPassword p : jsstring) :
  AuthScreen.handleSubmit mode password confirmPassword = Some p ->
  p = password /\ (8 <= length password)%nat
  /\ (mode = create ->
      validatePasswordStrength password = true
      /\ password = confirmPassword).
Proof.
  unfold AuthScreen.handleSubmit. destruct mode; cbn [Mode_eqb andb].
  - destruct (jsstring_eqb password confirmPassword) eqn:Ec; cbn [negb];
      [|discriminate].
    rewrite AuthScreen_isValid.
    destruct (validatePasswordStrength password) eqn:Ev; cbn [negb];
      [|discriminate].
    intros [= <-]. split; [reflexivity|].
    apply jsstring_eqb_eq in Ec. split; [|by split].
    unfold validatePasswordStrength in Ev.
    rewrite !andb_true_iff in Ev. destruct Ev as [_ Ev].
    apply N.leb_le in Ev. lia.
  - destruct (N.ltb_spec (N.of_nat (length password)) 8); [discriminate|].
    intros [= <-]. split; [reflexivity|]. split; [lia|discriminate].
Qed.

Lemma auth_state_Unlocked (st : IndexState) :
  auth_state st = Unlocked
  <-> isAuthenticated st = true /\ masterPassword st <> [].
Proof.
  unfold auth_state. destruct (isAuthenticated st); cbn [andb].
  - destruct (jsstring_eqb (masterPassword st) []) eqn:E; cbn [negb].
    + apply jsstring_eqb_eq in E.
      split; [by destruct (authMode st)|]. by intros [_ ?].
    + split; [|reflexivity]. intros _. split; [reflexivity|].
      intros E'. apply jsstring_eqb_eq in E'. congruence.
  - split; [by destruct (authMode st)|]. by intros [? _].
Qed.

(** The empty vault is always saved. *)
Lemma saveVaultData_empty_vault (salt0 iv0 : list byte) (pw : jsstring)
    (ls : Storage) :
  exists e,
    encryptData salt0 iv0 (JSON_stringify (value_of_VaultData empty_vault)) pw
    = inr e
    /\ saveVaultData salt0 iv0 (value_of_VaultData empty_vault) pw ls
       = (inr tt,
          setItem STORAGE_KEY (JSON_stringify (value_of_EncryptedData e)) ls).
Proof.
  unfold saveVaultData.
  destruct (encryptData_fields salt0 iv0
              (JSON_stringify (value_of_VaultData empty_vault)) pw
              (empty_vault_fits salt0 iv0 pw))
    as (e & He & _).
  exists e. by rewrite He.
Qed.

Lemma invariant_form (ls0 : Storage) (st : IndexState) (ls : Storage) :
  Index_invariant ls0 (st, ls) ->
  auth_state st <> Unlocked ->
  isAuthenticated st = false /\ masterPassword st = [].
Proof.
  intros (_ & _ & Hpw & Hauth & _) Hne.
  destruct (isAuthenticated st) eqn:Ei; [|by auto].
  destruct Hne. apply auth_state_Unlocked.
  destruct (Hauth eq_refl) as (_ & Hlen & _). split; [exact Ei|].
  intros E. rewrite E in Hlen. cbn in Hlen. lia.
Qed.

Lemma auth_state_NoVault (st : IndexState) :
  auth_state st = NoVault -> authMode st = create.
Proof.
  unfold auth_state. destruct (_ && _); [discriminate|].
  by destruct (authMode st).
Qed.

Ltac invariant_cases :=
  repeat split; intros; try lia; try discriminate; try congruence; auto.

Lemma Index_step_invariant (ls0 : Storage) (x : IndexState * Storage)
    (e : IndexEvent) :
  Index_invariant ls0 x -> Index_invariant ls0 (Index_step x e).
Proof.
  destruct x as [st ls]. intros Inv.
  pose proof Inv as (Hfa & Hload & Hpw & Hauth & Hcreate).
  unfold Index_step.
  destruct e as [password confirmPassword| |salt0 iv0 vaultData];
    destruct (auth_state st) eqn:Ea; try exact Inv.
  - (* the form in the mode create *)
    pose proof (auth_state_NoVault st Ea) as Hm.
    unfold submit.
    destruct (AuthScreen.handleSubmit _ _ _) as [p|] eqn:Es; [|exact Inv].
    apply handleSubmit_Some in Es. destruct Es as (-> & Hlen & _).
    rewrite handleAuth_create by exact Hm. cbn.
    destruct (Hcreate Hm) as (_ & Hv & _).
    invariant_cases.
  - (* the form in the mode unlock *)
    destruct (auth_state_Locked st _ Ea) as (Hm & Hf & Hv).
    destruct (invariant_form ls0 st ls Inv) as [Hna Hnp]; [congruence|].
    unfold submit.
    destruct (AuthScreen.handleSubmit _ _ _) as [p|] eqn:Es; [|exact Inv].
    apply handleSubmit_Some in Es. destruct Es as (-> & Hlen & _).
    destruct (Z.le_gt_cases 2 (failedAttempts st)) as [Hn|Hn].
    + rewrite handleAuth_reset by assumption.
      destruct (validatePasswordStrength password); cbn.
      * invariant_cases.
      * rewrite Hna, Hm. invariant_cases.
    + rewrite handleAuth_attempt by (assumption || lia).
      destruct (loadVaultData password ls).1; cbn.
      * rewrite Hna, Hm. invariant_cases.
      * invariant_cases.
  - (* the vault is locked *)
    cbn. invariant_cases.
  - (* the vault is saved *)
    apply auth_state_Unlocked in Ea. destruct Ea as [Ei _].
    destruct (saveVaultData salt0 iv0 vaultData (masterPassword st) ls)
      as [r ls2].
    cbn [snd]. split; [exact Hfa|]. split; [exact Hload|].
    split; [exact Hpw|]. split; [exact Hauth|].
    intros Hm. destruct (Hcreate Hm) as (? & ? & _).
    split; [assumption|]. split; [assumption|]. congruence.
Qed.

Lemma Index_mounted_invariant (ls : Storage) :
  Index_invariant ls (Index_mounted ls, ls).
Proof.
  cbn. invariant_cases. by destruct (vaultExists ls).
Qed.

Lemma Index_run_invariant (ls : Storage) (events : list IndexEvent) :
  Index_invariant ls (Index_run ls events).
Proof.
  unfold Index_run.
  generalize (Index_mounted_invariant ls).
  generalize (Index_mounted ls, ls) as x. revert ls.
  induction events as [|e events IH]; intros ls x Hx; [exact Hx|].
  cbn [fold_left]. apply IH. by apply Index_step_invariant.
Qed.

(** X11: whatever is submitted, locked and saved after the page is
    mounted, the count of failed attempts is 0, 1 or 2, and it is 0
    unless the page shows the unlock form. *)
Theorem failedAttempts_bounded (ls : Storage) (events : list IndexEvent) :
  let st := (Index_run ls events).1 in
  match auth_state st with
  | Locked n => (0 <= n <= 2)%Z
  | NoVault | Unlocked => failedAttempts st = 0%Z
  end.
Proof.
  cbv zeta. pose proof (Index_run_invariant ls events) as Inv.
  destruct (Index_run ls events) as [st ls']. cbn [fst].
  destruct Inv as (Hfa & _ & _ & Hauth & Hcreate).
  destruct (auth_state st) eqn:Ea.
  - apply auth_state_NoVault in Ea. by apply Hcreate.
  - apply auth_state_Locked in Ea. destruct Ea as (_ & <- & _). exact Hfa.
  - apply auth_state_Unlocked in Ea. destruct Ea as [Ei _]. by apply Hauth.
Qed.

(** X12: the page holds the master password only while the vault is
    shown.  While a form is shown the password in the state is empty;
    while the vault is shown it is the password of the submit that
    unlocked, of eight characters at least, and no error is left. *)
Theorem masterPassword_only_while_unlocked (ls : Storage)
    (events : list IndexEvent) :
  let st := (Index_run ls events).1 in
  authLoading st = false
  /\ match auth_state st with
     | Unlocked =>
         isAuthenticated st = true
         /\ (8 <= length (masterPassword st))%nat
         /\ authError st = []
     | NoVault | Locked _ =>
         isAuthenticated st = false /\ masterPassword st = []
     end.
Proof.
  cbv zeta. pose proof (Index_run_invariant ls events) as Inv.
  destruct (Index_run ls events) as [st ls']. cbn [fst].
  pose proof (invariant_form ls st ls' Inv) as Hform.
  destruct Inv as (_ & Hload & Hpw & Hauth & _).
  split; [exact Hload|].
  destruct (auth_state st) eqn:Ea; try (by apply Hform).
  apply auth_state_Unlocked in Ea. destruct Ea as [Ei _].
  split; [exact Ei|]. by apply Hauth.
Qed.

(** X13: the form that creates a vault is shown only while no envelope
    is persisted: the storage is then still the one the page was
    mounted on, and it holds no vault. *)
Theorem create_form_means_no_vault (ls : Storage) (events : list IndexEvent) :
  auth_state (Index_run ls events).1 = NoVault ->
  (Index_run ls events).2 = ls /\ vaultExists ls = false.
Proof.
  pose proof (Index_run_invariant ls events) as Inv.
  destruct (Index_run ls events) as [st ls']. cbn [fst snd].
  intros Ea. pose proof (invariant_form ls st ls' Inv) as Hform.
  destruct Inv as (_ & _ & _ & _ & Hcreate).
  destruct (Hcreate (auth_state_NoVault st Ea)) as (_ & Hv & Hls).
  split; [|exact Hv]. apply Hls, Hform. congruence.
Qed.

(** X14: [handleAuth] writes nothing to the storage.  It leaves the
    storage as it is, except on the reset path (the unlock form, two
    failures or more, a password that passes the check), where it
    removes the vault; no item is added or changed, so the password
    typed is never persisted by the page. *)
Theorem handleAuth_never_writes (password : jsstring) (st : IndexState)
    (ls : Storage) :
  let ls' := (handleAuth password st ls).1.2 in
  ls' = (if Mode_eqb (authMode st) unlock && (2 <=? failedAttempts st)%Z
            && validatePasswordStrength password
         then clearVault ls else ls)
  /\ forall k v, getItem k ls' = Some v -> getItem k ls = Some v.
Proof.
  cbv zeta.
  assert (E : (handleAuth password st ls).1.2
              = if Mode_eqb (authMode st) unlock
                   && (2 <=? failedAttempts st)%Z
                   && validatePasswordStrength password
                then clearVault ls else ls).
  { destruct (authMode st) eqn:Em; cbn [Mode_eqb andb].
    - by rewrite handleAuth_create.
    - destruct (Z.leb_spec 2 (failedAttempts st)); cbn [andb].
      + rewrite handleAuth_reset by assumption.
        by destruct (validatePasswordStrength password).
      + rewrite handleAuth_attempt by assumption.
        by destruct (loadVaultData password ls).1. }
  split; [exact E|]. rewrite E. intros k v.
  destruct (_ && _); [|done].
  unfold clearVault, removeItem, getItem. intros Hk.
  apply lookup_delete_Some in Hk. destruct Hk as [_ Hk].
  apply lookup_delete_Some in Hk. tauto.
Qed.

Lemma vaultExists_saveVaultData (salt0 iv0 : list byte) (pw : jsstring)
    (ls : Storage) :
  vaultExists
    (saveVaultData salt0 iv0 (value_of_VaultData empty_vault) pw ls).2
  = true.
Proof.
  destruct (saveVaultData_empty_vault salt0 iv0 pw ls) as (e & _ & ->).
  unfold vaultExists, getItem, setItem. cbn [snd].
  by rewrite lookup_insert_eq.
Qed.

(** X15: a first vault.  On the form that creates a vault, a password
    that meets the policy, typed twice, unlocks at once: nothing is
    read or written, the page holds the password and shows the vault.
    A confirmation that differs changes nothing.  [SecureVault], mounted
    on a storage without an envelope, then starts from the empty vault
    and persists it. *)
Theorem create_vault (password confirmPassword : jsstring) (st : IndexState)
    (ls : Storage) (salt0 iv0 : list byte) :
  auth_state st = NoVault ->
  meets_policy password ->
  (exists st',
      submit password password st ls
      = (st', ls,
         [{| title := lit "Vault Created";
             description :=
               lit "Your secure vault has been created successfully" |}])
      /\ auth_state st' = Unlocked
      /\ masterPassword st' = password
      /\ failedAttempts st' = 0%Z)
  /\ (confirmPassword <> password ->
      submit password confirmPassword st ls = (st, ls, []))
  /\ (getItem STORAGE_KEY ls = None ->
      (mount salt0 iv0 password ls).1 = value_of_VaultData empty_vault
      /\ vaultExists (mount salt0 iv0 password ls).2 = true).
Proof.
  intros Ea Hp. pose proof (auth_state_NoVault st Ea) as Hm.
  pose proof Hp as Hv. apply validatePasswordStrength_spec in Hv.
  assert (Hlen : (8 <= length password)%nat).
  { unfold validatePasswordStrength in Hv.
    rewrite !andb_true_iff in Hv. destruct Hv as [_ Hv].
    apply N.leb_le in Hv. lia. }
  split; [|split].
  - unfold submit, AuthScreen.handleSubmit. rewrite Hm.
    cbn [Mode_eqb andb]. rewrite jsstring_eqb_refl. cbn [negb].
    rewrite AuthScreen_isValid, Hv. cbn [negb].
    rewrite handleAuth_create by exact Hm.
    eexists. split; [reflexivity|]. cbn.
    split; [|by split].
    apply auth_state_Unlocked. cbn. split; [reflexivity|].
    intros E. rewrite E in Hlen. cbn in Hlen. lia.
  - intros Hc. unfold submit, AuthScreen.handleSubmit. rewrite Hm.
    cbn [Mode_eqb andb].
    destruct (jsstring_eqb password confirmPassword) eqn:E; [|reflexivity].
    apply jsstring_eqb_eq in E. congruence.
  - intros Hnone. unfold mount.
    rewrite loadVaultData_absent by exact Hnone.
    change (declared_shape (value_of_VaultData empty_vault)) with true.
    pose proof (vaultExists_saveVaultData salt0 iv0 password ls) as Hs.
    cbv beta iota.
    destruct (saveVaultData _ _ _ _ _) as [r ls']. by split.
Qed.

End Page.

(** ** The envelope *)

Lemma btoa_fromCharCode (bytes : list byte) :
  btoa (fromCharCode bytes) = inr (b64_encode (fromCharCode bytes)).
Proof.
  unfold btoa.
  replace (forallb (fun c => c <=? 255) (fromCharCode bytes)) with true;
    [reflexivity|].
  symmetry. apply forallb_forall. intros c Hc.
  pose proof (Forall_byte_value bytes) as Hb.
  rewrite Forall_forall in Hb. apply list_elem_of_In, Hb in Hc.
  unfold byte_value in Hc. apply N.leb_le. lia.
Qed.

Lemma b64_groups_count (l : list N) :
  (length (b64_groups l) + padding (length l) = 4 * ((length l + 2) / 3))%nat.
Proof.
  unfold padding.
  induction l as [|a|a b|a b c r IH] using list_ind3; try reflexivity.
  cbn [b64_groups length app] in *.
  replace (S (S (S (length r))) mod 3)%nat with (length r mod 3)%nat
    by divmod_lia.
  replace ((S (S (S (length r))) + 2) / 3)%nat
    with (S ((length r + 2) / 3)) by divmod_lia.
  lia.
Qed.

(** The text of a buffer in base64: four characters for every three
    bytes begun, each of the alphabet or the padding. *)
Lemma b64_encode_shape (bytes : list byte) :
  length (b64_encode (fromCharCode bytes))
  = (4 * ((length bytes + 2) / 3))%nat
  /\ Forall (fun c => is_Some (b64_index c) \/ c = pad)
       (b64_encode (fromCharCode bytes)).
Proof.
  unfold b64_encode. split.
  - rewrite length_app, length_map, repeat_length, b64_groups_count.
    unfold fromCharCode. by rewrite length_map.
  - apply Forall_app. split.
    + pose proof (b64_groups_bound _ (Forall_byte_value bytes)) as Hb.
      induction Hb as [|g gs Hg _ IH]; [constructor|].
      cbn [map]. constructor; [|exact IH].
      left. rewrite b64_index_char by exact Hg. by eexists.
    + apply Forall_forall. intros c Hc.
      apply list_elem_of_In, repeat_spec in Hc. by right.
Qed.

Section Envelope.

Context `{Platform}.

Lemma encryptData_total (salt0 iv0 : list byte) (P W : jsstring) :
  N.of_nat (length (ciphertext salt0 iv0 P W)) <= max_arguments ->
  encryptData salt0 iv0 P W
  = inr {| data := b64_encode (fromCharCode (ciphertext salt0 iv0 P W));
           salt := b64_encode (fromCharCode salt0);
           iv := b64_encode (fromCharCode iv0) |}.
Proof.
  intros Hb. unfold encryptData. unfold ciphertext in Hb.
  rewrite (String_fromCharCode_fits _ Hb). cbn [mbind result_bind].
  by rewrite !btoa_fromCharCode.
Qed.

(** X16: [encryptData] has two outcomes, by the length of the
    ciphertext alone.  A ciphertext of no more bytes than a call takes
    arguments gives an envelope whose three fields are canonical
    base64: characters of the alphabet and padding only, four for every
    three bytes begun of the ciphertext, of the salt and of the [iv].
    A longer ciphertext makes the spread of its bytes throw a
    [RangeError], and there is no envelope. *)
Theorem encryptData_envelope (salt0 iv0 : list byte) (P W : jsstring) :
  if N.of_nat (length (ciphertext salt0 iv0 P W)) <=? max_arguments
  then exists e,
         encryptData salt0 iv0 P W = inr e
         /\ length (data e)
            = (4 * ((length (ciphertext salt0 iv0 P W) + 2) / 3))%nat
         /\ length (salt e) = (4 * ((length salt0 + 2) / 3))%nat
         /\ length (iv e) = (4 * ((length iv0 + 2) / 3))%nat
         /\ Forall (fun c => is_Some (b64_index c) \/ c = pad)
              (data e ++ salt e ++ iv e)
  else encryptData salt0 iv0 P W = inl RangeError.
Proof.
  destruct (N.leb_spec (N.of_nat (length (ciphertext salt0 iv0 P W)))
              max_arguments) as [Hb|Hb].
  - rewrite (encryptData_total _ _ _ _ Hb). eexists. split; [reflexivity|].
    cbn [data salt iv].
    destruct (b64_encode_shape (ciphertext salt0 iv0 P W)) as [Hd Hd'].
    destruct (b64_encode_shape salt0) as [Hs Hs'].
    destruct (b64_encode_shape iv0) as [Hi Hi'].
    repeat split; try assumption.
    rewrite !Forall_app. auto.
  - by apply encryptData_too_large.
Qed.

Lemma atob_filter (s s' : jsstring) :
  without_whitespace s' = without_whitespace s -> atob s' = atob s.
Proof. unfold without_whitespace. intros E. unfold atob. by rewrite E. Qed.

(** X17: [decryptData] reads the fields of an envelope with
    whitespace left out.  Two envelopes whose fields differ only by
    spaces, tabs, line feeds, form feeds and carriage returns decrypt
    alike, whether to a text or to an error. *)
Theorem decryptData_ignores_whitespace (e e' : EncryptedData) (W : jsstring) :
  without_whitespace (data e') = without_whitespace (data e) ->
  without_whitespace (salt e') = without_whitespace (salt e) ->
  without_whitespace (iv e') = without_whitespace (iv e) ->
  decryptData (value_of_EncryptedData e') W
  = decryptData (value_of_EncryptedData e) W.
Proof.
  intros Hd Hs Hi. unfold decryptData.
  destruct (get_EncryptedData e) as (Gs & Gi & Gd).
  destruct (get_EncryptedData e') as (Gs' & Gi' & Gd').
  rewrite Gs, Gi, Gd, Gs', Gi', Gd'.
  cbn [mbind result_bind ToString mret result_ret].
  by rewrite (atob_filter _ _ Hd), (atob_filter _ _ Hs), (atob_filter _ _ Hi).
Qed.

(** ** Passwords and keys *)

Lemma TextEncoder_encode_inj (W1 W2 : jsstring) :
  well_formed W1 = true -> well_formed W2 = true ->
  TextEncoder_encode W1 = TextEncoder_encode W2 -> W1 = W2.
Proof.
  intros H1 H2 E.
  destruct (code_points_well_formed W1 H1) as [S1 U1].
  destruct (code_points_well_formed W2 H2) as [S2 U2].
  unfold TextEncoder_encode in E.
  apply (f_equal (map Byte.to_N)) in E.
  rewrite !map_to_N_byte_of_N in E by (by apply Forall_concat_bytes).
  apply (f_equal (utf8_decode utf8_init)) in E.
  rewrite !utf8_decode_encode in E by assumption.
  rewrite <- U1, <- U2. by rewrite E.
Qed.

(** X18: two well-formed passwords that differ have different key
    material: [deriveKey] starts from the UTF-8 bytes of the password,
    and on well-formed strings the encoding loses nothing. *)
Theorem distinct_passwords_distinct_keys (W1 W2 : jsstring) :
  well_formed W1 = true -> well_formed W2 = true -> W1 <> W2 ->
  TextEncoder_encode W1 <> TextEncoder_encode W2.
Proof. intros H1 H2 Hne E. by apply Hne, TextEncoder_encode_inj. Qed.

End Envelope.

(** ** Saving, loading and the backup *)

Lemma lookup_prop_rev (p : jsstring) (o : object) :
  NoDup (map fst o) -> lookup_prop p (rev o) = lookup_prop p o.
Proof.
  induction o as [|[q v] o IH]; [reflexivity|].
  cbn [map fst rev lookup_prop]. intros Hnd.
  apply NoDup_cons in Hnd. destruct Hnd as [Hq Hnd].
  rewrite lookup_prop_app, IH by exact Hnd. cbn [lookup_prop].
  destruct (jsstring_eqb p q) eqn:E.
  - apply jsstring_eqb_eq in E. subst q.
    destruct (lookup_prop p o) as [w|] eqn:El; [|reflexivity].
    destruct Hq. clear -El.
    induction o as [|[r x] o IH]; [discriminate|].
    cbn [lookup_prop map fst] in *.
    destruct (jsstring_eqb p r) eqn:E.
    + apply jsstring_eqb_eq in E. subst r. by left.
    + right. by apply IH.
  - by destruct (lookup_prop p o).
Qed.

Lemma getItem_setItem (k v : jsstring) (ls : Storage) :
  getItem k (setItem k v ls) = Some v.
Proof. unfold getItem, setItem. apply lookup_insert_eq. Qed.

Section Persistence.

Context `{Platform}.

(** [loadVaultData] on a storage that holds a text that parses. *)
Lemma loadVaultData_stored (pw : jsstring) (ls : Storage) (text : jsstring)
    (enc : value) :
  getItem STORAGE_KEY ls = Some text -> text <> [] ->
  JSON_parse text = inr enc ->
  loadVaultData pw ls
  = (try_catch
       (decryptedJson ← decryptData enc pw;
        data ← JSON_parse decryptedJson;
        dataSettings ← get data (lit "settings");
        set data (lit "settings")
          (VObject (spread DEFAULT_SETTINGS dataSettings)))
       (fun error => throw load_failure),
     ls).
Proof.
  intros Hg Hne Hp. unfold loadVaultData. rewrite Hg.
  destruct text as [|c text]; [done|]. by rewrite Hp.
Qed.

(** X19: what is saved is what is loaded, as far as it can be saved.
    On a platform whose cipher is correct and whose JSON codec reads
    back the two texts written: when the ciphertext of the vault has no
    more bytes than a call takes arguments, [saveVaultData] writes one
    item, the vault, and changes no other; [vaultExists] holds
    afterwards, and [loadVaultData] under the same password returns the
    data saved, the settings completed with the defaults.  When the
    ciphertext is longer, [saveVaultData] throws 'Failed to save vault
    data: RangeError' and the storage is as it was. *)
Theorem saveVaultData_loadVaultData (salt0 iv0 : list byte) (d : VaultData)
    (pw : jsstring) (ls : Storage) :
  aead_correct ->
  (forall e,
      encryptData salt0 iv0 (JSON_stringify (value_of_VaultData d)) pw
      = inr e ->
      JSON_stringify (value_of_EncryptedData e) <> []
      /\ JSON_parse (JSON_stringify (value_of_EncryptedData e))
         = inr (value_of_EncryptedData e)) ->
  JSON_parse (JSON_stringify (value_of_VaultData d))
  = inr (value_of_VaultData d) ->
  utf8_exact (JSON_stringify (value_of_VaultData d)) = true ->
  let saved := saveVaultData salt0 iv0 (value_of_VaultData d) pw ls in
  let size :=
    N.of_nat
      (length
         (ciphertext salt0 iv0 (JSON_stringify (value_of_VaultData d)) pw)) in
  (size <= max_arguments ->
   saved.1 = inr tt
   /\ vaultExists saved.2 = true
   /\ (forall k, k <> STORAGE_KEY -> getItem k saved.2 = getItem k ls)
   /\ loadVaultData pw saved.2
      = (inr (value_of_VaultData
                {| keys := keys d;
                   settings := spread DEFAULT_SETTINGS (VObject (settings d));
                   version := version d |}),
         saved.2))
  /\ (max_arguments < size ->
      saved
      = (inl (ErrorFrom (lit "Failed to save vault data: ") RangeError), ls)).
Proof.
  intros Haead Henv Hjson Hexact. cbv zeta. split.
  - intros Hb.
    destruct (encrypt_then_decrypt salt0 iv0
                (JSON_stringify (value_of_VaultData d)) pw Haead Hexact Hb)
      as (e & He & _ & _ & Hdec).
    destruct (Henv e He) as [Hne Hparse].
    unfold saveVaultData. rewrite He. cbn [fst snd].
    split; [reflexivity|]. split; [|split].
    + unfold vaultExists, getItem, setItem. by rewrite lookup_insert_eq.
    + intros k Hk. unfold getItem, setItem. by rewrite lookup_insert_ne.
    + rewrite (loadVaultData_stored pw _ _ _
                 (getItem_setItem _ _ _) Hne Hparse).
      rewrite Hdec. cbn [mbind result_bind]. rewrite Hjson. reflexivity.
  - intros Hb. unfold saveVaultData.
    by rewrite (encryptData_too_large _ _ _ _ Hb).
Qed.

Lemma loadVaultData_NUL (W : jsstring) (ls : Storage) :
  hmac_zero_padding ->
  (length (TextEncoder_encode W) < 64)%nat ->
  loadVaultData (W ++ [0]) ls = loadVaultData W ls.
Proof.
  intros Hpad Hlen. unfold loadVaultData.
  destruct (getItem STORAGE_KEY ls) as [[|c text]|]; try reflexivity.
  destruct (JSON_parse (c :: text)) as [|enc]; [reflexivity|].
  cbn [mbind result_bind].
  by rewrite (decryptData_NUL enc W Hpad Hlen).
Qed.

(** X20: a password is not the only one that opens its vault.  PBKDF2
    takes the password as the key of HMAC, which fills a key shorter
    than its block of 64 bytes with zero bytes; so the password followed
    by U+0000, a different password, loads from every storage what the
    password loads, error or vault, and on a vault saved under the
    password it unlocks the page and becomes the master password. *)
Theorem loadVaultData_padded_password (salt0 iv0 : list byte) (d : VaultData)
    (W : jsstring) (ls : Storage) (st : IndexState) (n : Z) :
  hmac_zero_padding ->
  (length (TextEncoder_encode W) < 64)%nat ->
  W ++ [0] <> W
  /\ (forall ls0, loadVaultData (W ++ [0]) ls0 = loadVaultData W ls0)
  /\ (aead_correct ->
      (forall e,
          encryptData salt0 iv0 (JSON_stringify (value_of_VaultData d)) W
          = inr e ->
          JSON_stringify (value_of_EncryptedData e) <> []
          /\ JSON_parse (JSON_stringify (value_of_EncryptedData e))
             = inr (value_of_EncryptedData e)) ->
      JSON_parse (JSON_stringify (value_of_VaultData d))
      = inr (value_of_VaultData d) ->
      utf8_exact (JSON_stringify (value_of_VaultData d)) = true ->
      N.of_nat
        (length
           (ciphertext salt0 iv0 (JSON_stringify (value_of_VaultData d)) W))
      <= max_arguments ->
      auth_state st = Locked n -> (n < 2)%Z ->
      let ls' :=
        (saveVaultData salt0 iv0 (value_of_VaultData d) W ls).2 in
      loadVaultData (W ++ [0]) ls'
      = (inr (value_of_VaultData
                {| keys := keys d;
                   settings := spread DEFAULT_SETTINGS (VObject (settings d));
                   version := version d |}),
         ls')
      /\ auth_state (handleAuth (W ++ [0]) st ls').1.1 = Unlocked
      /\ masterPassword (handleAuth (W ++ [0]) st ls').1.1 = W ++ [0]
      /\ (handleAuth (W ++ [0]) st ls').1.2 = ls').
Proof.
  intros Hpad Hlen. split; [|split].
  - intros E. apply (f_equal (@length N)) in E.
    rewrite length_app in E. cbn [length] in E. lia.
  - intros ls0. by apply loadVaultData_NUL.
  - intros Haead Henv Hjson Hexact Hb Hst Hn. cbv zeta.
    destruct (encrypt_then_decrypt salt0 iv0
                (JSON_stringify (value_of_VaultData d)) W Haead Hexact Hb)
      as (e & He & _ & _ & Hdec).
    destruct (Henv e He) as [Hne Hparse].
    unfold saveVaultData. rewrite He. cbn [snd].
    assert (Hload :
              loadVaultData (W ++ [0])
                (setItem STORAGE_KEY
                   (JSON_stringify (value_of_EncryptedData e)) ls)
              = (inr (value_of_VaultData
                        {| keys := keys d;
                           settings :=
                             spread DEFAULT_SETTINGS (VObject (settings d));
                           version := version d |}),
                 setItem STORAGE_KEY
                   (JSON_stringify (value_of_EncryptedData e)) ls)).
    { rewrite (loadVaultData_NUL W _ Hpad Hlen).
      rewrite (loadVaultData_stored W _ _ _
                 (getItem_setItem _ _ _) Hne Hparse).
      rewrite Hdec. cbn [mbind result_bind]. rewrite Hjson. reflexivity. }
    split; [exact Hload|].
    destruct (auth_state_Locked st n Hst) as (Hm & Hf & Hv).
    rewrite handleAuth_attempt by (assumption || lia).
    rewrite Hload. cbn [fst snd]. split; [|split; reflexivity].
    apply auth_state_Unlocked. cbn. split; [reflexivity|].
    by destruct W.
Qed.

(** X21: a stored vault is completed with the default settings.  When
    the text decrypted is the JSON of an object, [loadVaultData]
    returns that object with its settings replaced: each setting stored
    keeps its value, each default that is missing is added, and when no
    settings are stored, or [null], the settings are the defaults.
    Every other property is returned as stored. *)
Theorem loadVaultData_settings (pw : jsstring) (ls : Storage)
    (text json : jsstring) (enc : value) (o : object) :
  getItem STORAGE_KEY ls = Some text -> text <> [] ->
  JSON_parse text = inr enc ->
  decryptData enc pw = inr json ->
  JSON_parse json = inr (VObject o) ->
  let s := spread DEFAULT_SETTINGS
             (default VUndefined (lookup_prop (lit "settings") o)) in
  loadVaultData pw ls
  = (inr (VObject (set_prop (lit "settings") (VObject s) o)), ls)
  /\ (forall p, p <> lit "settings" ->
        lookup_prop p (set_prop (lit "settings") (VObject s) o)
        = lookup_prop p o)
  /\ (forall stored,
        lookup_prop (lit "settings") o = Some (VObject stored) ->
        NoDup (map fst stored) ->
        forall p,
          lookup_prop p s
          = match lookup_prop p stored with
            | Some v => Some v
            | None => lookup_prop p DEFAULT_SETTINGS
            end)
  /\ (lookup_prop (lit "settings") o = None
      \/ lookup_prop (lit "settings") o = Some VNull ->
      s = DEFAULT_SETTINGS).
Proof.
  intros Hg Hne Hp Hd Hj. cbv zeta. split; [|split; [|split]].
  - rewrite (loadVaultData_stored pw ls text enc Hg Hne Hp).
    rewrite Hd. cbn [mbind result_bind]. rewrite Hj. reflexivity.
  - intros p Hps. rewrite lookup_set_prop.
    destruct (jsstring_eqb p (lit "settings")) eqn:E; [|reflexivity].
    by apply jsstring_eqb_eq in E.
  - intros stored Hs Hnd p. rewrite Hs. cbn [default].
    rewrite lookup_spread. cbn [own_props]. by rewrite lookup_prop_rev.
  - intros [-> | ->]; reflexivity.
Qed.

(** X22: an empty item is a vault that every password opens.
    [vaultExists] takes the empty string for a vault, [loadVaultData]
    takes it for none and returns the empty vault whatever the
    password, so the unlock form lets every password of eight
    characters in. *)
Theorem empty_item_opens (pw : jsstring) (ls : Storage) (st : IndexState)
    (n : Z) :
  getItem STORAGE_KEY ls = Some [] ->
  auth_state st = Locked n -> (n < 2)%Z -> (8 <= length pw)%nat ->
  vaultExists ls = true
  /\ loadVaultData pw ls = (inr (value_of_VaultData empty_vault), ls)
  /\ auth_state (submit pw pw st ls).1.1 = Unlocked.
Proof.
  intros Hg Hst Hn Hlen.
  assert (Hload : loadVaultData pw ls
                  = (inr (value_of_VaultData empty_vault), ls)).
  { unfold loadVaultData. by rewrite Hg. }
  split; [|split; [exact Hload|]].
  - unfold vaultExists. by rewrite Hg.
  - destruct (auth_state_Locked st n Hst) as (Hm & Hf & Hv).
    unfold submit, AuthScreen.handleSubmit. rewrite Hm.
    cbn [Mode_eqb andb].
    destruct (N.ltb_spec (N.of_nat (length pw)) 8); [lia|].
    rewrite handleAuth_attempt by (assumption || lia).
    rewrite Hload. cbn [fst]. apply auth_state_Unlocked. cbn.
    split; [reflexivity|]. intros E. rewrite E in Hlen. cbn in Hlen. lia.
Qed.

(** X23: [exportVault] leaves the storage as it is.  When
    [loadVaultData] fails it fails with the error of [loadVaultData];
    when the vault is loaded and the ciphertext of the backup has no
    more bytes than a call takes arguments, it returns the text of the
    envelope [encryptData] made; when the ciphertext is longer it
    throws the [RangeError] of [encryptData], as it is. *)
Theorem exportVault_outcome (salt0 iv0 : list byte) (exportedAt pw : jsstring)
    (ls : Storage) :
  (exportVault salt0 iv0 exportedAt pw ls).2 = ls
  /\ match (loadVaultData pw ls).1 with
     | inl _ => (exportVault salt0 iv0 exportedAt pw ls).1 = inl load_failure
     | inr data =>
         if N.of_nat
              (length
                 (ciphertext salt0 iv0
                    (JSON_stringify (exportData data exportedAt)) pw))
            <=? max_arguments
         then exists e,
                encryptData salt0 iv0
                  (JSON_stringify (exportData data exportedAt)) pw
                = inr e
                /\ (exportVault salt0 iv0 exportedAt pw ls).1
                   = inr (JSON_stringify (value_of_EncryptedData e))
         else (exportVault salt0 iv0 exportedAt pw ls).1 = inl RangeError
     end.
Proof.
  unfold exportVault.
  pose proof (loadVaultData_folds pw ls) as Hf.
  assert (Hls : (loadVaultData pw ls).2 = ls) by reflexivity.
  destruct (loadVaultData pw ls) as [[e|d] ls']; cbn [fst snd] in *.
  - subst ls'. split; [reflexivity|]. f_equal. by apply Hf.
  - subst ls'.
    destruct (N.leb_spec
                (N.of_nat
                   (length
                      (ciphertext salt0 iv0
                         (JSON_stringify (exportData d exportedAt)) pw)))
                max_arguments) as [Hb|Hb].
    + rewrite (encryptData_total _ _ _ _ Hb). split; [reflexivity|].
      by eexists.
    + rewrite (encryptData_too_large _ _ _ _ Hb). by split.
Qed.

(** X24: a backup restores the vault, as far as it can be made.  On a
    platform whose cipher is correct and whose JSON codec reads back
    the two texts written: when the ciphertext of the backup has no
    more bytes than a call takes arguments, what [importVault] reads
    from the text [exportVault] returned, under the same password and
    on any storage, is the records of the vault and its settings, with
    the version 1; when the ciphertext is longer, [exportVault] throws
    [RangeError] and there is no backup. *)
Theorem exportVault_importVault (salt0 iv0 : list byte)
    (exportedAt pw : jsstring) (ls ls' : Storage) (d : VaultData) :
  aead_correct ->
  (loadVaultData pw ls).1 = inr (value_of_VaultData d) ->
  (forall e,
      encryptData salt0 iv0
        (JSON_stringify (exportData (value_of_VaultData d) exportedAt)) pw
      = inr e ->
      JSON_parse (JSON_stringify (value_of_EncryptedData e))
      = inr (value_of_EncryptedData e)) ->
  JSON_parse (JSON_stringify (exportData (value_of_VaultData d) exportedAt))
  = inr (exportData (value_of_VaultData d) exportedAt) ->
  utf8_exact (JSON_stringify (exportData (value_of_VaultData d) exportedAt))
  = true ->
  let size :=
    N.of_nat
      (length
         (ciphertext salt0 iv0
            (JSON_stringify (exportData (value_of_VaultData d) exportedAt))
            pw)) in
  exportData (value_of_VaultData d) exportedAt
  = VObject [(lit "keys", VArray (keys d) []);
             (lit "settings", VObject (settings d));
             (lit "version", VNumber 1);
             (lit "exportedAt", VString exportedAt)]
  /\ (size <= max_arguments ->
      exists text,
        exportVault salt0 iv0 exportedAt pw ls = (inr text, ls)
        /\ importVault text pw ls'
           = (inr {| keys := keys d;
                     settings :=
                       spread DEFAULT_SETTINGS (VObject (settings d));
                     version := VNumber 1 |},
              ls'))
  /\ (max_arguments < size ->
      exportVault salt0 iv0 exportedAt pw ls = (inl RangeError, ls)).
Proof.
  intros Haead Hload Henv Hjson Hexact. cbv zeta.
  assert (Hls : (loadVaultData pw ls).2 = ls) by reflexivity.
  split; [reflexivity|]. split.
  - intros Hb.
    destruct (encrypt_then_decrypt salt0 iv0 _ pw Haead Hexact Hb)
      as (e & He & _ & _ & Hdec).
    pose proof (Henv e He) as Hparse.
    exists (JSON_stringify (value_of_EncryptedData e)). split.
    + unfold exportVault.
      destruct (loadVaultData pw ls) as [r ls0]. cbn [fst snd] in *.
      subst r ls0. by rewrite He.
    + rewrite (importVault_decoded _ pw ls' _ _ _ Hparse Hdec Hjson).
      reflexivity.
  - intros Hb. unfold exportVault.
    destruct (loadVaultData pw ls) as [r ls0]. cbn [fst snd] in *.
    subst r ls0. by rewrite (encryptData_too_large _ _ _ _ Hb).
Qed.

End Persistence.

(** ** The mount of [SecureVault] after a load that failed *)

Section Mount.

Context `{Platform}.

(** X25: a vault that does not load is replaced.  When [loadVaultData]
    fails at the mount of [SecureVault], the component keeps its
    initial empty vault and the auto-save writes it over the envelope
    stored: on a platform whose cipher is correct and whose JSON codec
    reads back the two texts written, what is loaded afterwards under
    the password is the empty vault. *)
Theorem mount_after_failed_load (salt0 iv0 : list byte) (pw : jsstring)
    (ls : Storage) (e : exn) :
  aead_correct ->
  (forall env,
      encryptData salt0 iv0 (JSON_stringify (value_of_VaultData empty_vault))
        pw = inr env ->
      JSON_stringify (value_of_EncryptedData env) <> []
      /\ JSON_parse (JSON_stringify (value_of_EncryptedData env))
         = inr (value_of_EncryptedData env)) ->
  JSON_parse (JSON_stringify (value_of_VaultData empty_vault))
  = inr (value_of_VaultData empty_vault) ->
  utf8_exact (JSON_stringify (value_of_VaultData empty_vault)) = true ->
  (loadVaultData pw ls).1 = inl e ->
  (mount salt0 iv0 pw ls).1 = value_of_VaultData empty_vault
  /\ (mount salt0 iv0 pw ls).2
     = (saveVaultData salt0 iv0 (value_of_VaultData empty_vault) pw ls).2
  /\ (loadVaultData pw (mount salt0 iv0 pw ls).2).1
     = inr (value_of_VaultData empty_vault).
Proof.
  intros Haead Henv Hjson Hexact Hload.
  assert (Hm : mount salt0 iv0 pw ls
               = (value_of_VaultData empty_vault,
                  (saveVaultData salt0 iv0 (value_of_VaultData empty_vault)
                     pw ls).2)).
  { unfold mount.
    assert (Hls : (loadVaultData pw ls).2 = ls) by reflexivity.
    destruct (loadVaultData pw ls) as [r ls0]. cbn [fst snd] in *.
    subst r ls0. by destruct (saveVaultData _ _ _ _ _). }
  rewrite Hm. cbn [fst snd]. split; [reflexivity|]. split; [reflexivity|].
  destruct (encrypt_then_decrypt salt0 iv0
              (JSON_stringify (value_of_VaultData empty_vault)) pw
              Haead Hexact (empty_vault_fits salt0 iv0 pw))
    as (env & He & _ & _ & Hdec).
  destruct (Henv env He) as [Hne Hparse].
  unfold saveVaultData. rewrite He. cbn [snd].
  rewrite (loadVaultData_stored pw _ _ _ (getItem_setItem _ _ _) Hne Hparse).
  rewrite Hdec. cbn [mbind result_bind]. rewrite Hjson. reflexivity.
Qed.

(** ** An import repeated *)

Lemma merge_import_records (existing imported : list ApiKey.t)
    (vaultData importedData : VaultData) :
  keys vaultData = map ApiKey.to_value existing ->
  keys importedData = map ApiKey.to_value imported ->
  merge_import vaultData vaultData importedData
  = inr ({| keys :=
              map ApiKey.to_value
                (existing
                 ++ filter (fun k => ApiKey.name k ∉ map ApiKey.name existing)
                      imported);
            settings := spread (settings vaultData)
                          (VObject (settings importedData));
            version := version vaultData |},
         length (filter (fun k => ApiKey.name k ∉ map ApiKey.name existing)
                   imported)).
Proof.
  intros Hp Hi. unfold merge_import. rewrite Hp, Hi.
  rewrite mapM_names. cbn [mbind result_bind].
  rewrite filter_new_names. cbn [mbind result_bind mret result_ret].
  by rewrite length_map, map_app.
Qed.

Lemma filter_none {A : Type} (P : A -> Prop) `{forall x, Decision (P x)}
    (l : list A) :
  Forall (fun x => ~ P x) l -> filter P l = [].
Proof.
  induction 1 as [|x l Hx _ IH]; [reflexivity|].
  by rewrite filter_cons_False.
Qed.

(** X26: importing the same backup again adds nothing.  After an
    import, a second import of the same records appends no record and
    leaves the version and every setting as the first import left
    them. *)
Theorem import_twice (existing imported : list ApiKey.t)
    (vaultData importedData : VaultData) :
  keys vaultData = map ApiKey.to_value existing ->
  keys importedData = map ApiKey.to_value imported ->
  exists next n again,
    merge_import vaultData vaultData importedData = inr (next, n)
    /\ merge_import next next importedData = inr (again, 0%nat)
    /\ keys again = keys next
    /\ version again = version next
    /\ forall p,
         lookup_prop p (settings again) = lookup_prop p (settings next).
Proof.
  intros Hp Hi.
  rewrite (merge_import_records existing imported _ _ Hp Hi).
  eexists _, _, _. split; [reflexivity|].
  set (added := filter (fun k => ApiKey.name k ∉ map ApiKey.name existing)
                  imported).
  set (next := {| keys := map ApiKey.to_value (existing ++ added);
                  settings := spread (settings vaultData)
                                (VObject (settings importedData));
                  version := version vaultData |}).
  rewrite (merge_import_records (existing ++ added) imported next
             importedData eq_refl Hi).
  rewrite (filter_none _ imported).
  - subst next. cbn [length keys version settings]. rewrite app_nil_r.
    split; [reflexivity|]. split; [reflexivity|]. split; [reflexivity|].
    intros p. cbn [settings]. rewrite !lookup_spread.
    by destruct (lookup_prop p (rev (own_props (VObject (settings importedData))))).
  - apply Forall_forall. intros k Hk Hnew. apply Hnew.
    rewrite map_app. apply elem_of_app.
    destruct (decide (ApiKey.name k ∈ map ApiKey.name existing)) as [Hin|Hout].
    + by left.
    + right. apply list_elem_of_fmap_2. by apply list_elem_of_filter.
Qed.

End Mount.

(** ** The guard of the dialog, and the clipboard *)

(** X27: the dialog hands over a record only when its name, its
    provider and its key are not empty, and then hands over the form as
    it is, the description always present. *)
Theorem handleSave_requires (formData : AddKeyDialog.FormData) :
  match AddKeyDialog.handleSave formData with
  | Some keyData =>
      AddKeyDialog.name formData <> []
      /\ AddKeyDialog.provider formData <> []
      /\ AddKeyDialog.apiKey formData <> []
      /\ KeyData.name keyData = AddKeyDialog.name formData
      /\ KeyData.provider keyData = AddKeyDialog.provider formData
      /\ KeyData.apiKey keyData = AddKeyDialog.apiKey formData
      /\ KeyData.description keyData
         = Some (AddKeyDialog.description formData)
      /\ KeyData.tags keyData = AddKeyDialog.tags formData
      /\ KeyData.expirationDate keyData = AddKeyDialog.expirationDate formData
      /\ KeyData.metadata keyData = AddKeyDialog.metadata formData
  | None =>
      AddKeyDialog.name formData = []
      \/ AddKeyDialog.provider formData = []
      \/ AddKeyDialog.apiKey formData = []
  end.
Proof.
  unfold AddKeyDialog.handleSave.
  destruct (jsstring_eqb (AddKeyDialog.name formData) []) eqn:E1;
    [left; by apply jsstring_eqb_eq|].
  destruct (jsstring_eqb (AddKeyDialog.provider formData) []) eqn:E2;
    [right; left; by apply jsstring_eqb_eq|].
  destruct (jsstring_eqb (AddKeyDialog.apiKey formData) []) eqn:E3;
    [right; right; by apply jsstring_eqb_eq|].
  cbn [orb KeyData.name KeyData.provider KeyData.apiKey KeyData.description
       KeyData.tags KeyData.expirationDate KeyData.metadata].
  repeat split; try reflexivity; intros E; apply jsstring_eqb_eq in E;
    congruence.
Qed.

Lemma clipboard_events (text cb : jsstring) (events : list ClipboardEvent) :
  Forall (fun e => e = Copy text \/ exists t p, e = TimerFires t p) events ->
  cb = text \/ cb = [] ->
  fold_left clipboard_step events cb = text
  \/ fold_left clipboard_step events cb = [].
Proof.
  intros Hev. revert cb.
  induction Hev as [|e events He _ IH]; intros cb Hcb; [exact Hcb|].
  cbn [fold_left]. apply IH.
  destruct He as [-> | (t & p & ->)]; cbn [clipboard_step]; [by left|].
  unfold clear_clipboard. destruct p; [|exact Hcb].
  destruct (jsstring_eqb cb t); [by right|exact Hcb].
Qed.

(** X28: the timer of a copy clears the text, not the copy.  After a
    text is copied, whatever timers fire and however often the same
    text is copied again, the first permitted run of a timer of that
    text empties the clipboard; and no timer changes a clipboard that
    holds another text. *)
Theorem clipboard_timer (text clipboard : jsstring) (permitted : bool)
    (events : list ClipboardEvent) :
  Forall (fun e => e = Copy text \/ exists t p, e = TimerFires t p) events ->
  fold_left clipboard_step (events ++ [TimerFires text true])
    (clipboard_step clipboard (Copy text))
  = []
  /\ (clipboard <> text -> clear_clipboard text permitted clipboard = clipboard).
Proof.
  intros Hev. split.
  - rewrite fold_left_app. cbn [fold_left clipboard_step].
    assert (Hinv : fold_left clipboard_step events text = text
                   \/ fold_left clipboard_step events text = [])
      by (apply clipboard_events; [exact Hev|by left]).
    unfold clear_clipboard.
    destruct Hinv as [-> | ->].
    + by rewrite jsstring_eqb_refl.
    + by destruct (jsstring_eqb [] text).
  - intros Hne. unfold clear_clipboard. destruct permitted; [|reflexivity].
    destruct (jsstring_eqb clipboard text) eqn:E; [|reflexivity].
    by apply jsstring_eqb_eq in E.
Qed.

(** ** The facts on concrete inputs *)

Section MoreRuns.

Import Example.

Local Abbreviation P := Reference.platform.

Lemma tags_invariant_witness :
  well_kept (AddKeyDialog.tags Sample.form)
  /\ well_kept
       (AddKeyDialog.tags
          (AddKeyDialog.addTag Sample.form Sample.form (lit " staging ")).1).
Proof.
  assert (Hk : well_kept (AddKeyDialog.tags Sample.form)).
  { split.
    - apply NoDup_singleton.
    - constructor; [|constructor].
      split; [discriminate|vm_compute; reflexivity]. }
  split; [exact Hk|].
  exact (proj1 (tags_invariant Sample.form (lit " staging ") (lit "prod") Hk)).
Defined.

Lemma addTag_removeTag_witness :
  trim (lit " staging ") = lit "staging"
  /\ AddKeyDialog.removeTag (trim (lit " staging "))
       (AddKeyDialog.addTag Sample.form Sample.form (lit " staging ")).1
     = Sample.form.
Proof.
  split; [vm_compute; reflexivity|].
  refine (proj1 (proj2 (addTag_removeTag Sample.form (lit " staging ") _ _))).
  - vm_compute. discriminate.
  - intros Hin. apply list_elem_of_singleton in Hin.
    vm_compute in Hin. discriminate.
Defined.

Lemma Sample_ids :
  NoDup (map ApiKey.id (SecureVault.keys Sample.state))
  /\ lit "id-C" ∉ map ApiKey.id (SecureVault.keys Sample.state).
Proof.
  split.
  - refine (bool_decide_unpack _ _). vm_compute. exact I.
  - refine (bool_decide_unpack _ _). vm_compute. exact I.
Defined.

Lemma ids_stay_unique_witness :
  NoDup (map ApiKey.id (SecureVault.keys Sample.state))
  /\ NoDup
       (map ApiKey.id
          (SecureVault.keys
             (SecureVault.handleAddKey Sample.keyData (lit "id-C")
                Sample.now Sample.now Sample.state))).
Proof.
  split; [exact (proj1 Sample_ids)|].
  exact (proj1 (ids_stay_unique Sample.state Sample.keyData (lit "id-C")
                  Sample.now Sample.now None None
                  (proj1 Sample_ids) (proj2 Sample_ids))).
Defined.

Lemma handleDeleteKey_removes_witness :
  SecureVault.keys
    (SecureVault.handleDeleteKey (Some (record "A")) Sample.twice)
  = [record "B"]
  /\ record "B"
     ∈ SecureVault.keys
         (SecureVault.handleDeleteKey (Some (record "A")) Sample.twice)
  /\ (Sample.copy_of_A
      ∉ SecureVault.keys
          (SecureVault.handleDeleteKey (Some (record "A")) Sample.twice))
  /\ (length
        (SecureVault.keys
           (SecureVault.handleDeleteKey (Some (record "A")) Sample.twice))
      + 2 = 3)%nat.
Proof.
  pose proof (handleDeleteKey_removes (record "A") Sample.twice)
    as (Hin & _ & Hlen & _).
  split; [vm_compute; reflexivity|]. split; [|split].
  - apply Hin. split; [right; by left|]. vm_compute. discriminate.
  - intros Hc. apply Hin in Hc. by destruct Hc as [_ []].
  - exact Hlen.
Defined.

Lemma handleUpdateKey_replaces_witness :
  record "B" ∈ SecureVault.keys Sample.state
  /\ map ApiKey.createdAt
       (SecureVault.keys
          (SecureVault.handleUpdateKey (Some (record "B")) Sample.keyData
             Sample.now Sample.state))
     = map ApiKey.createdAt (SecureVault.keys Sample.state).
Proof.
  assert (Hin : record "B" ∈ SecureVault.keys Sample.state)
    by (right; by left).
  split; [exact Hin|].
  exact (proj1 (proj2
           (handleUpdateKey_replaces (record "B") Sample.keyData Sample.now
              Sample.state (proj1 Sample_ids) Hin))).
Defined.

Lemma handleAddKey_handleDeleteKey_witness :
  (lit "id-C" ∉ map ApiKey.id (SecureVault.keys Sample.state))
  /\ SecureVault.handleDeleteKey
       (Some (SecureVault.with_stamps Sample.keyData (lit "id-C")
                Sample.now Sample.now))
       (SecureVault.handleAddKey Sample.keyData (lit "id-C") Sample.now
          Sample.now Sample.state)
     = Sample.state.
Proof.
  split; [exact (proj2 Sample_ids)|].
  exact (proj2 (handleAddKey_handleDeleteKey Sample.keyData (lit "id-C")
                  Sample.now Sample.now Sample.state (proj2 Sample_ids))).
Defined.

Lemma create_form_means_no_vault_witness :
  auth_state
    (@Index_run P ∅ [Submit (lit "weak") (lit "weak"); Lock]).1 = NoVault
  /\ (@Index_run P ∅ [Submit (lit "weak") (lit "weak"); Lock]).2 = ∅.
Proof.
  assert (Ha : auth_state
                 (@Index_run P ∅ [Submit (lit "weak") (lit "weak"); Lock]).1
               = NoVault) by (vm_compute; reflexivity).
  split; [exact Ha|].
  exact (proj1 (@create_form_means_no_vault P ∅ _ Ha)).
Defined.

Lemma create_vault_witness :
  auth_state (Index_mounted ∅) = NoVault
  /\ meets_policy password
  /\ @submit P password Sample.other_password (Index_mounted ∅) ∅
     = (Index_mounted ∅, ∅, [])
  /\ vaultExists (@mount P salt0 iv0 password ∅).2 = true.
Proof.
  assert (Hp : meets_policy password).
  { apply validatePasswordStrength_spec. vm_compute. reflexivity. }
  split; [reflexivity|]. split; [exact Hp|].
  pose proof (@create_vault P password Sample.other_password
                (Index_mounted ∅) ∅ salt0 iv0 eq_refl Hp) as (_ & Hc & Hm).
  split.
  - apply Hc. vm_compute. discriminate.
  - exact (proj2 (Hm eq_refl)).
Defined.

Lemma decryptData_ignores_whitespace_witness :
  without_whitespace (data (Sample.spaced Sample.envelope))
  = without_whitespace (data Sample.envelope)
  /\ data (Sample.spaced Sample.envelope) <> data Sample.envelope
  /\ @decryptData P (value_of_EncryptedData (Sample.spaced Sample.envelope))
       password
     = @decryptData P (value_of_EncryptedData Sample.envelope) password.
Proof.
  assert (Hd : without_whitespace (data (Sample.spaced Sample.envelope))
               = without_whitespace (data Sample.envelope))
    by (vm_compute; reflexivity).
  assert (Hs : without_whitespace (salt (Sample.spaced Sample.envelope))
               = without_whitespace (salt Sample.envelope))
    by (vm_compute; reflexivity).
  assert (Hi : without_whitespace (iv (Sample.spaced Sample.envelope))
               = without_whitespace (iv Sample.envelope))
    by (vm_compute; reflexivity).
  split; [exact Hd|]. split; [vm_compute; discriminate|].
  exact (@decryptData_ignores_whitespace P Sample.envelope
           (Sample.spaced Sample.envelope) password Hd Hs Hi).
Defined.

Lemma distinct_passwords_distinct_keys_witness :
  well_formed password = true
  /\ well_formed Sample.other_password = true
  /\ TextEncoder_encode password <> TextEncoder_encode Sample.other_password.
Proof.
  assert (H1 : well_formed password = true) by (vm_compute; reflexivity).
  assert (H2 : well_formed Sample.other_password = true)
    by (vm_compute; reflexivity).
  split; [exact H1|]. split; [exact H2|].
  refine (distinct_passwords_distinct_keys _ _ H1 H2 _).
  vm_compute. discriminate.
Defined.

(** The codec of the reference platform reads back the envelope made
    of a text under a password. *)
Ltac reference_envelope :=
  let e := fresh "e" in
  let He := fresh "He" in
  intros e He; vm_compute in He; injection He as <-;
  vm_compute; try split; (reflexivity || discriminate).

Lemma saveVaultData_loadVaultData_witness :
  utf8_exact (Reference.stringify (value_of_VaultData vault)) = true
  /\ (@loadVaultData P password
        (@saveVaultData P salt0 iv0 (value_of_VaultData vault) password ∅).2).1
     = inr (value_of_VaultData vault).
Proof.
  assert (Ht : utf8_exact (Reference.stringify (value_of_VaultData vault))
               = true) by (vm_compute; reflexivity).
  split; [exact Ht|].
  refine (eq_trans
            (f_equal fst
               (proj2 (proj2 (proj2
                  (proj1
                     (@saveVaultData_loadVaultData P salt0 iv0 vault
                        password ∅ reference_aead_correct _ _ Ht)
                     _)))))
            _).
  - reference_envelope.
  - vm_compute. reflexivity.
  - apply N.leb_le. vm_compute. reflexivity.
  - reflexivity.
Defined.

Lemma loadVaultData_padded_password_witness :
  (length (TextEncoder_encode password) < 64)%nat
  /\ password ++ [0] <> password
  /\ auth_state
       (@handleAuth P (password ++ [0]) (locked 0)
          (@saveVaultData P salt0 iv0 (value_of_VaultData vault) password
             ∅).2).1.1
     = Unlocked.
Proof.
  assert (Hlen : (length (TextEncoder_encode password) < 64)%nat)
    by (vm_compute; lia).
  pose proof (@loadVaultData_padded_password P salt0 iv0 vault password ∅
                (locked 0) 0 reference_hmac_zero_padding Hlen)
    as (Hne & _ & Hopen).
  split; [exact Hlen|]. split; [exact Hne|].
  refine (proj1 (proj2
            (Hopen reference_aead_correct _ _ _ _ eq_refl _))).
  - reference_envelope.
  - vm_compute. reflexivity.
  - vm_compute. reflexivity.
  - apply N.leb_le. vm_compute. reflexivity.
  - lia.
Defined.

Lemma loadVaultData_settings_witness :
  (@loadVaultData P password (stored (VObject Sample.dark) password)).1
  = inr (VObject
           [(lit "keys", VArray [] []);
            (lit "settings",
             VObject [(lit "clipboardClearTime", VNumber 30);
                      (lit "autoLockTime", VNumber 15);
                      (lit "darkMode", VBool true);
                      (lit "showKeyPreview", VBool false)]);
            (lit "version", VNumber 1)]).
Proof.
  refine (f_equal fst
            (proj1
               (@loadVaultData_settings P password
                  (stored (VObject Sample.dark) password)
                  (envelope (VObject Sample.dark) password)
                  (Reference.stringify (VObject Sample.dark))
                  (parsed (envelope (VObject Sample.dark) password))
                  Sample.dark _ _ _ _ _))).
  - vm_compute. reflexivity.
  - vm_compute. discriminate.
  - vm_compute. reflexivity.
  - vm_compute. reflexivity.
  - vm_compute. reflexivity.
Defined.

Lemma empty_item_opens_witness :
  vaultExists (setItem STORAGE_KEY [] ∅) = true
  /\ auth_state
       (@submit P (lit "anything") (lit "anything") (locked 0)
          (setItem STORAGE_KEY [] ∅)).1.1
     = Unlocked.
Proof.
  pose proof (@empty_item_opens P (lit "anything") (setItem STORAGE_KEY [] ∅)
                (locked 0) 0) as Hw.
  refine ((fun H => conj (proj1 H) (proj2 (proj2 H))) (Hw _ eq_refl _ _)).
  - vm_compute. reflexivity.
  - lia.
  - vm_compute. lia.
Defined.

Lemma exportVault_importVault_witness :
  (@loadVaultData P password (stored (value_of_VaultData vault) password)).1
  = inr (value_of_VaultData vault)
  /\ exists text,
       @exportVault P salt0 iv0 Sample.now password
         (stored (value_of_VaultData vault) password)
       = (inr text, stored (value_of_VaultData vault) password)
       /\ @importVault P text password ∅ = (inr vault, ∅).
Proof.
  assert (Hl : (@loadVaultData P password
                  (stored (value_of_VaultData vault) password)).1
               = inr (value_of_VaultData vault)) by (vm_compute; reflexivity).
  split; [exact Hl|].
  refine (proj1 (proj2
            (@exportVault_importVault P salt0 iv0 Sample.now password
               (stored (value_of_VaultData vault) password) ∅ vault
               reference_aead_correct Hl _ _ _)) _).
  - let e := fresh "e" in
    let He := fresh "He" in
    intros e He; vm_compute in He; injection He as <-;
    vm_compute; reflexivity.
  - vm_compute. reflexivity.
  - vm_compute. reflexivity.
  - apply N.leb_le. vm_compute. reflexivity.
Defined.

Lemma mount_after_failed_load_witness :
  (@loadVaultData P Sample.other_password
     (stored (value_of_VaultData vault) password)).1
  = inl load_failure
  /\ (@loadVaultData P Sample.other_password
        (@mount P salt0 iv0 Sample.other_password
           (stored (value_of_VaultData vault) password)).2).1
     = inr (value_of_VaultData empty_vault).
Proof.
  assert (Hl : (@loadVaultData P Sample.other_password
                  (stored (value_of_VaultData vault) password)).1
               = inl load_failure) by (vm_compute; reflexivity).
  split; [exact Hl|].
  refine (proj2 (proj2
            (@mount_after_failed_load P salt0 iv0 Sample.other_password
               (stored (value_of_VaultData vault) password) load_failure
               reference_aead_correct _ _ _ Hl))).
  - reference_envelope.
  - vm_compute. reflexivity.
  - vm_compute. reflexivity.
Defined.

Lemma import_twice_witness :
  keys Sample.backup
  = map ApiKey.to_value [record "B"; record "C"]
  /\ exists next n again,
       merge_import vault vault Sample.backup = inr (next, n)
       /\ merge_import next next Sample.backup = inr (again, 0%nat)
       /\ keys again = keys next.
Proof.
  split; [reflexivity|].
  destruct (@import_twice [record "A"; record "B"] [record "B"; record "C"]
              vault Sample.backup eq_refl eq_refl)
    as (next & n & again & H1 & H2 & H3 & _).
  by exists next, n, again.
Defined.

Lemma clipboard_timer_witness :
  fold_left clipboard_step
    ([TimerFires (lit "name") true; Copy (lit "sk-test")]
     ++ [TimerFires (lit "sk-test") true])
    (clipboard_step (lit "name") (Copy (lit "sk-test")))
  = [].
Proof.
  refine (proj1
            (clipboard_timer (lit "sk-test") (lit "name") true
               [TimerFires (lit "name") true; Copy (lit "sk-test")] _)).
  constructor; [right; by eexists _, _|].
  constructor; [by left|constructor].
Defined.

End MoreRuns.
